(** * Axis servo execution layer (servo_controller.py)

    A shallow embedding of [AxisServo]: the per-axis command state, the unit
    conversions, the bulk read with its run-time detection of the current
    channel, the synchronised write, and [execute_time_synced] with its
    streaming loop, optional current guard and settle loop.

    Modelling conventions.
    - Python [int] is [Z].  Python [float] is idealised as an exact rational
      [Q]: binary64 rounding error, NaN and the infinities are outside the
      model, and with them the [OverflowError] of a float that leaves the
      binary64 range; the statements on the setters that say a call returns
      are made of angles that convert within the range.  One product is
      not idealised: the one whose truncation is the step count of
      [execute_time_synced] is rounded to binary64 as the code computes it
      ([Py.fmul]), since the truncation can tell the rounded product from
      the exact one.  Module [Binary64] holds the same expressions on
      primitive binary64 floats, and the two are compared on the inputs of
      the concrete runs.
    - Python dicts keyed by motor id are [gmap Z _]; a dict that the code
      iterates with [.items()] is passed as the list of its items.
    - Exceptions are values of [PyError]; an operation returns its outcome
      together with the state the object is left in.
    - The DYNAMIXEL SDK is an external collaborator: the replies of the bus
      are an oracle held in the state, and every packet the code sends is
      appended to a trace.

    The second half of the file covers the rest of [AxisServo] and
    [template_runner.py], which drives it from a template of steps. *)

From Stdlib Require Import ZArith QArith Qround Qabs Qpower Lqa.
From Stdlib Require Import Uint63 PrimFloat SpecFloat FloatOps.
From stdpp Require Import base option list strings gmap sorting.

#[local] Open Scope Z_scope.

(** ** Python numerics *)

Module Py.

(** [int(x)] on a float: truncation towards zero. *)
Definition int (x : Q) : Z := Z.quot (Qnum x) (Z.pos (Qden x)).

(** [round(x)] with one argument: nearest integer, ties to even. *)
Definition round (x : Q) : Z :=
  let f := Qfloor x in
  match Qcompare (x - inject_Z f)%Q (1 # 2)%Q with
  | Lt => f
  | Gt => f + 1
  | Eq => if Z.even f then f else f + 1
  end.

(** [max(a, b)] on floats: the first argument unless the second is larger. *)
Definition max (a b : Q) : Q := if Qle_bool b a then a else b.

(** [2.0 ** e] *)
Definition pow2 (e : Z) : Q :=
  if 0 <=? e then inject_Z (2 ^ e) else (/ inject_Z (2 ^ (- e)))%Q.

(** The exponent of the leading bit of a positive float. *)
Definition ilog2 (q : Q) : Z :=
  let l := Z.log2 (Qnum q) - Z.log2 (Z.pos (Qden q)) in
  if Qle_bool (pow2 l) q then l else l - 1.

(** The binary64 nearest to [q], ties to even: what a float operation
    whose exact result is [q] returns, as long as that is finite.  The
    significand has 53 bits and the exponent of its last bit is at least
    -1074. *)
Definition b64 (q : Q) : Q :=
  if Qeq_bool q 0 then 0%Q else
  let e := Z.max (ilog2 (Qabs q) - 52) (-1074) in
  let m := round (Qabs q / pow2 e) in
  if Qle_bool 0 q then (inject_Z m * pow2 e)%Q else (- (inject_Z m * pow2 e))%Q.

(** [float(z)] on an int. *)
Definition float (z : Z) : Q := b64 (inject_Z z).

(** [x * y] on floats. *)
Definition fmul (x y : Q) : Q := b64 (x * y).

(** [a < b] on floats. *)
Definition ltb (a b : Q) : bool := negb (Qle_bool b a).

(** [range(lo, hi)]. *)
Definition range (lo hi : Z) : list Z :=
  map (λ n, lo + Z.of_nat n) (seq 0 (Z.to_nat (hi - lo))).

End Py.

(** ** The numeric expressions in binary64

    The arithmetic of the conversions and of [execute_time_synced] on Rocq's
    primitive floats, which are IEEE 754 binary64 like Python's.  An [int]
    operand of a float operation is converted first, as Python does. *)

Module Binary64.

(** [float(z)] *)
Definition of_int (z : Z) : float :=
  let m := PrimFloat.of_uint63 (Uint63.of_Z (Z.abs z)) in
  if z <? 0 then PrimFloat.opp m else m.

(** [int(x)] for a finite [x]: truncation towards zero. *)
Definition int (x : float) : Z :=
  match Prim2SF x with
  | S754_finite s m e =>
      let v := if 0 <=? e then Z.pos m * 2 ^ e else Z.pos m / 2 ^ (- e) in
      if s then - v else v
  | _ => 0
  end.

(** [round(x)] for a finite [x]: nearest integer, ties to even. *)
Definition round (x : float) : Z :=
  match Prim2SF x with
  | S754_finite s m e =>
      let v :=
        if 0 <=? e then Z.pos m * 2 ^ e
        else
          let d := 2 ^ (- e) in
          let q := Z.pos m / d in
          match 2 * (Z.pos m mod d) ?= d with
          | Lt => q
          | Gt => q + 1
          | Eq => if Z.even q then q else q + 1
          end in
      if s then - v else v
  | _ => 0
  end.

Definition deg_to_ticks (ticks_per_rev : Z) (deg : float) : Z :=
  round (deg * of_int ticks_per_rev / 360)%float.

Definition exec_steps (duration_s : float) (poll_hz : Z) : Z :=
  Z.max 1 (int (duration_s * of_int poll_hz)%float).

(** [k / steps] on two ints below [2^53]. *)
Definition alpha (k steps : Z) : float := (of_int k / of_int steps)%float.

Definition shape (smooth : bool) (a : float) : float :=
  if negb smooth then a else (a * a * (3 - 2 * a))%float.

Definition waypoint (start goal : Z) (a : float) : Z :=
  round (of_int start + of_int (goal - start) * a)%float.

End Binary64.

(** ** Exceptions and the two monads *)

Inductive BusFailure :=
| BulkReadFailed
| PresentPositionNotAvailable (id : Z)
| SyncWriteAddParamFailed (id : Z)
| SyncWriteFailed.

Inductive PyError :=
| RuntimeError (why : BusFailure)
| KeyError (key : Z)
| ValueError
| ZeroDivisionError.

Inductive Res (A : Type) :=
| Ok (a : A)
| Raise (e : PyError).
Arguments Ok {A} a.
Arguments Raise {A} e.

#[global] Instance Res_ret : MRet Res := λ A a, Ok a.
#[global] Instance Res_bind : MBind Res := λ A B f r,
  match r with Ok a => f a | Raise e => Raise e end.

(** ** Configuration, bus and controller state *)

(** [DxlConfig] without the three transport fields ([device], [baudrate],
    [protocol]), which only [connect] reads. *)
Record DxlConfig := {
  ids : list Z;
  ticks_per_rev : Z;
  addr_operating_mode : Z;
  addr_torque_enable : Z;
  addr_goal_position : Z;
  addr_present_position : Z;
  addr_present_current : Z;
  mode_extended_position : Z }.

(** What one [GroupBulkRead.txRxPacket] brings back. *)
Record BulkReply := {
  comm_ok : bool;
  is_available : Z → Z → Z → bool;
  get_data : Z → Z → Z → Z }.

(** What one [GroupSyncWrite] does with the parameters it is handed. *)
Record SyncReply := {
  add_param_ok : Z → bool;
  tx_ok : bool }.

(** Packets put on the wire, and the sleeps between them. *)
Inductive Event :=
| EvWrite1 (id addr value : Z)
| EvBulkRead (params : list (Z * Z * Z))
| EvSyncWrite (addr len : Z) (params : list (Z * list Z))
| EvSleep (seconds : Q).

Record Bus := {
  bulk_rx : nat → BulkReply;
  n_bulk : nat;
  sync_tx : nat → SyncReply;
  n_sync : nat;
  trace : list Event }.

(** The mutable fields of [AxisServo]; [bus] stands for [port] and
    [packet]. *)
Record AxisServo := {
  cmd_ticks : gmap Z Z;
  last_present_ticks : gmap Z (option Z);
  last_present_current : gmap Z (option Z);
  supports_current : option bool;
  bus : Bus }.

Definition M (A : Type) : Type := AxisServo → Res A * AxisServo.

#[global] Instance M_ret : MRet M := λ A a s, (Ok a, s).
#[global] Instance M_bind : MBind M := λ A B f m s,
  match m s with
  | (Ok a, s') => f a s'
  | (Raise e, s') => (Raise e, s')
  end.

Definition raise {A} (e : PyError) : M A := λ s, (Raise e, s).
Definition lift {A} (r : Res A) : M A := λ s, (r, s).
Definition get_state : M AxisServo := λ s, (Ok s, s).

Definition with_bus (b : Bus) (s : AxisServo) : AxisServo :=
  {| cmd_ticks := cmd_ticks s;
     last_present_ticks := last_present_ticks s;
     last_present_current := last_present_current s;
     supports_current := supports_current s;
     bus := b |}.

Definition with_cmd_ticks (c : gmap Z Z) (s : AxisServo) : AxisServo :=
  {| cmd_ticks := c;
     last_present_ticks := last_present_ticks s;
     last_present_current := last_present_current s;
     supports_current := supports_current s;
     bus := bus s |}.

Definition emit (ev : Event) (b : Bus) : Bus :=
  {| bulk_rx := bulk_rx b; n_bulk := n_bulk b;
     sync_tx := sync_tx b; n_sync := n_sync b;
     trace := trace b ++ [ev] |}.

Definition send (ev : Event) : M unit := λ s, (Ok tt, with_bus (emit ev (bus s)) s).

(** [d[k]] *)
Definition getitem {V} (d : gmap Z V) (k : Z) : Res V :=
  match d !! k with Some v => Ok v | None => Raise (KeyError k) end.

(** [{i: f(i) for i in l}], built left to right on top of [acc]. *)
Fixpoint dict_from {V} (f : Z → Res V) (l : list Z) (acc : gmap Z V) : Res (gmap Z V) :=
  match l with
  | [] => Ok acc
  | i :: l' => v ← f i; dict_from f l' (<[i := v]> acc)
  end.

(** [for x in l: body(x)] *)
Fixpoint for_each {A} (body : A → M unit) (l : list A) : M unit :=
  match l with
  | [] => mret tt
  | x :: l' => body x;; for_each body l'
  end.

(** ** The SDK's word-splitting macros

    [DXL_LOWORD], [DXL_HIWORD], [DXL_LOBYTE] and [DXL_HIBYTE] are imported
    from the external bus library [dynamixel_sdk]; they split a 32-bit value
    into its four little-endian bytes. *)

Definition DXL_LOWORD (l : Z) : Z := Z.land l 0xFFFF.
Definition DXL_HIWORD (l : Z) : Z := Z.land (Z.shiftr l 16) 0xFFFF.
Definition DXL_LOBYTE (w : Z) : Z := Z.land w 0xFF.
Definition DXL_HIBYTE (w : Z) : Z := Z.land (Z.shiftr w 8) 0xFF.

(** ** AxisServo *)

Section AxisServo.

Variable cfg : DxlConfig.

Definition LEN_4 : Z := 4.
Definition LEN_2 : Z := 2.
Definition TORQUE_ENABLE : Z := 1.
Definition TORQUE_DISABLE : Z := 0.

(** *** Conversions *)

Definition _int32 (x : Z) : Z :=
  let x := Z.land x 0xFFFFFFFF in
  if Z.land x 0x80000000 =? 0 then x else x - 0x100000000.

Definition _i16 (x : Z) : Z :=
  let x := Z.land x 0xFFFF in
  if Z.land x 0x8000 =? 0 then x else x - 0x10000.

Definition _u32 (x : Z) : Z := Z.land x 0xFFFFFFFF.

Definition deg_to_ticks (deg : Q) : Z :=
  Py.round (deg * inject_Z (ticks_per_rev cfg) / 360)%Q.

(** Float division by an integer zero raises. *)
Definition ticks_to_deg (ticks : Z) : Res Q :=
  if ticks_per_rev cfg =? 0 then Raise ZeroDivisionError
  else Ok (inject_Z ticks * 360 / inject_Z (ticks_per_rev cfg))%Q.

(** [max(-2**31, min(2**31 - 1, t))] *)
Definition clamp_i32 (t : Z) : Z := Z.max (- 2 ^ 31) (Z.min (2 ^ 31 - 1) t).

(** *** Mode switch *)

Definition write1ByteTxRx (id addr value : Z) : M unit := send (EvWrite1 id addr value).

Definition ensure_extended_mode (ids_arg : option (list Z)) : M unit :=
  let ids' := match ids_arg with
              | None | Some [] => ids cfg
              | Some l => l
              end in
  for_each (λ dxl_id,
    write1ByteTxRx dxl_id (addr_torque_enable cfg) TORQUE_DISABLE;;
    write1ByteTxRx dxl_id (addr_operating_mode cfg) (mode_extended_position cfg);;
    write1ByteTxRx dxl_id (addr_torque_enable cfg) TORQUE_ENABLE) ids'.

(** *** Command state *)

Definition set_cmd (dxl_id t : Z) : M unit :=
  λ s, (Ok tt, with_cmd_ticks (<[dxl_id := t]> (cmd_ticks s)) s).

Definition set_targets_abs_deg (abs_deg_by_id : list (Z * Q)) : M unit :=
  for_each (λ '(dxl_id, deg),
    let t := deg_to_ticks deg in
    let t := clamp_i32 t in
    set_cmd dxl_id t) abs_deg_by_id.

Definition nudge_rel_deg (delta_deg_by_id : list (Z * Q)) : M unit :=
  for_each (λ '(dxl_id, ddeg),
    let dt := deg_to_ticks ddeg in
    s ← get_state;
    c ← lift (getitem (cmd_ticks s) dxl_id);
    let t := c + dt in
    let t := clamp_i32 t in
    set_cmd dxl_id t) delta_deg_by_id.

(** *** Bulk read *)

(** [br.txRxPacket()] for the registered parameters: the packet goes on the
    wire and the next reply of the bus comes back. *)
Definition txRxPacket (params : list (Z * Z * Z)) : M BulkReply := λ s,
  let b := bus s in
  (Ok (bulk_rx b (n_bulk b)),
   with_bus {| bulk_rx := bulk_rx b; n_bulk := S (n_bulk b);
               sync_tx := sync_tx b; n_sync := n_sync b;
               trace := trace b ++ [EvBulkRead params] |} s).

Definition read_position (r : BulkReply) (dxl_id : Z) : Res Z :=
  if is_available r dxl_id (addr_present_position cfg) LEN_4
  then Ok (_int32 (get_data r dxl_id (addr_present_position cfg) LEN_4))
  else Raise (RuntimeError (PresentPositionNotAvailable dxl_id)).

Definition current_available (r : BulkReply) (dxl_id : Z) : bool :=
  is_available r dxl_id (addr_present_current cfg) LEN_2.

(** The loop that fills [cur] where the current field is available. *)
Definition read_currents (r : BulkReply) (cur : gmap Z (option Z)) : gmap Z (option Z) :=
  foldl (λ cur dxl_id,
    if current_available r dxl_id
    then <[dxl_id := Some (_i16 (get_data r dxl_id (addr_present_current cfg) LEN_2))]> cur
    else cur) cur (ids cfg).

Definition no_current : gmap Z (option Z) :=
  foldl (λ cur i, <[i := None]> cur) ∅ (ids cfg).

(** Whether this call registers the current field: asked for, and not
    already known to be unsupported. *)
Definition asks_current (want_current : bool) (s : AxisServo) : bool :=
  want_current && negb (bool_decide (supports_current s = Some false)).

Definition bulk_params (ask : bool) : list (Z * Z * Z) :=
  map (λ i, (i, addr_present_position cfg, LEN_4)) (ids cfg) ++
  (if ask then map (λ i, (i, addr_present_current cfg, LEN_2)) (ids cfg) else []).

(** The second half of [bulk_read]: collect the currents, decide support on
    the first attempt, refresh the last-known caches. *)
Definition store_reading (r : BulkReply) (want_current : bool) (pos : gmap Z Z)
  : M (gmap Z Z * gmap Z (option Z)) := λ s,
  let cur := if want_current then read_currents r no_current else no_current in
  let sup := if want_current
             then match supports_current s with
                  | None => Some (forallb (current_available r) (ids cfg))
                  | known => known
                  end
             else supports_current s in
  (Ok (pos, cur),
   {| cmd_ticks := cmd_ticks s;
      last_present_ticks := (Some <$> pos) ∪ last_present_ticks s;
      last_present_current := cur ∪ last_present_current s;
      supports_current := sup;
      bus := bus s |}).

Definition bulk_read (want_current : bool) : M (gmap Z Z * gmap Z (option Z)) :=
  s0 ← get_state;
  let want_current := asks_current want_current s0 in
  r ← txRxPacket (bulk_params want_current);
  if negb (comm_ok r) then raise (RuntimeError BulkReadFailed) else
  pos ← lift (dict_from (read_position r) (ids cfg) ∅);
  store_reading r want_current pos.

(** *** Soft reset *)

Inductive ResetMode := to_present | to_nearest_turn | other_mode.

Definition soft_reset (mode : ResetMode) : M unit :=
  '(pos, _) ← bulk_read false;
  match mode with
  | to_present =>
      for_each (λ dxl_id, p ← lift (getitem pos dxl_id); set_cmd dxl_id p) (ids cfg)
  | to_nearest_turn =>
      let r := ticks_per_rev cfg in
      for_each (λ dxl_id,
        p ← lift (getitem pos dxl_id);
        if r =? 0 then raise ZeroDivisionError
        else set_cmd dxl_id (Py.round (inject_Z p / inject_Z r)%Q * r)) (ids cfg)
  | other_mode => raise ValueError
  end.

(** *** Synchronised write

    The parameters go into the packet in the order of [map_to_list]; the
    order in which Python walks the dict is not modelled. *)

Definition goal_bytes (goal : Z) : list Z :=
  let u := _u32 goal in
  [ DXL_LOBYTE (DXL_LOWORD u); DXL_HIBYTE (DXL_LOWORD u);
    DXL_LOBYTE (DXL_HIWORD u); DXL_HIBYTE (DXL_HIWORD u) ].

Fixpoint add_params (sr : SyncReply) (items : list (Z * Z)) : Res (list (Z * list Z)) :=
  match items with
  | [] => Ok []
  | (dxl_id, goal) :: rest =>
      if add_param_ok sr dxl_id
      then ps ← add_params sr rest; Ok ((dxl_id, goal_bytes goal) :: ps)
      else Raise (RuntimeError (SyncWriteAddParamFailed dxl_id))
  end.

Definition sync_write_goal_positions (goal_ticks : gmap Z Z) : M unit := λ s,
  let b := bus s in
  let sr := sync_tx b (n_sync b) in
  let used tr := {| bulk_rx := bulk_rx b; n_bulk := n_bulk b;
                    sync_tx := sync_tx b; n_sync := S (n_sync b);
                    trace := tr |} in
  match add_params sr (map_to_list goal_ticks) with
  | Raise e => (Raise e, with_bus (used (trace b)) s)
  | Ok ps =>
      let s' := with_bus (used (trace b ++ [EvSyncWrite (addr_goal_position cfg) LEN_4 ps])) s in
      if tx_ok sr then (Ok tt, s') else (Raise (RuntimeError SyncWriteFailed), s')
  end.

(** *** Time-synced execution

    The [print] calls under [log] are left out, except that the one on the
    deadline exit evaluates [ticks_to_deg], which can raise. *)

Record ExecArgs := {
  duration_s : Q;
  poll_hz : Z;
  eps_deg : Q;
  settle_n : Z;
  timeout_factor : Q;
  smoothstep : bool;
  current_guard : option (Z * Z);
  log : bool }.

Record MotionResult := {
  settled : bool;
  start_pos : gmap Z Z;
  start_current : gmap Z (option Z);
  goal : gmap Z Z;
  final_pos : gmap Z Z;
  final_current : gmap Z (option Z);
  max_err_ticks : option Z;
  max_err_deg : option Q }.

(** The wall clock is the finite script of the readings [time.time()] will
    give, in order.  Past the end of the script the clock is later than
    every deadline; such a reading is [None]. *)
Definition time_time (clk : list Q) : option Q * list Q :=
  match clk with
  | [] => (None, [])
  | t :: clk' => (Some t, clk')
  end.

(** [t < deadline] for clock readings. *)
Definition before (t deadline : option Q) : bool :=
  match t, deadline with
  | Some t, Some d => Py.ltb t d
  | Some _, None => true
  | None, _ => false
  end.

(** [max(1, int(duration_s * poll_hz))]: the int is converted to a float
    and the product is the binary64 one. *)
Definition exec_steps (a : ExecArgs) : Z :=
  Z.max 1 (Py.int (Py.fmul (duration_s a) (Py.float (poll_hz a)))).

Definition exec_dt (a : ExecArgs) : Q :=
  (duration_s a / inject_Z (exec_steps a))%Q.

Definition exec_eps_ticks (a : ExecArgs) : Z :=
  Z.abs (deg_to_ticks (eps_deg a)).

Definition shape (smooth : bool) (a : Q) : Q :=
  if negb smooth then a else (a * a * (3 - 2 * a))%Q.

(** [int(round(start + (goal - start) * a))] *)
Definition waypoint (start goal : Z) (a : Q) : Z :=
  Py.round (inject_Z start + inject_Z (goal - start) * a)%Q.

(** The dict [mid] of step [k]. *)
Definition mid_ticks (a : ExecArgs) (start_pos goal : gmap Z Z) (steps k : Z) : Res (gmap Z Z) :=
  let alpha := (inject_Z k / inject_Z steps)%Q in
  let sa := shape (smoothstep a) alpha in
  dict_from (λ i,
    p0 ← getitem start_pos i;
    g ← getitem goal i;
    p1 ← getitem start_pos i;
    Ok (waypoint p0 g sa)) (ids cfg) ∅.

(** [[i for i in ids if cur[i] is not None and (cur[i] < mn or cur[i] > mx)]] *)
Fixpoint bad_axes (cur : gmap Z (option Z)) (mn mx : Z) (l : list Z) : Res (list Z) :=
  match l with
  | [] => Ok []
  | i :: l' =>
      c ← getitem cur i;
      rest ← bad_axes cur mn mx l';
      Ok (match c with
          | Some c => if (c <? mn) || (c >? mx) then i :: rest else rest
          | None => rest
          end)
  end.

(** Whether step [k] is one on which the guard reads the currents. *)
Definition guard_step (a : ExecArgs) (k : Z) : bool :=
  k mod Z.max 1 (poll_hz a / 10) =? 0.

(** The "keep timing" tail of a streaming step. *)
Definition pace (a : ExecArgs) (t0 : option Q) (k : Z) (clk : list Q) (s : AxisServo)
  : Res bool * list Q * AxisServo :=
  let '(now, clk') := time_time clk in
  match now, t0 with
  | Some now, Some t0 =>
      let spent := (now - t0)%Q in
      let target := (inject_Z k * exec_dt a)%Q in
      let sleep_s := (target - spent)%Q in
      if Py.ltb 0 sleep_s
      then (Ok false, clk', with_bus (emit (EvSleep sleep_s) (bus s)) s)
      else (Ok false, clk', s)
  | _, _ => (Ok false, clk', s)
  end.

(** One iteration of the streaming loop.  The boolean tells whether the
    iteration left the loop through [break]; Python has no such value and
    the caller drops it. *)
Definition stream_step (a : ExecArgs) (start_pos goal : gmap Z Z) (t0 : option Q)
    (k : Z) (clk : list Q) (s : AxisServo) : Res bool * list Q * AxisServo :=
  match mid_ticks a start_pos goal (exec_steps a) k with
  | Raise e => (Raise e, clk, s)
  | Ok mid =>
    match sync_write_goal_positions mid s with
    | (Raise e, s1) => (Raise e, clk, s1)
    | (Ok _, s1) =>
      match current_guard a with
      | Some (mn, mx) =>
          if guard_step a k then
            match bulk_read true s1 with
            | (Raise e, s2) => (Raise e, clk, s2)
            | (Ok (_, cur), s2) =>
              match bad_axes cur mn mx (ids cfg) with
              | Raise e => (Raise e, clk, s2)
              | Ok [] => pace a t0 k clk s2
              | Ok (_ :: _) => (Ok true, clk, s2)
              end
            end
          else pace a t0 k clk s1
      | None => pace a t0 k clk s1
      end
    end
  end.

Fixpoint stream_loop (a : ExecArgs) (start_pos goal : gmap Z Z) (t0 : option Q)
    (ks : list Z) (clk : list Q) (s : AxisServo) : Res bool * list Q * AxisServo :=
  match ks with
  | [] => (Ok false, clk, s)
  | k :: ks' =>
    match stream_step a start_pos goal t0 k clk s with
    | (Ok false, clk', s') => stream_loop a start_pos goal t0 ks' clk' s'
    | stopped => stopped
    end
  end.

(** [max(abs(goal[i] - pos[i]) for i in ids)]; [max] of nothing raises. *)
Fixpoint abs_errors (goal pos : gmap Z Z) (l : list Z) : Res (list Z) :=
  match l with
  | [] => Ok []
  | i :: l' =>
      g ← getitem goal i;
      p ← getitem pos i;
      rest ← abs_errors goal pos l';
      Ok (Z.abs (g - p) :: rest)
  end.

Definition max_of (l : list Z) : Res Z :=
  match l with
  | [] => Raise ValueError
  | x :: l' => Ok (foldl Z.max x l')
  end.

Definition max_abs_error (goal pos : gmap Z Z) : Res Z :=
  errs ← abs_errors goal pos (ids cfg); max_of errs.

(** The exit taken when the deadline has passed. *)
Definition timed_out (a : ExecArgs) (start_pos : gmap Z Z) (start_cur : gmap Z (option Z))
    (goal : gmap Z Z) (last_max_err : option Z) : M MotionResult :=
  (if log a then _ ← lift (ticks_to_deg (default 0 last_max_err)); mret tt else mret tt);;
  '(pos, cur) ← bulk_read true;
  deg ← lift (match last_max_err with
              | Some e => d ← ticks_to_deg e; Ok (Some d)
              | None => Ok None
              end);
  mret {| settled := false;
          start_pos := start_pos; start_current := start_cur;
          goal := goal;
          final_pos := pos; final_current := cur;
          max_err_ticks := last_max_err;
          max_err_deg := deg |}.

(** [time.sleep(1.0 / max(5, poll_hz))] *)
Definition settle_sleep (a : ExecArgs) : Event :=
  EvSleep (1 / inject_Z (Z.max 5 (poll_hz a)))%Q.

(** The settle loop: one iteration for every clock reading that is still
    before the deadline. *)
Fixpoint settle_loop (a : ExecArgs) (start_pos : gmap Z Z) (start_cur : gmap Z (option Z))
    (goal : gmap Z Z) (deadline : option Q) (clk : list Q)
    (ok_streak : Z) (last_max_err : option Z) (s : AxisServo)
  : Res MotionResult * AxisServo :=
  match clk with
  | [] => timed_out a start_pos start_cur goal last_max_err s
  | t :: clk' =>
    if negb (before (Some t) deadline)
    then timed_out a start_pos start_cur goal last_max_err s
    else
      match bulk_read true s with
      | (Raise e, s1) => (Raise e, s1)
      | (Ok (pos, cur), s1) =>
        match max_abs_error goal pos with
        | Raise e => (Raise e, s1)
        | Ok max_err =>
          let slept := with_bus (emit (settle_sleep a) (bus s1)) s1 in
          if max_err <=? exec_eps_ticks a then
            let ok_streak := ok_streak + 1 in
            if ok_streak >=? settle_n a then
              match ticks_to_deg max_err with
              | Raise e => (Raise e, s1)
              | Ok deg =>
                (Ok {| settled := true;
                       start_pos := start_pos; start_current := start_cur;
                       goal := goal;
                       final_pos := pos; final_current := cur;
                       max_err_ticks := Some max_err;
                       max_err_deg := Some deg |}, s1)
              end
            else settle_loop a start_pos start_cur goal deadline clk'
                   ok_streak (Some max_err) slept
          else settle_loop a start_pos start_cur goal deadline clk'
                 0 (Some max_err) slept
        end
      end
  end.

(** Part 2 of [execute_time_synced]: fix the deadline, then poll. *)
Definition settle_phase (a : ExecArgs) (start_pos : gmap Z Z) (start_cur : gmap Z (option Z))
    (goal : gmap Z Z) (clk : list Q) (s : AxisServo) : Res MotionResult * AxisServo :=
  let '(now, clk') := time_time clk in
  let deadline :=
    (λ now, now + Py.max (2 # 10) (duration_s a * timeout_factor a))%Q <$> now in
  settle_loop a start_pos start_cur goal deadline clk' 0 None s.

Definition execute_time_synced (a : ExecArgs) (clk : list Q) (s : AxisServo)
  : Res MotionResult * AxisServo :=
  match bulk_read true s with
  | (Raise e, s1) => (Raise e, s1)
  | (Ok (start_pos, start_cur), s1) =>
    match dict_from (getitem (cmd_ticks s1)) (ids cfg) ∅ with
    | Raise e => (Raise e, s1)
    | Ok goal =>
      let steps := exec_steps a in
      let '(t0, clk1) := time_time clk in
      match stream_loop a start_pos goal t0 (Py.range 1 (steps + 1)) clk1 s1 with
      | (Raise e, _, s2) => (Raise e, s2)
      | (Ok _, clk2, s2) => settle_phase a start_pos start_cur goal clk2 s2
      end
    end
  end.

End AxisServo.

(** * Vocabulary of the statements *)

(** The session has marked the current channel unsupported. *)
Definition current_off (s : AxisServo) : Prop := supports_current s = Some false.

(** [preserves I m]: whatever [m] does, and whether it returns or raises, it
    leaves the object in a state that satisfies [I] when it started in
    one. *)
Definition preserves {A} (I : AxisServo → Prop) (m : M A) : Prop :=
  ∀ s, I s → I (m s).2.

Section Vocabulary.

Variable cfg : DxlConfig.

(** The three register writes that switch one axis to extended-position
    mode. *)
Definition mode_switch (dxl_id : Z) : list Event :=
  [ EvWrite1 dxl_id (addr_torque_enable cfg) TORQUE_DISABLE;
    EvWrite1 dxl_id (addr_operating_mode cfg) (mode_extended_position cfg);
    EvWrite1 dxl_id (addr_torque_enable cfg) TORQUE_ENABLE ].

(** The axes [ensure_extended_mode] works on: [ids or self.cfg.ids]. *)
Definition axes_processed (ids_arg : option (list Z)) : list Z :=
  match ids_arg with
  | None | Some [] => ids cfg
  | Some l => l
  end.

(** A session: the public calls, one after the other, each leaving the
    object in the state the next one finds, whether it returned or raised. *)
Inductive Call :=
| CallEnsureExtendedMode (ids_arg : option (list Z))
| CallSoftReset (mode : ResetMode)
| CallSetTargetsAbsDeg (abs_deg_by_id : list (Z * Q))
| CallNudgeRelDeg (delta_deg_by_id : list (Z * Q))
| CallBulkRead (want_current : bool)
| CallSyncWriteGoalPositions (goal_ticks : gmap Z Z)
| CallExecuteTimeSynced (a : ExecArgs) (clk : list Q).

Definition after_call (c : Call) (s : AxisServo) : AxisServo :=
  match c with
  | CallEnsureExtendedMode ids_arg => (ensure_extended_mode cfg ids_arg s).2
  | CallSoftReset mode => (soft_reset cfg mode s).2
  | CallSetTargetsAbsDeg l => (set_targets_abs_deg cfg l s).2
  | CallNudgeRelDeg l => (nudge_rel_deg cfg l s).2
  | CallBulkRead want_current => (bulk_read cfg want_current s).2
  | CallSyncWriteGoalPositions g => (sync_write_goal_positions cfg g s).2
  | CallExecuteTimeSynced a clk => (execute_time_synced cfg a clk s).2
  end.

Definition after_calls (cs : list Call) (s : AxisServo) : AxisServo :=
  foldl (λ s c, after_call c s) s cs.

(** The parameters of a bulk read that asks for positions only. *)
Definition position_params : list (Z * Z * Z) :=
  map (λ i, (i, addr_present_position cfg, LEN_4)) (ids cfg).

(** A tick value the clamp [max(-2**31, min(2**31 - 1, t))] leaves alone. *)
Definition in_i32 (t : Z) : Prop := - 2 ^ 31 ≤ t ≤ 2 ^ 31 - 1.

(** The commands [nudge_rel_deg] stores, as a function of the commands it
    finds: the loop of the method with everything but [cmd_ticks] dropped.
    The first component tells whether the loop ran to its end. *)
Fixpoint nudge_cmds (deltas : list (Z * Q)) (c : gmap Z Z) : Res unit * gmap Z Z :=
  match deltas with
  | [] => (Ok tt, c)
  | (dxl_id, ddeg) :: rest =>
      match c !! dxl_id with
      | Some v => nudge_cmds rest (<[dxl_id := clamp_i32 (v + deg_to_ticks cfg ddeg)]> c)
      | None => (Raise (KeyError dxl_id), c)
      end
  end.

(** How many synchronised writes a trace holds: one per streamed step. *)
Definition is_sync_write (ev : Event) : bool :=
  match ev with EvSyncWrite _ _ _ => true | _ => false end.

Definition sync_writes (tr : list Event) : nat :=
  length (List.filter is_sync_write tr).

(** The reply the bus gives to the [n]-th bulk read made from state [s]. *)
Definition reply_after (s : AxisServo) (n : nat) : BulkReply :=
  bulk_rx (bus s) (n_bulk (bus s) + n).

(** The positions a bulk read decodes from a reply. *)
Definition positions_of (r : BulkReply) : Res (gmap Z Z) :=
  dict_from (read_position cfg r) (ids cfg) ∅.

(** The maximum error a settle poll computes from a reply. *)
Definition poll_error (goal : gmap Z Z) (r : BulkReply) : Res Z :=
  pos ← positions_of r; max_abs_error cfg goal pos.

(** How many settle polls the clock lets through: the readings before the
    deadline, up to the first that is not. *)
Fixpoint admitted (deadline : option Q) (clk : list Q) : nat :=
  match clk with
  | [] => 0
  | t :: clk' => if before (Some t) deadline then S (admitted deadline clk') else 0
  end.

(** The settle decision on the sequence of poll errors alone: the index of
    the poll at which the loop returns, if it does.  This is the loop of
    [execute_time_synced] with the bus and the clock dropped. *)
Fixpoint settle_scan (eps n ok_streak : Z) (errs : list Z) : option nat :=
  match errs with
  | [] => None
  | max_err :: errs' =>
      if max_err <=? eps then
        if ok_streak + 1 >=? n then Some 0%nat
        else S <$> settle_scan eps n (ok_streak + 1) errs'
      else S <$> settle_scan eps n 0 errs'
  end.

(** The streak counter after the polls of [errs], starting from [k]. *)
Fixpoint streak_after (eps : Z) (k : nat) (errs : list Z) : nat :=
  match errs with
  | [] => k
  | e :: errs' => streak_after eps (if e <=? eps then S k else 0%nat) errs'
  end.

(** Poll [j] completes a run of [w] consecutive polls within tolerance. *)
Definition streak_ends_at (eps : Z) (w : nat) (errs : list Z) (j : nat) : Prop :=
  (w ≤ S j)%nat ∧
  ∀ i, (S j - w ≤ i ≤ j)%nat → ∃ e, errs !! i = Some e ∧ e ≤ eps.

(** Poll [j] is the earliest that does. *)
Definition first_streak (eps : Z) (w : nat) (errs : list Z) (j : nat) : Prop :=
  streak_ends_at eps w errs j ∧
  ∀ j', (j' < j)%nat → ¬ streak_ends_at eps w errs j'.

(** What a result [r] of the settle loop, entered in state [s] with last
    error [lme] and left in state [s'], reports.  Its positions are those
    of the last bulk read made.  When settled, its error is the maximum
    error of these very positions, and within tolerance.  When not, its
    error is [lme] if the loop made no poll and only the final read
    happened, and otherwise the maximum error of the positions of the
    last-but-one bulk read, the last settle poll. *)
Definition settle_report (a : ExecArgs) (sp : gmap Z Z) (sc : gmap Z (option Z))
    (g : gmap Z Z) (lme : option Z) (s : AxisServo) (r : MotionResult)
    (s' : AxisServo) : Prop :=
  start_pos r = sp ∧ start_current r = sc ∧ goal r = g ∧
  bulk_rx (bus s') = bulk_rx (bus s) ∧
  (n_bulk (bus s) < n_bulk (bus s'))%nat ∧
  positions_of (bulk_rx (bus s) (n_bulk (bus s') - 1)) = Ok (final_pos r) ∧
  match max_err_ticks r with
  | Some e => ∃ d, ticks_to_deg cfg e = Ok d ∧ max_err_deg r = Some d
  | None => max_err_deg r = None
  end ∧
  (settled r = true →
     ∃ e, max_abs_error cfg g (final_pos r) = Ok e ∧ max_err_ticks r = Some e ∧
          e ≤ exec_eps_ticks cfg a) ∧
  (settled r = false →
     (max_err_ticks r = lme ∧ n_bulk (bus s') = S (n_bulk (bus s))) ∨
     ∃ pos_last e,
       (n_bulk (bus s) + 2 ≤ n_bulk (bus s'))%nat ∧
       positions_of (bulk_rx (bus s) (n_bulk (bus s') - 2)) = Ok pos_last ∧
       max_abs_error cfg g pos_last = Ok e ∧
       max_err_ticks r = Some e).

(** Whether the streaming loop of a call left through [break]: the entry
    of [execute_time_synced] and its streaming loop, nothing after. *)
Definition stream_outcome (a : ExecArgs) (clk : list Q) (s : AxisServo) : Res bool :=
  match bulk_read cfg true s with
  | (Raise e, _) => Raise e
  | (Ok (start_pos, _), s1) =>
    match dict_from (getitem (cmd_ticks s1)) (ids cfg) ∅ with
    | Raise e => Raise e
    | Ok goal =>
        (stream_loop cfg a start_pos goal (time_time clk).1
           (Py.range 1 (exec_steps a + 1)) (time_time clk).2 s1).1.1
    end
  end.

(** A bus that never fails: every bulk-read packet comes back with every
    position, and every synchronised write is accepted and sent. *)
Definition healthy (s : AxisServo) : Prop :=
  (∀ n, comm_ok (bulk_rx (bus s) n) = true ∧
        ∀ i, i ∈ ids cfg →
             is_available (bulk_rx (bus s) n) i (addr_present_position cfg) LEN_4 = true) ∧
  (∀ n, tx_ok (sync_tx (bus s) n) = true ∧
        ∀ i, add_param_ok (sync_tx (bus s) n) i = true).

(** The deadline the settle phase fixes from its first clock reading. *)
Definition deadline_of (a : ExecArgs) (clk : list Q) : option Q :=
  (λ now, now + Py.max (2 # 10) (duration_s a * timeout_factor a))%Q <$> (time_time clk).1.

End Vocabulary.

(** * Concrete sessions

    An XL330 pair on ids 1 and 2, and buses that answer from a script. *)

Module Demo.

Definition cfg : DxlConfig :=
  {| ids := [1; 2]; ticks_per_rev := 4096;
     addr_operating_mode := 11; addr_torque_enable := 64;
     addr_goal_position := 116; addr_present_position := 132;
     addr_present_current := 126; mode_extended_position := 4 |}.

(** A reply in which every axis reports position [pos] and, when [cur] is
    [Some c], current [c]; with [None] the current field is unavailable. *)
Definition reading (pos : Z) (cur : option Z) : BulkReply :=
  {| comm_ok := true;
     is_available := λ _ addr _, if addr =? 132 then true else bool_decide (is_Some cur);
     get_data := λ _ addr _, if addr =? 132 then pos else default 0 cur |}.

(** A bus that answers the bulk reads from [replies], then with [rest] for
    ever, and accepts every write. *)
Definition bus_of (replies : list BulkReply) (rest : BulkReply) : Bus :=
  {| bulk_rx := λ n, nth n replies rest; n_bulk := 0;
     sync_tx := λ _, {| add_param_ok := λ _, true; tx_ok := true |}; n_sync := 0;
     trace := [] |}.

(** A freshly constructed [AxisServo] on [b], both commands at [c]. *)
Definition servo (c : Z) (b : Bus) : AxisServo :=
  {| cmd_ticks := {[1 := c; 2 := c]};
     last_present_ticks := {[1 := None; 2 := None]};
     last_present_current := {[1 := None; 2 := None]};
     supports_current := None;
     bus := b |}.

(** One second at 10 Hz: ten streamed steps, the guard reading the currents
    on every step; tolerance 3/16 degree, which is 2 ticks; three polls in a
    row to settle. *)
Definition guarded : ExecArgs :=
  {| duration_s := 1; poll_hz := 10; eps_deg := 3 # 16; settle_n := 3;
     timeout_factor := 2; smoothstep := true;
     current_guard := Some (-300, 300); log := true |}.

(** A single streamed step, no guard. *)
Definition one_step : ExecArgs :=
  {| duration_s := 1 # 16; poll_hz := 10; eps_deg := 3 # 16; settle_n := 3;
     timeout_factor := 2; smoothstep := true;
     current_guard := None; log := true |}.

(** 7/8 second at 50 Hz: the product is 43.75. *)
Definition fractional : ExecArgs :=
  {| duration_s := 7 # 8; poll_hz := 50; eps_deg := 2; settle_n := 3;
     timeout_factor := 2; smoothstep := true;
     current_guard := None; log := true |}.

(** A clock that stands still at 0 for [n] readings. *)
Definition still (n : nat) : list Q := repeat 0%Q n.

(** A session whose bus answers the successive bulk reads with the
    positions [ps] and no current, then with position 1 for ever; both
    commands are 0, so the position read is the error. *)
Definition polled (ps : list Z) : AxisServo :=
  servo 0 (bus_of (map (λ p, reading p None) ps) (reading 1 None)).

(** A session in which the fourth bulk read, the guard's on step 3, shows
    a current of 500 on both axes; both axes sit within a tick of the goal. *)
Definition tripping : AxisServo :=
  servo 0 (bus_of [reading 1 (Some 1); reading 1 (Some 1); reading 1 (Some 1);
                   reading 1 (Some 500)] (reading 1 (Some 1))).

(** A session that reads position 10 at the start and in its only settle
    poll, and position 0 afterwards. *)
Definition late : AxisServo :=
  servo 0 (bus_of [reading 10 None; reading 10 None] (reading 0 None)).

(** A reply that never came: the packet failed. *)
Definition silent : BulkReply :=
  {| comm_ok := false; is_available := λ _ _ _, false; get_data := λ _ _ _, 0 |}.

(** 1.2 seconds at 50 Hz.  The duration is the binary64 number nearest to
    1.2, which is a little less than 1.2. *)
Definition nearly_sixty : ExecArgs :=
  {| duration_s := 5404319552844595 # 4503599627370496; poll_hz := 50;
     eps_deg := 2; settle_n := 3;
     timeout_factor := 2; smoothstep := true;
     current_guard := None; log := true |}.

(** 0.3 seconds at 10 Hz, the duration again the nearest binary64 number,
    a little less than 0.3. *)
Definition nearly_three : ExecArgs :=
  {| duration_s := 5404319552844595 # 18014398509481984; poll_hz := 10;
     eps_deg := 2; settle_n := 3;
     timeout_factor := 2; smoothstep := true;
     current_guard := None; log := true |}.

End Demo.

(** * The rest of the servo layer

    What [servo_controller.py] holds besides the operations above, and the
    notions its properties are stated with. *)

Section Rest.

Variable cfg : DxlConfig.

(** [AxisServo.__init__]: every configured axis commanded to 0, nothing read
    yet, the current channel undecided. *)
Definition new_servo (b : Bus) : AxisServo :=
  {| cmd_ticks := foldl (λ d i, <[i := 0]> d) ∅ (ids cfg);
     last_present_ticks := foldl (λ d i, <[i := None]> d) ∅ (ids cfg);
     last_present_current := foldl (λ d i, <[i := None]> d) ∅ (ids cfg);
     supports_current := None;
     bus := b |}.

(** The value of a little-endian byte string. *)
Definition le_value (bytes : list Z) : Z :=
  foldr (λ b acc, b + 256 * acc) 0 bytes.

(** A signed 16-bit value. *)
Definition in_i16 (c : Z) : Prop := - 2 ^ 15 ≤ c ≤ 2 ^ 15 - 1.

(** Every configured axis has a stored command. *)
Definition commanded (s : AxisServo) : Prop :=
  ∀ i, i ∈ ids cfg → is_Some (cmd_ticks s !! i).

(** Every stored command is a signed 32-bit value. *)
Definition cmd_in_range (s : AxisServo) : Prop :=
  ∀ i v, cmd_ticks s !! i = Some v → in_i32 v.

(** A number well within the finite binary64 floats: a factor of two is
    left for the rounding of an operand. *)
Definition in_float_range (q : Q) : Prop := (Qabs q <= inject_Z (2 ^ 1023))%Q.

(** [deg_to_ticks deg] stays within the floats: the resolution has a float
    and the product [deg * ticks_per_rev] does not overflow.  Past the
    range the product is infinite and [round] raises [OverflowError], an
    exception this development does not model; a statement that a
    conversion returns is made of angles that convert. *)
Definition converts (deg : Q) : Prop :=
  in_float_range (inject_Z (ticks_per_rev cfg)) ∧
  in_float_range (deg * inject_Z (ticks_per_rev cfg)).

(** The commands [set_targets_abs_deg] stores, as a function of the commands
    it finds: the loop of the method with everything but [cmd_ticks]
    dropped. *)
Definition target_cmds (targets : list (Z * Q)) (c : gmap Z Z) : gmap Z Z :=
  foldl (λ c '(dxl_id, deg), <[dxl_id := clamp_i32 (deg_to_ticks cfg deg)]> c) c targets.

(** An exception that reports a failure of the bus. *)
Definition bus_error (e : PyError) : Prop := ∃ why, e = RuntimeError why.

(** The exceptions the steps of [execute_time_synced] embedded here end
    with on an object that holds a command for every configured axis: a
    failure of the bus, [max()] of an empty sequence when no axis is
    configured, and the division by a zero resolution.  The
    [OverflowError] of a float that leaves the binary64 range is not among
    them: it is not modelled. *)
Definition exec_error (e : PyError) : Prop :=
  bus_error e ∨ (e = ValueError ∧ ids cfg = []) ∨
  (e = ZeroDivisionError ∧ ticks_per_rev cfg = 0).

(** What [execute_time_synced] may put on the bus while it moves the axes
    from the positions [sp] to the goals [g]: bulk reads, sleeps of a
    positive length, and synchronised writes to the goal-position register
    in which every axis gets the bytes of a goal between its start and its
    goal.  It writes no single register. *)
Definition event_ok (sp g : gmap Z Z) (ev : Event) : Prop :=
  match ev with
  | EvWrite1 _ _ _ => False
  | EvBulkRead _ => True
  | EvSleep q => (0 < q)%Q
  | EvSyncWrite addr len ps =>
      addr = addr_goal_position cfg ∧ len = LEN_4 ∧
      ∀ i bytes, (i, bytes) ∈ ps →
        ∃ p gi m, i ∈ ids cfg ∧ sp !! i = Some p ∧ g !! i = Some gi ∧
                  Z.min p gi ≤ m ≤ Z.max p gi ∧ bytes = goal_bytes m
  end.

(** The trace of [s] is the trace of [s0] followed by events that are all
    [event_ok]. *)
Definition extends_ok (sp g : gmap Z Z) (s0 s : AxisServo) : Prop :=
  ∃ new, trace (bus s) = trace (bus s0) ++ new ∧ Forall (event_ok sp g) new.

(** A call that can read the current channel: a bulk read that asks for it,
    and [execute_time_synced], whose bulk reads all do. *)
Definition reads_current (c : Call) : bool :=
  match c with
  | CallBulkRead true | CallExecuteTimeSynced _ _ => true
  | _ => false
  end.

(** [COMM_SUCCESS], imported from the external bus library
    [dynamixel_sdk]. *)
Definition COMM_SUCCESS : Z := 0.

(** [scan_ids]: one ping per id of [range(0, 253)], in order.  The answer
    of the bus to the ping of an id is [(comm, err)]; since every id is
    pinged exactly once, the answers are given as a function of the id.  The
    pings use the packet handler directly and touch nothing of the
    object. *)
Definition scan_ids (ping : Z → Z * Z) : list Z :=
  foldl (λ online dxl_id,
           let '(comm, err) := ping dxl_id in
           if (comm =? COMM_SUCCESS) && (err =? 0) then online ++ [dxl_id] else online)
        [] (Py.range 0 253).

End Rest.

(** * The callers of the servo layer

    [template_runner.py], as far as it drives an [AxisServo].  Reading the
    template file and the conversions of the JSON values of a step are
    outside the model: a step comes with its fields already converted. *)

Section Callers.

Variable cfg : DxlConfig.

(** ** Dicts that are iterated

    A Python dict whose [.items()] order matters is the list of its items in
    insertion order, keys distinct.  [d[k] = v] replaces the value of a key
    that is there, in place, and appends a key that is not. *)

Fixpoint dict_set (k : Z) (v : Q) (d : list (Z * Q)) : list (Z * Q) :=
  match d with
  | [] => [(k, v)]
  | (k', v') :: d' =>
      if decide (k = k') then (k, v) :: d' else (k', v') :: dict_set k v d'
  end.

Fixpoint dict_get (k : Z) (d : list (Z * Q)) : option Q :=
  match d with
  | [] => None
  | (k', v) :: d' => if decide (k = k') then Some v else dict_get k d'
  end.

(** ** Exceptions of the runner

    Besides the exceptions of the servo layer, [template_runner.py] can
    fail with [TypeError]: that of [float()] on a JSON value that is neither
    a number nor a string, and that of formatting [None] with [:.2f] in the
    [print] that follows [execute_time_synced]. *)

Inductive RunError :=
| Raised (e : PyError)
| TypeError.

Inductive RunRes (A : Type) :=
| Done (a : A)
| Failed (e : RunError).

#[global] Arguments Done {A} a.
#[global] Arguments Failed {A} e.

(** ** _parse_targets

    A value of the targets object, as [json.load] hands it over: [null], a
    boolean, a number, a string, or a list or an object, whose contents
    play no part here. *)
Inductive Json :=
| JNull
| JBool (b : bool)
| JNum (q : Q)
| JStr (s : string)
| JList
| JDict.

(** The two conversions from strings.  [int(k)] on a key is the parameter
    [py_int]: it returns the integer the string denotes or raises.
    [str_float s] is the number [float(s)] reads from a string, if it reads
    one. *)
Variable py_int : string → Res Z.
Variable str_float : string → option Q.

(** [float(v)]: a number is itself, [True] and [False] are 1 and 0, a
    string is parsed or raises [ValueError], anything else raises
    [TypeError]. *)
Definition py_float (v : Json) : RunRes Q :=
  match v with
  | JNum q => Done q
  | JBool b => Done (if b then 1 else 0)%Q
  | JStr s =>
      match str_float s with
      | Some q => Done q
      | None => Failed (Raised ValueError)
      end
  | JNull | JList | JDict => Failed TypeError
  end.

(** The JSON object of the targets is the list of its items, keys distinct.
    [obj["all"]], when ["all" in obj]. *)
Fixpoint json_get (k : string) (obj : list (string * Json)) : option Json :=
  match obj with
  | [] => None
  | (k', v) :: obj' => if String.eqb k' k then Some v else json_get k obj'
  end.

(** The second loop of [_parse_targets].  In [out[int(k)] = float(v)] the
    right-hand side is evaluated first. *)
Fixpoint parse_explicit (items : list (string * Json)) (out : list (Z * Q))
  : RunRes (list (Z * Q)) :=
  match items with
  | [] => Done out
  | (k, v) :: rest =>
      if String.eqb k "all" then parse_explicit rest out
      else
        match py_float v with
        | Failed e => Failed e
        | Done x =>
            match py_int k with
            | Raise e => Failed (Raised e)
            | Ok i => parse_explicit rest (dict_set i x out)
            end
        end
  end.

Definition _parse_targets (obj : list (string * Json)) (ids : list Z)
  : RunRes (list (Z * Q)) :=
  match json_get "all" obj with
  | Some v =>
      match py_float v with
      | Failed e => Failed e
      | Done x => parse_explicit obj (foldl (λ out i, dict_set i x out) [] ids)
      end
  | None => parse_explicit obj []
  end.


(** The value the explicit keys of [obj] give axis [i]: that of the last
    key other than ["all"] that denotes [i]. *)
Fixpoint explicit_value (obj : list (string * Json)) (i : Z) : option Q :=
  match obj with
  | [] => None
  | (k, v) :: rest =>
      match explicit_value rest i with
      | Some w => Some w
      | None =>
          if String.eqb k "all" then None
          else match py_int k, py_float v with
               | Ok j, Done x => if decide (j = i) then Some x else None
               | _, _ => None
               end
      end
  end.

(** An item other than ["all"] that the second loop gets past: its value
    and its key convert. *)
Definition item_ok (kv : string * Json) : Prop :=
  kv.1 ≠ "all"%string → (∃ x, py_float kv.2 = Done x) ∧ ∃ i, py_int kv.1 = Ok i.

(** The exception the second loop raises at an item: that of [float] on its
    value, and if there is none that of [int] on its key. *)
Definition item_fails (kv : string * Json) (e : RunError) : Prop :=
  kv.1 ≠ "all"%string ∧
  (py_float kv.2 = Failed e ∨
   (∃ x, py_float kv.2 = Done x) ∧ ∃ e', py_int kv.1 = Raise e' ∧ e = Raised e').

(** ** run_template *)

(** The fields of an [execute] step, converted and with their defaults
    filled in; [timeout_factor] and [smoothstep] keep the defaults of
    [execute_time_synced], and [log] is on. *)
Record ExecStep := {
  step_duration_s : Q;
  step_poll_hz : Z;
  step_eps_deg : Q;
  step_settle_n : Z;
  step_current_guard : option (Z * Z) }.

(** A step by its [op]; an [execute] step comes with the readings the wall
    clock will give during it. *)
Inductive Step :=
| OpSoftReset (mode : ResetMode)
| OpSetAbsDeg (targets : list (string * Json))
| OpNudgeRelDeg (targets : list (string * Json))
| OpExecute (e : ExecStep) (clk : list Q)
| OpWait (seconds : Q)
| OpUnknown.

Definition exec_args (override_duration : option Q) (e : ExecStep) : ExecArgs :=
  {| duration_s := default (step_duration_s e) override_duration;
     poll_hz := step_poll_hz e;
     eps_deg := step_eps_deg e;
     settle_n := step_settle_n e;
     timeout_factor := 2;
     smoothstep := true;
     current_guard := step_current_guard e;
     log := true |}.

(** A servo call as a step: its exception is the step's. *)
Definition servo_step {A} (last : option MotionResult) (run : Res A * AxisServo)
  : RunRes (option MotionResult) * AxisServo :=
  match run with
  | (Ok _, s') => (Done last, s')
  | (Raise e, s') => (Failed (Raised e), s')
  end.

(** One iteration of the loop over the steps; [last] is [last_result]. *)
Definition run_step (override_duration : option Q) (last : option MotionResult)
    (st : Step) (s : AxisServo) : RunRes (option MotionResult) * AxisServo :=
  match st with
  | OpSoftReset mode => servo_step last (soft_reset cfg mode s)
  | OpSetAbsDeg obj =>
      match _parse_targets obj (ids cfg) with
      | Failed e => (Failed e, s)
      | Done targets => servo_step last (set_targets_abs_deg cfg targets s)
      end
  | OpNudgeRelDeg obj =>
      match _parse_targets obj (ids cfg) with
      | Failed e => (Failed e, s)
      | Done targets => servo_step last (nudge_rel_deg cfg targets s)
      end
  | OpExecute e clk =>
      match execute_time_synced cfg (exec_args override_duration e) clk s with
      | (Raise e, s') => (Failed (Raised e), s')
      | (Ok r, s') =>
          match max_err_deg r with
          | Some _ => (Done (Some r), s')
          | None => (Failed TypeError, s')
          end
      end
  | OpWait sec =>
      if Py.ltb sec 0 then (Failed (Raised ValueError), s)
      else (Done last, with_bus (emit (EvSleep sec) (bus s)) s)
  | OpUnknown => (Failed (Raised ValueError), s)
  end.

Fixpoint run_steps (override_duration : option Q) (last : option MotionResult)
    (steps : list Step) (s : AxisServo) : RunRes (option MotionResult) * AxisServo :=
  match steps with
  | [] => (Done last, s)
  | st :: rest =>
      match run_step override_duration last st s with
      | (Done last', s') => run_steps override_duration last' rest s'
      | (Failed e, s') => (Failed e, s')
      end
  end.

Definition run_template (override_duration : option Q) (steps : list Step) (s : AxisServo)
  : RunRes (option MotionResult) * AxisServo :=
  run_steps override_duration None steps s.

End Callers.

(** * Properties *)

Section Facts.

Variable cfg : DxlConfig.

(** ** Dict comprehensions *)

Lemma dict_from_lookup {V} (f : Z → Res V) l acc m i :
  dict_from f l acc = Ok m →
  m !! i = if decide (i ∈ l)
           then match f i with Ok v => Some v | Raise _ => None end
           else acc !! i.
Proof.
  revert acc. induction l as [|j l IH]; intros acc; cbn [dict_from].
  - intros [= ->]. case_decide; [set_solver|done].
  - destruct (f j) as [v|e] eqn:Hj; simpl; [|done].
    intros H. rewrite (IH _ H).
    destruct (decide (i ∈ l)) as [Hin|Hni].
    + destruct (decide (i ∈ j :: l)) as [|Hn]; [done|]. set_solver.
    + destruct (decide (i ∈ j :: l)) as [Hin'|Hn].
      * apply elem_of_cons in Hin' as [->|?]; [|done].
        by rewrite Hj, lookup_insert_eq.
      * rewrite lookup_insert_ne; [done|]. intros ->. apply Hn. left.
Qed.

Lemma dict_from_ok {V} (f : Z → Res V) l acc :
  (∀ i, i ∈ l → ∃ v, f i = Ok v) → ∃ m, dict_from f l acc = Ok m.
Proof.
  revert acc. induction l as [|j l IH]; intros acc Hf; simpl; [by eexists|].
  destruct (Hf j) as [v ->]; [set_solver|]. simpl. apply IH. set_solver.
Qed.

Lemma dict_from_defined {V} (f : Z → Res V) l acc m i :
  dict_from f l acc = Ok m → i ∈ l → ∃ v, f i = Ok v ∧ m !! i = Some v.
Proof.
  revert acc. induction l as [|j l IH]; intros acc; simpl; [set_solver|].
  destruct (f j) as [v|e] eqn:Hj; simpl; [|done].
  intros H Hin. destruct (decide (i ∈ l)) as [Hl|Hl]; [by eapply IH|].
  apply elem_of_cons in Hin as [->|?]; [|done]. exists v. split; [done|].
  rewrite (dict_from_lookup _ _ _ _ j H). case_decide; [done|]. apply lookup_insert_eq.
Qed.

(** ** Invariants of the controller state *)

Lemma preserves_ret {A} I (a : A) : preserves I (mret a).
Proof. by intros s. Qed.

Lemma preserves_raise {A} I e : preserves I (raise (A:=A) e).
Proof. by intros s. Qed.

Lemma preserves_lift {A} I (r : Res A) : preserves I (lift r).
Proof. by intros s. Qed.

Lemma preserves_get_state I : preserves I get_state.
Proof. by intros s. Qed.

Lemma preserves_bind {A B} I (m : M A) (f : A → M B) :
  preserves I m → (∀ a, preserves I (f a)) → preserves I (m ≫= f).
Proof.
  intros Hm Hf s Hs. unfold mbind, M_bind.
  specialize (Hm s Hs). destruct (m s) as [[a|e] s']; simpl in *; [|done].
  by apply Hf.
Qed.

Lemma preserves_for_each {A} I (body : A → M unit) l :
  (∀ x, preserves I (body x)) → preserves I (for_each body l).
Proof.
  intros Hb. induction l as [|x l IH]; simpl; [apply preserves_ret|].
  apply preserves_bind; [apply Hb|]. intros _. apply IH.
Qed.

Section Invariant.

Variable I : AxisServo → Prop.

(** [I] survives a bulk-read packet, the bookkeeping at the end of a bulk
    read, a sleep, and a synchronised write. *)
Hypothesis I_bulk_packet : ∀ params, preserves I (txRxPacket params).
Hypothesis I_store_reading :
  ∀ r want pos s, I s → I (store_reading cfg r want pos s).2.
Hypothesis I_sleep : ∀ q s, I s → I (with_bus (emit (EvSleep q) (bus s)) s).
Hypothesis I_sync_write : ∀ g, preserves I (sync_write_goal_positions cfg g).

Lemma preserves_bulk_read want_current : preserves I (bulk_read cfg want_current).
Proof.
  unfold bulk_read. apply preserves_bind; [apply preserves_get_state|]. intros s0.
  apply preserves_bind; [apply I_bulk_packet|]. intros r.
  destruct (negb (comm_ok r)); [apply preserves_raise|].
  apply preserves_bind; [apply preserves_lift|]. intros pos s Hs.
  by apply I_store_reading.
Qed.

Lemma pace_inv a t0 k clk s : I s → I (pace a t0 k clk s).2.
Proof.
  intros Hs. unfold pace. destruct clk as [|t clk]; simpl; [done|].
  destruct t0; [|done]. destruct (Py.ltb _ _); [by apply I_sleep|done].
Qed.

Lemma stream_step_inv a sp g t0 k clk s :
  I s → I (stream_step cfg a sp g t0 k clk s).2.
Proof.
  intros Hs. unfold stream_step.
  destruct (mid_ticks _ _ _ _ _ _) as [mid|e]; [|done].
  pose proof (I_sync_write mid s Hs) as Hw.
  destruct (sync_write_goal_positions _ _ _) as [[[]|e] s1]; simpl in *; [|done].
  destruct (current_guard a) as [[mn mx]|]; [|by apply pace_inv].
  destruct (guard_step a k); [|by apply pace_inv].
  pose proof (preserves_bulk_read true s1 Hw) as Hr.
  destruct (bulk_read _ _ _) as [[[pos cur]|e] s2]; simpl in *; [|done].
  destruct (bad_axes _ _ _ _) as [[|b bad]|e]; simpl; [|done..].
  by apply pace_inv.
Qed.

Lemma stream_loop_inv a sp g t0 ks clk s :
  I s → I (stream_loop cfg a sp g t0 ks clk s).2.
Proof.
  revert clk s. induction ks as [|k ks IH]; intros clk s Hs; simpl; [done|].
  pose proof (stream_step_inv a sp g t0 k clk s Hs) as Hstep.
  destruct (stream_step _ _ _ _ _ _ _ _) as [[[[]|e] clk'] s']; simpl in *; [done| |done].
  by apply IH.
Qed.

Lemma preserves_timed_out a sp sc g lme : preserves I (timed_out cfg a sp sc g lme).
Proof.
  unfold timed_out. apply preserves_bind.
  { destruct (log a); [|apply preserves_ret].
    apply preserves_bind; [apply preserves_lift|]. intros _. apply preserves_ret. }
  intros _. apply preserves_bind; [apply preserves_bulk_read|]. intros [pos cur].
  apply preserves_bind; [apply preserves_lift|]. intros deg. apply preserves_ret.
Qed.

Lemma settle_loop_inv a sp sc g deadline clk streak lme s :
  I s → I (settle_loop cfg a sp sc g deadline clk streak lme s).2.
Proof.
  revert streak lme s.
  induction clk as [|t clk IH]; intros streak lme s Hs; cbn [settle_loop].
  { by apply preserves_timed_out. }
  destruct (negb (before (Some t) deadline)); [by apply preserves_timed_out|].
  pose proof (preserves_bulk_read true s Hs) as Hr.
  destruct (bulk_read _ _ _) as [[[pos cur]|e] s1]; simpl in *; [|done].
  destruct (max_abs_error _ _ _) as [max_err|e]; [|done].
  destruct (max_err <=? _).
  - destruct (_ >=? _).
    + by destruct (ticks_to_deg _ _).
    + apply IH. by apply I_sleep.
  - apply IH. by apply I_sleep.
Qed.

Lemma settle_phase_inv a sp sc g clk s :
  I s → I (settle_phase cfg a sp sc g clk s).2.
Proof.
  intros Hs. unfold settle_phase. destruct (time_time clk) as [now clk'].
  by apply settle_loop_inv.
Qed.

Lemma execute_time_synced_inv a clk s :
  I s → I (execute_time_synced cfg a clk s).2.
Proof.
  intros Hs. unfold execute_time_synced.
  pose proof (preserves_bulk_read true s Hs) as Hr.
  destruct (bulk_read _ _ _) as [[[sp sc]|e] s1]; simpl in *; [|done].
  destruct (dict_from _ _ _) as [g|e]; [|done].
  destruct (time_time clk) as [t0 clk1].
  pose proof (stream_loop_inv a sp g t0 (Py.range 1 (exec_steps a + 1)) clk1 s1 Hr) as Hl.
  destruct (stream_loop _ _ _ _ _ _ _ _) as [[[b|e] clk2] s2]; simpl in *; [|done].
  by apply settle_phase_inv.
Qed.

End Invariant.

(** Invariants that do not look at the bus. *)

Section BusBlind.

Variable I : AxisServo → Prop.

Hypothesis I_with_bus : ∀ b s, I s → I (with_bus b s).
Hypothesis I_store_reading :
  ∀ r want pos s, I s → I (store_reading cfg r want pos s).2.

Lemma blind_send ev : preserves I (send ev).
Proof. intros s Hs. by apply I_with_bus. Qed.

Lemma blind_bulk_packet params : preserves I (txRxPacket params).
Proof. intros s Hs. by apply I_with_bus. Qed.

Lemma blind_sync_write goal_ticks :
  preserves I (sync_write_goal_positions cfg goal_ticks).
Proof.
  intros s Hs. unfold sync_write_goal_positions.
  destruct (add_params _ _); simpl; [|by apply I_with_bus].
  destruct (tx_ok _); by apply I_with_bus.
Qed.

Lemma blind_bulk_read want_current : preserves I (bulk_read cfg want_current).
Proof. apply preserves_bulk_read; [apply blind_bulk_packet|done]. Qed.

Lemma blind_ensure_extended_mode ids_arg :
  preserves I (ensure_extended_mode cfg ids_arg).
Proof.
  apply preserves_for_each. intros i.
  repeat (apply preserves_bind; [apply blind_send|]; intros _).
  apply blind_send.
Qed.

Lemma blind_execute_time_synced a clk s :
  I s → I (execute_time_synced cfg a clk s).2.
Proof.
  apply execute_time_synced_inv;
    [apply blind_bulk_packet|done| |apply blind_sync_write].
  intros q s' Hs'. by apply I_with_bus.
Qed.

End BusBlind.

(** ** Mode switch *)

Lemma mode_switch_run l s :
  ensure_extended_mode cfg (Some l) s =
  (Ok tt, if decide (l = [])
          then (ensure_extended_mode cfg None s).2
          else with_bus {| bulk_rx := bulk_rx (bus s); n_bulk := n_bulk (bus s);
                           sync_tx := sync_tx (bus s); n_sync := n_sync (bus s);
                           trace := trace (bus s) ++ flat_map (mode_switch cfg) l |} s)
  ∧ ensure_extended_mode cfg None s =
    (Ok tt, with_bus {| bulk_rx := bulk_rx (bus s); n_bulk := n_bulk (bus s);
                        sync_tx := sync_tx (bus s); n_sync := n_sync (bus s);
                        trace := trace (bus s) ++ flat_map (mode_switch cfg) (ids cfg) |} s).
Proof.
  assert (∀ l s, for_each (λ dxl_id,
      write1ByteTxRx dxl_id (addr_torque_enable cfg) TORQUE_DISABLE;;
      write1ByteTxRx dxl_id (addr_operating_mode cfg) (mode_extended_position cfg);;
      write1ByteTxRx dxl_id (addr_torque_enable cfg) TORQUE_ENABLE) l s =
    (Ok tt, with_bus {| bulk_rx := bulk_rx (bus s); n_bulk := n_bulk (bus s);
                        sync_tx := sync_tx (bus s); n_sync := n_sync (bus s);
                        trace := trace (bus s) ++ flat_map (mode_switch cfg) l |} s)) as Hrun.
  { clear. induction l as [|i l IH]; intros s.
    - simpl. rewrite app_nil_r. destruct s as [? ? ? ? []]. reflexivity.
    - cbn [for_each]. unfold mbind at 1, M_bind at 1.
      unfold mbind, M_bind, write1ByteTxRx, send. rewrite IH. simpl.
      by rewrite <- !app_assoc. }
  split.
  - destruct l as [|i l].
    + rewrite decide_True by done. unfold ensure_extended_mode. by rewrite Hrun.
    + rewrite decide_False by done. apply Hrun.
  - apply Hrun.
Qed.

Lemma mode_switch_lookup l j i :
  l !! j = Some i →
  flat_map (mode_switch cfg) l !! (3 * j)%nat =
    Some (EvWrite1 i (addr_torque_enable cfg) TORQUE_DISABLE) ∧
  flat_map (mode_switch cfg) l !! (3 * j + 1)%nat =
    Some (EvWrite1 i (addr_operating_mode cfg) (mode_extended_position cfg)) ∧
  flat_map (mode_switch cfg) l !! (3 * j + 2)%nat =
    Some (EvWrite1 i (addr_torque_enable cfg) TORQUE_ENABLE).
Proof.
  revert j. induction l as [|x l IH]; intros j Hj; [done|].
  destruct j as [|j]; simpl in Hj.
  - by injection Hj as ->.
  - replace (3 * S j)%nat with (S (S (S (3 * j)))) by lia.
    replace (S (S (S (3 * j))) + 1)%nat with (S (S (S (3 * j + 1)))) by lia.
    replace (S (S (S (3 * j))) + 2)%nat with (S (S (S (3 * j + 2)))) by lia.
    simpl. by apply IH.
Qed.

(** C9. [ensure_extended_mode] never raises, changes nothing but the trace,
    and puts on the bus, for the axes it processes in their order, the
    triples torque-off, set-mode, torque-on one after the other: the [j]-th
    axis owns the writes at positions [3j], [3j+1] and [3j+2]. *)
Theorem ensure_extended_mode_triples ids_arg s :
  ∃ s',
    ensure_extended_mode cfg ids_arg s = (Ok tt, s') ∧
    trace (bus s') =
      trace (bus s) ++ flat_map (mode_switch cfg) (axes_processed cfg ids_arg) ∧
    length (flat_map (mode_switch cfg) (axes_processed cfg ids_arg)) =
      (3 * length (axes_processed cfg ids_arg))%nat ∧
    (∀ j i, axes_processed cfg ids_arg !! j = Some i →
       trace (bus s') !! (length (trace (bus s)) + 3 * j)%nat =
         Some (EvWrite1 i (addr_torque_enable cfg) TORQUE_DISABLE) ∧
       trace (bus s') !! (length (trace (bus s)) + 3 * j + 1)%nat =
         Some (EvWrite1 i (addr_operating_mode cfg) (mode_extended_position cfg)) ∧
       trace (bus s') !! (length (trace (bus s)) + 3 * j + 2)%nat =
         Some (EvWrite1 i (addr_torque_enable cfg) TORQUE_ENABLE)) ∧
    cmd_ticks s' = cmd_ticks s ∧
    supports_current s' = supports_current s.
Proof.
  set (axes := axes_processed cfg ids_arg).
  assert (ensure_extended_mode cfg ids_arg s =
    (Ok tt, with_bus {| bulk_rx := bulk_rx (bus s); n_bulk := n_bulk (bus s);
                        sync_tx := sync_tx (bus s); n_sync := n_sync (bus s);
                        trace := trace (bus s) ++ flat_map (mode_switch cfg) axes |} s)) as ->.
  { destruct ids_arg as [l|]; [|apply (mode_switch_run [] s)].
    destruct (mode_switch_run l s) as [-> Hnone]. f_equal.
    destruct l as [|i l]; [|done].
    rewrite decide_True by done. by rewrite Hnone. }
  eexists. split; [done|]. cbn [bus with_bus trace cmd_ticks supports_current].
  split; [done|]. split.
  { clear. induction axes as [|i l IH]; simpl; lia. }
  split; [|done].
  intros j i Hj. destruct (mode_switch_lookup axes j i Hj) as (H0 & H1 & H2).
  rewrite !lookup_app_r by lia.
  replace (length (trace (bus s)) + 3 * j - length (trace (bus s)))%nat
    with (3 * j)%nat by lia.
  replace (length (trace (bus s)) + 3 * j + 1 - length (trace (bus s)))%nat
    with (3 * j + 1)%nat by lia.
  replace (length (trace (bus s)) + 3 * j + 2 - length (trace (bus s)))%nat
    with (3 * j + 2)%nat by lia.
  done.
Qed.

(** ** The command state is only read *)

(** C8. Whatever the outcome of [execute_time_synced] (a result, settled or
    not, after a guard trip or not, or an exception), the stored command
    mapping is afterwards what it was before the call. *)
Theorem execute_time_synced_keeps_cmd_ticks a clk s :
  cmd_ticks (execute_time_synced cfg a clk s).2 = cmd_ticks s.
Proof.
  apply (blind_execute_time_synced (λ s', cmd_ticks s' = cmd_ticks s)); [done| |done].
  intros r want pos s1 Hs1. unfold store_reading. by simpl.
Qed.

(** ** Bulk read, step by step *)

Lemma bulk_read_unfold want_current s :
  let ask := asks_current want_current s in
  let r := bulk_rx (bus s) (n_bulk (bus s)) in
  let s1 := with_bus {| bulk_rx := bulk_rx (bus s); n_bulk := S (n_bulk (bus s));
                        sync_tx := sync_tx (bus s); n_sync := n_sync (bus s);
                        trace := trace (bus s) ++ [EvBulkRead (bulk_params cfg ask)] |} s in
  bulk_read cfg want_current s =
  if negb (comm_ok r) then (Raise (RuntimeError BulkReadFailed), s1)
  else match dict_from (read_position cfg r) (ids cfg) ∅ with
       | Raise e => (Raise e, s1)
       | Ok pos => store_reading cfg r ask pos s1
       end.
Proof.
  intros ask r s1. unfold bulk_read, mbind, M_bind, get_state, txRxPacket.
  fold ask. fold r. fold s1.
  destruct (comm_ok r); simpl; [|done].
  unfold lift. by destruct (dict_from _ _ _).
Qed.

(** ** The current channel *)

Lemma current_off_with_bus b s : current_off s → current_off (with_bus b s).
Proof. done. Qed.

Lemma current_off_store_reading r want pos s :
  current_off s → current_off (store_reading cfg r want pos s).2.
Proof.
  unfold current_off, store_reading. simpl. intros ->. by destruct want.
Qed.

Lemma current_off_set_cmd i t : preserves current_off (set_cmd i t).
Proof. by intros s. Qed.

Lemma current_off_after_call c s :
  current_off s → current_off (after_call cfg c s).
Proof.
  pose proof current_off_with_bus as Hb.
  pose proof current_off_store_reading as Hs.
  destruct c as [ids_arg|mode|l|l|want|g|a clk]; cbn [after_call].
  - by apply blind_ensure_extended_mode.
  - apply preserves_bind; [by apply blind_bulk_read|]. intros [pos _].
    destruct mode; [| |apply preserves_raise].
    + apply preserves_for_each. intros i.
      apply preserves_bind; [apply preserves_lift|]. intros p. apply current_off_set_cmd.
    + apply preserves_for_each. intros i.
      apply preserves_bind; [apply preserves_lift|]. intros p.
      destruct (_ =? _); [apply preserves_raise|apply current_off_set_cmd].
  - apply preserves_for_each. intros [i deg]. apply current_off_set_cmd.
  - apply preserves_for_each. intros [i deg].
    apply preserves_bind; [apply preserves_get_state|]. intros s0.
    apply preserves_bind; [apply preserves_lift|]. intros c. apply current_off_set_cmd.
  - by apply blind_bulk_read.
  - by apply blind_sync_write.
  - by apply blind_execute_time_synced.
Qed.

Lemma current_off_after_calls cs s :
  current_off s → current_off (after_calls cfg cs s).
Proof.
  revert s. induction cs as [|c cs IH]; intros s Hs; [done|].
  apply IH. by apply current_off_after_call.
Qed.

Lemma no_current_lookup i : i ∈ ids cfg → no_current cfg !! i = Some None.
Proof.
  unfold no_current. generalize (∅ : gmap Z (option Z)).
  induction (ids cfg) as [|j l IH]; intros acc Hi; [by apply elem_of_nil in Hi|].
  simpl. destruct (decide (i ∈ l)) as [Hl|Hl]; [by apply IH|].
  apply elem_of_cons in Hi as [->|?]; [|done].
  clear IH. revert acc. induction l as [|k l IH]; intros acc; simpl.
  - apply lookup_insert_eq.
  - apply not_elem_of_cons in Hl as [Hne Hl].
    rewrite insert_insert_ne by done. by apply IH.
Qed.

Lemma bulk_params_off : bulk_params cfg false = position_params cfg.
Proof. unfold bulk_params, position_params. apply app_nil_r. Qed.

Lemma asks_current_off want s : current_off s → asks_current want s = false.
Proof.
  unfold current_off, asks_current. intros ->.
  rewrite bool_decide_eq_true_2 by done. by destruct want.
Qed.

(** A bulk read succeeds as soon as the packet comes back and every
    position is available; the current field plays no part. *)
Lemma bulk_read_succeeds want s :
  let r := bulk_rx (bus s) (n_bulk (bus s)) in
  comm_ok r = true →
  (∀ i, i ∈ ids cfg → is_available r i (addr_present_position cfg) LEN_4 = true) →
  ∃ pos cur s', bulk_read cfg want s = (Ok (pos, cur), s').
Proof.
  intros r Hcomm Hpos. rewrite bulk_read_unfold. fold r. rewrite Hcomm. simpl.
  destruct (dict_from_ok (read_position cfg r) (ids cfg) ∅) as [pos ->].
  { intros i Hi. unfold read_position. rewrite (Hpos i Hi). by eexists. }
  unfold store_reading. by do 3 eexists.
Qed.

(** The first bulk read that asks for the current decides the flag. *)
Lemma bulk_read_first_attempt s pos cur s' :
  supports_current s = None →
  bulk_read cfg true s = (Ok (pos, cur), s') →
  supports_current s' =
    Some (forallb (current_available cfg (bulk_rx (bus s) (n_bulk (bus s)))) (ids cfg)).
Proof.
  intros Hnone. rewrite bulk_read_unfold.
  assert (asks_current true s = true) as ->.
  { unfold asks_current. by rewrite Hnone. }
  destruct (negb (comm_ok _)); [done|].
  destruct (dict_from _ _ _) as [pos'|e]; [|done].
  unfold store_reading. simpl. rewrite Hnone. by intros [= _ _ <-].
Qed.

(** C5 (as the code has it). When the first bulk read that asks for the
    current (the flag still undecided) finds the field unavailable for some
    axis, the flag becomes [Some false] and stays so through every later
    call of the session; from then on a bulk read, whatever [want_current],
    registers the positions only, behaves exactly like
    [bulk_read(want_current=False)], succeeds whenever the packet comes back
    with all positions, and returns an absent current for every axis. *)
Theorem current_channel_degrades_once s pos cur s1 i cs want_current :
  supports_current s = None →
  bulk_read cfg true s = (Ok (pos, cur), s1) →
  i ∈ ids cfg →
  current_available cfg (bulk_rx (bus s) (n_bulk (bus s))) i = false →
  let s2 := after_calls cfg cs s1 in
  let r := bulk_rx (bus s2) (n_bulk (bus s2)) in
  supports_current s1 = Some false ∧
  supports_current s2 = Some false ∧
  bulk_read cfg want_current s2 = bulk_read cfg false s2 ∧
  trace (bus (bulk_read cfg want_current s2).2) =
    trace (bus s2) ++ [EvBulkRead (position_params cfg)] ∧
  supports_current (bulk_read cfg want_current s2).2 = Some false ∧
  (comm_ok r = true →
   (∀ j, j ∈ ids cfg → is_available r j (addr_present_position cfg) LEN_4 = true) →
   ∃ pos' cur' s3, bulk_read cfg want_current s2 = (Ok (pos', cur'), s3)) ∧
  (∀ pos' cur' s3,
     bulk_read cfg want_current s2 = (Ok (pos', cur'), s3) →
     ∀ j, j ∈ ids cfg → cur' !! j = Some None).
Proof.
  intros Hnone Hread Hi Hunavail s2 r.
  assert (current_off s1) as Hoff1.
  { unfold current_off. rewrite (bulk_read_first_attempt _ _ _ _ Hnone Hread).
    f_equal. apply not_true_is_false. rewrite forallb_forall.
    intros Hall. specialize (Hall i). rewrite Hunavail in Hall.
    apply list_elem_of_In in Hi. by specialize (Hall Hi). }
  assert (current_off s2) as Hoff2 by by apply current_off_after_calls.
  pose proof (asks_current_off want_current s2 Hoff2) as Hask.
  pose proof (asks_current_off false s2 Hoff2) as Hask'.
  split; [done|]. split; [done|].
  split. { rewrite !bulk_read_unfold. by rewrite Hask, Hask'. }
  split.
  { rewrite bulk_read_unfold, Hask, bulk_params_off.
    destruct (negb (comm_ok _)); [done|].
    by destruct (dict_from _ _ _). }
  split.
  { apply (blind_bulk_read current_off);
      auto using current_off_with_bus, current_off_store_reading. }
  split. { apply bulk_read_succeeds. }
  intros pos' cur' s3. rewrite bulk_read_unfold, Hask.
  destruct (negb (comm_ok _)); [done|].
  destruct (dict_from _ _ _); [|done].
  unfold store_reading. intros [= _ <- _] j Hj. by apply no_current_lookup.
Qed.

(** ** Relative nudges *)

Lemma for_each_cons {A} (body : A → M unit) x l s :
  for_each body (x :: l) s =
  match body x s with
  | (Ok _, s') => for_each body l s'
  | (Raise e, s') => (Raise e, s')
  end.
Proof. reflexivity. Qed.

Lemma clamp_i32_id t : in_i32 t → clamp_i32 t = t.
Proof. unfold in_i32, clamp_i32. lia. Qed.

(** [nudge_rel_deg] computes the new commands from the stored commands and
    the deltas alone, and writes nothing else. *)
Lemma nudge_rel_deg_pure (deltas : list (Z * Q)) s :
  nudge_rel_deg cfg deltas s =
  ((nudge_cmds cfg deltas (cmd_ticks s)).1,
   with_cmd_ticks (nudge_cmds cfg deltas (cmd_ticks s)).2 s).
Proof.
  revert s. induction deltas as [|[k d] rest IH]; intros s.
  - by destruct s.
  - unfold nudge_rel_deg in *. rewrite for_each_cons. cbn [nudge_cmds].
    unfold mbind at 1 2, M_bind at 1 2, get_state, lift, getitem, set_cmd.
    destruct (cmd_ticks s !! k) as [v|]; [|by destruct s].
    by rewrite IH.
Qed.

Lemma nudge_cmds_lookup (deltas : list (Z * Q)) c :
  NoDup deltas.*1 →
  (∀ k, k ∈ deltas.*1 → is_Some (c !! k)) →
  (nudge_cmds cfg deltas c).1 = Ok tt ∧
  (∀ i d v, (i, d) ∈ deltas → c !! i = Some v →
     (nudge_cmds cfg deltas c).2 !! i = Some (clamp_i32 (v + deg_to_ticks cfg d))) ∧
  (∀ i, i ∉ deltas.*1 → (nudge_cmds cfg deltas c).2 !! i = c !! i).
Proof.
  revert c. induction deltas as [|[k d] rest IH]; intros c Hnd Hkeys.
  - split; [done|]. split; [|done]. intros i d v Hin. by apply elem_of_nil in Hin.
  - apply NoDup_cons in Hnd as [Hk Hnd]. simpl in Hk.
    destruct (Hkeys k) as [v Hv]; [left|].
    cbn [nudge_cmds]. rewrite Hv.
    set (c1 := <[k := clamp_i32 (v + deg_to_ticks cfg d)]> c).
    destruct (IH c1 Hnd) as (Hok & Hin & Hout).
    { intros j Hj. subst c1. destruct (decide (j = k)) as [->|Hne].
      - rewrite lookup_insert_eq. by eexists.
      - rewrite lookup_insert_ne by done. apply Hkeys. by right. }
    split; [done|]. split.
    + intros i d' v' Hi Hv'. apply elem_of_cons in Hi as [[= -> ->]|Hi].
      * rewrite (Hout k Hk). subst c1. rewrite lookup_insert_eq. congruence.
      * assert (i ≠ k) as Hne.
        { intros ->. apply Hk. apply list_elem_of_fmap. by exists (k, d'). }
        apply (Hin i d' v' Hi). subst c1. by rewrite lookup_insert_ne.
    + intros i Hi. apply not_elem_of_cons in Hi as [Hne Hi].
      rewrite (Hout i Hi). subst c1. by rewrite lookup_insert_ne.
Qed.

(** C6. Two nudges in a row: each adds its converted delta to the stored
    command, so where the clamp does not bite the axis ends at the original
    command plus [deg_to_ticks d1 + deg_to_ticks d2].  Nothing measured
    enters: the calls leave the bus and the last-known readings untouched,
    and the commands they store are the same from any state that holds the
    same commands. *)
Theorem nudge_rel_deg_adds_to_command (deltas1 deltas2 : list (Z * Q)) s i d1 d2 v :
  NoDup deltas1.*1 → NoDup deltas2.*1 →
  (∀ k, k ∈ deltas1.*1 ++ deltas2.*1 → is_Some (cmd_ticks s !! k)) →
  (i, d1) ∈ deltas1 → (i, d2) ∈ deltas2 →
  cmd_ticks s !! i = Some v →
  in_i32 (v + deg_to_ticks cfg d1) →
  in_i32 (v + deg_to_ticks cfg d1 + deg_to_ticks cfg d2) →
  ∃ s1 s2,
    nudge_rel_deg cfg deltas1 s = (Ok tt, s1) ∧
    nudge_rel_deg cfg deltas2 s1 = (Ok tt, s2) ∧
    cmd_ticks s1 !! i = Some (v + deg_to_ticks cfg d1) ∧
    cmd_ticks s2 !! i = Some (v + (deg_to_ticks cfg d1 + deg_to_ticks cfg d2)) ∧
    bus s2 = bus s ∧
    last_present_ticks s2 = last_present_ticks s ∧
    last_present_current s2 = last_present_current s ∧
    (∀ s', cmd_ticks s' = cmd_ticks s →
       cmd_ticks (nudge_rel_deg cfg deltas2 (nudge_rel_deg cfg deltas1 s').2).2 =
       cmd_ticks s2).
Proof.
  intros Hnd1 Hnd2 Hkeys Hi1 Hi2 Hv Hr1 Hr2.
  destruct (nudge_cmds_lookup deltas1 (cmd_ticks s) Hnd1) as (Hok1 & Hin1 & Hout1).
  { intros k Hk. apply Hkeys. apply elem_of_app. by left. }
  set (c1 := (nudge_cmds cfg deltas1 (cmd_ticks s)).2) in *.
  destruct (nudge_cmds_lookup deltas2 c1 Hnd2) as (Hok2 & Hin2 & Hout2).
  { intros k Hk. destruct (decide (k ∈ deltas1.*1)) as [Hk1|Hk1].
    - apply list_elem_of_fmap in Hk1 as ([k' d] & -> & Hkd). simpl.
      destruct (Hkeys k') as [w Hw].
      { apply elem_of_app. left. apply list_elem_of_fmap. by exists (k', d). }
      rewrite (Hin1 k' d w Hkd Hw). by eexists.
    - rewrite (Hout1 k Hk1). apply Hkeys. apply elem_of_app. by right. }
  set (c2 := (nudge_cmds cfg deltas2 c1).2) in *.
  pose proof (Hin1 i d1 v Hi1 Hv) as E1. rewrite clamp_i32_id in E1 by done.
  pose proof (Hin2 i d2 _ Hi2 E1) as E2. rewrite clamp_i32_id in E2 by done.
  exists (with_cmd_ticks c1 s), (with_cmd_ticks c2 s).
  split. { rewrite nudge_rel_deg_pure. fold c1. by rewrite Hok1. }
  split. { rewrite nudge_rel_deg_pure. cbn [cmd_ticks with_cmd_ticks]. fold c2. by rewrite Hok2. }
  split; [done|]. split. { simpl. by rewrite E2, Z.add_assoc. }
  do 3 (split; [done|]).
  intros s' Hc. rewrite !nudge_rel_deg_pure. simpl. by rewrite Hc.
Qed.

(** ** Rounding and the trajectory shaper *)

Lemma Py_round_comp x y : (x == y)%Q → Py.round x = Py.round y.
Proof.
  intros E. unfold Py.round. rewrite (Qfloor_comp _ _ E).
  assert (x - inject_Z (Qfloor y) == y - inject_Z (Qfloor y))%Q as E' by by rewrite E.
  by rewrite (Qcompare_comp _ _ E' (1 # 2) (1 # 2) (Qeq_refl _)).
Qed.

Lemma Py_round_Z z : Py.round (inject_Z z) = z.
Proof.
  unfold Py.round. rewrite Qfloor_Z.
  assert (inject_Z z - inject_Z z == 0)%Q as E by ring.
  by rewrite (Qcompare_comp _ _ E (1 # 2) (1 # 2) (Qeq_refl _)).
Qed.

Lemma shape_comp smooth a b : (a == b)%Q → (shape smooth a == shape smooth b)%Q.
Proof. intros E. unfold shape. destruct smooth; simpl; by rewrite E. Qed.

Lemma shape_smoothstep a : (shape true a == 3 * a ^ 2 - 2 * a ^ 3)%Q.
Proof. unfold shape. simpl. ring. Qed.

Lemma waypoint_comp start goal a b :
  (a == b)%Q → waypoint start goal a = waypoint start goal b.
Proof. intros E. unfold waypoint. apply Py_round_comp. by rewrite E. Qed.

Lemma waypoint_one start goal : waypoint start goal 1 = goal.
Proof.
  unfold waypoint. rewrite <- (Py_round_Z goal) at 2. apply Py_round_comp.
  unfold Z.sub. rewrite inject_Z_plus, inject_Z_opp. ring.
Qed.

Lemma alpha_last steps : 1 ≤ steps → (inject_Z steps / inject_Z steps == 1)%Q.
Proof.
  intros H. apply Qmult_inv_r. intros E.
  apply (inject_Z_injective steps 0) in E. lia.
Qed.

Lemma exec_steps_pos a : 1 ≤ exec_steps a.
Proof. unfold exec_steps. lia. Qed.

Lemma range_last steps :
  1 ≤ steps → last (Py.range 1 (steps + 1)) = Some steps.
Proof.
  intros H. unfold Py.range.
  replace (Z.to_nat (steps + 1 - 1)) with (S (Z.to_nat (steps - 1))) by lia.
  rewrite seq_S, map_app. cbn [map]. rewrite last_snoc. f_equal. lia.
Qed.

(** C7. The shaper is exact at both ends in both modes, smooth mode is the
    curve [3a² − 2a³], and at the last step [k = steps] the waypoint of every
    axis is its goal: the dict written by the last streaming step is the
    goal dict itself. *)
Theorem shape_boundary_and_last_waypoint :
  (∀ smooth, shape smooth 0 = 0%Q ∧ shape smooth 1 = 1%Q) ∧
  (∀ a, shape false a = a ∧ (shape true a == 3 * a ^ 2 - 2 * a ^ 3)%Q) ∧
  (∀ smooth steps start goal, 1 ≤ steps →
     waypoint start goal (shape smooth (inject_Z steps / inject_Z steps)) = goal) ∧
  (∀ a start_pos cmd goal steps, 1 ≤ steps →
     (∀ i, i ∈ ids cfg → is_Some (start_pos !! i)) →
     dict_from (getitem cmd) (ids cfg) ∅ = Ok goal →
     mid_ticks cfg a start_pos goal steps steps = Ok goal) ∧
  (∀ a, last (Py.range 1 (exec_steps a + 1)) = Some (exec_steps a)).
Proof.
  assert (∀ smooth steps start goal, 1 ≤ steps →
     waypoint start goal (shape smooth (inject_Z steps / inject_Z steps)) = goal) as Hway.
  { intros smooth steps start goal Hsteps.
    rewrite <- (waypoint_one start goal) at 2. apply waypoint_comp.
    rewrite (shape_comp smooth _ 1 (alpha_last steps Hsteps)).
    by destruct smooth. }
  split. { by intros []. }
  split. { intros a. split; [done|apply shape_smoothstep]. }
  split; [exact Hway|].
  split; [|intros a; apply range_last, exec_steps_pos].
  intros a sp cmd goal steps Hsteps Hcov Hgoal. unfold mid_ticks.
  set (f := λ i : Z, _).
  assert (∀ i, i ∈ ids cfg → ∃ g, goal !! i = Some g ∧ f i = Ok g) as Hf.
  { intros i Hi. destruct (dict_from_defined _ _ _ _ i Hgoal Hi) as (g & _ & Hg).
    destruct (Hcov i Hi) as [p Hp]. exists g. split; [done|].
    subst f. simpl. unfold getitem. rewrite Hp, Hg. simpl. f_equal. by apply Hway. }
  destruct (dict_from_ok f (ids cfg) ∅) as [mid Hmid].
  { intros i Hi. destruct (Hf i Hi) as (g & _ & ->). by eexists. }
  rewrite Hmid. f_equal. apply map_eq. intros i.
  rewrite (dict_from_lookup _ _ _ _ i Hmid), (dict_from_lookup _ _ _ _ i Hgoal).
  destruct (decide (i ∈ ids cfg)) as [Hi|Hi]; [|done].
  destruct (Hf i Hi) as (g & Hg & ->).
  rewrite (dict_from_lookup _ _ _ _ i Hgoal), decide_True in Hg by done.
  by rewrite Hg.
Qed.

(** ** Counting the streamed steps *)

Lemma sync_writes_snoc tr ev :
  sync_writes (tr ++ [ev]) =
  (sync_writes tr + if is_sync_write ev then 1 else 0)%nat.
Proof.
  unfold sync_writes. rewrite List.filter_app, length_app. simpl.
  by destruct (is_sync_write ev).
Qed.

Lemma sync_write_count goal_ticks s s' :
  sync_write_goal_positions cfg goal_ticks s = (Ok tt, s') →
  sync_writes (trace (bus s')) = S (sync_writes (trace (bus s))).
Proof.
  unfold sync_write_goal_positions.
  destruct (add_params _ _) as [ps|e]; [|done].
  destruct (tx_ok _); [|done]. intros [= <-]. simpl.
  rewrite sync_writes_snoc. simpl. lia.
Qed.

Lemma bulk_read_count want s n :
  sync_writes (trace (bus s)) = n →
  sync_writes (trace (bus (bulk_read cfg want s).2)) = n.
Proof.
  apply (preserves_bulk_read (λ s, sync_writes (trace (bus s)) = n)).
  - intros params s0 <-. simpl. rewrite sync_writes_snoc. simpl. lia.
  - by intros r w pos s0 <-.
Qed.

Lemma pace_count a t0 k clk s :
  sync_writes (trace (bus (pace a t0 k clk s).2)) = sync_writes (trace (bus s)).
Proof.
  unfold pace. destruct clk as [|t clk]; simpl; [done|].
  destruct t0; [|done]. destruct (Py.ltb _ _); [|done].
  simpl. rewrite sync_writes_snoc. simpl. lia.
Qed.

Lemma pace_never_breaks a t0 k clk s : (pace a t0 k clk s).1.1 = Ok false.
Proof.
  unfold pace. destruct clk as [|t clk]; simpl; [done|].
  destruct t0; [|done]. by destruct (Py.ltb _ _).
Qed.

(** ** The current guard *)

Lemma bad_axes_spec cur mn mx l bad :
  bad_axes cur mn mx l = Ok bad →
  ∀ i, i ∈ bad ↔ i ∈ l ∧ ∃ c, cur !! i = Some (Some c) ∧ (c < mn ∨ mx < c).
Proof.
  revert bad. induction l as [|j l IH]; intros bad; simpl.
  - intros [= <-] i. split; [by intros ?%elem_of_nil|]. by intros [?%elem_of_nil _].
  - unfold getitem. destruct (cur !! j) as [oc|] eqn:Hj; simpl; [|done].
    destruct (bad_axes cur mn mx l) as [rest|e]; simpl; [|done].
    specialize (IH rest eq_refl). intros [= <-] i.
    assert (i ∈ j :: rest ↔ i = j ∨ i ∈ rest) as Hcons by apply elem_of_cons.
    assert (i ∈ j :: l ↔ i = j ∨ i ∈ l) as Hcons' by apply elem_of_cons.
    destruct oc as [c|].
    + destruct ((c <? mn) || (c >? mx)) eqn:Hout.
      * rewrite Hcons, Hcons', IH. split.
        -- intros [->|[Hi Hc]]; [|by split; [right|]].
           split; [by left|]. exists c. split; [done|].
           apply orb_true_iff in Hout. lia.
        -- intros [[->|Hi] Hc]; [by left|by right].
      * rewrite Hcons', IH. split; [by intros [Hi Hc]; split; [right|]|].
        intros [[->|Hi] Hc]; [|done].
        destruct Hc as (c' & Hc' & Hrange). rewrite Hj in Hc'.
        injection Hc' as <-. apply orb_false_iff in Hout. lia.
    + rewrite Hcons', IH. split; [by intros [Hi Hc]; split; [right|]|].
      intros [[->|Hi] Hc]; [|done].
      destruct Hc as (c' & Hc' & _). by rewrite Hj in Hc'.
Qed.

(** A step leaves the loop through [break] only on a guard step of a
    configured guard, after a bulk read in which some axis reports a current
    strictly outside the band. *)
Lemma stream_step_break a sp g t0 k clk s clk' s' :
  stream_step cfg a sp g t0 k clk s = (Ok true, clk', s') →
  ∃ mid s1 mn mx pos cur i c,
    mid_ticks cfg a sp g (exec_steps a) k = Ok mid ∧
    sync_write_goal_positions cfg mid s = (Ok tt, s1) ∧
    current_guard a = Some (mn, mx) ∧
    guard_step a k = true ∧
    bulk_read cfg true s1 = (Ok (pos, cur), s') ∧
    clk' = clk ∧
    i ∈ ids cfg ∧ cur !! i = Some (Some c) ∧ (c < mn ∨ mx < c).
Proof.
  unfold stream_step.
  destruct (mid_ticks _ _ _ _ _ _) as [mid|e]; [|done].
  destruct (sync_write_goal_positions _ _ _) as [[[]|e] s1] eqn:Hw; [|done].
  assert (∀ s2, pace a t0 k clk s2 = (Ok true, clk', s') → False) as Hpace.
  { intros s2 Hp. pose proof (pace_never_breaks a t0 k clk s2) as Hn.
    by rewrite Hp in Hn. }
  destruct (current_guard a) as [[mn mx]|]; [|by intros ?%Hpace].
  destruct (guard_step a k); [|by intros ?%Hpace].
  destruct (bulk_read _ _ _) as [[[pos cur]|e] s2] eqn:Hr; [|done].
  destruct (bad_axes _ _ _ _) as [[|b bad]|e] eqn:Hbad; [by intros ?%Hpace| |done].
  intros [= <- <-].
  destruct (proj1 (bad_axes_spec _ _ _ _ _ Hbad b)) as (Hb & c & Hc & Hrange); [left|].
  by exists mid, s1, mn, mx, pos, cur, b, c.
Qed.

Lemma stream_step_count a sp g t0 k clk s b clk' s' :
  stream_step cfg a sp g t0 k clk s = (Ok b, clk', s') →
  sync_writes (trace (bus s')) = S (sync_writes (trace (bus s))).
Proof.
  unfold stream_step.
  destruct (mid_ticks _ _ _ _ _ _) as [mid|e]; [|done].
  destruct (sync_write_goal_positions _ _ _) as [[[]|e] s1] eqn:Hw; [|done].
  apply sync_write_count in Hw. rewrite <- Hw.
  assert (∀ s2, sync_writes (trace (bus s2)) = sync_writes (trace (bus s1)) →
    pace a t0 k clk s2 = (Ok b, clk', s') →
    sync_writes (trace (bus s')) = sync_writes (trace (bus s1))) as Hpace.
  { intros s2 <- Hp. pose proof (pace_count a t0 k clk s2) as Hc. by rewrite Hp in Hc. }
  destruct (current_guard a) as [[mn mx]|]; [|by apply Hpace].
  destruct (guard_step a k); [|by apply Hpace].
  pose proof (bulk_read_count true s1 _ eq_refl) as Hr.
  destruct (bulk_read _ _ _) as [[[pos cur]|e] s2]; [|done]. simpl in Hr.
  destruct (bad_axes _ _ _ _) as [[|x bad]|e]; [by apply Hpace| |done].
  by intros [= _ _ <-].
Qed.

Lemma stream_loop_app a sp g t0 pre rest clk s :
  stream_loop cfg a sp g t0 (pre ++ rest) clk s =
  match stream_loop cfg a sp g t0 pre clk s with
  | (Ok false, clk1, s1) => stream_loop cfg a sp g t0 rest clk1 s1
  | stopped => stopped
  end.
Proof.
  revert clk s. induction pre as [|k pre IH]; intros clk s; simpl; [done|].
  destruct (stream_step _ _ _ _ _ _ _ _) as [[[[]|e] clk1] s1]; [done| |done].
  apply IH.
Qed.

Lemma stream_loop_count a sp g t0 ks clk s clk' s' :
  stream_loop cfg a sp g t0 ks clk s = (Ok false, clk', s') →
  sync_writes (trace (bus s')) = (sync_writes (trace (bus s)) + length ks)%nat.
Proof.
  revert clk s. induction ks as [|k ks IH]; intros clk s; simpl.
  - intros [= _ <-]. lia.
  - destruct (stream_step _ _ _ _ _ _ _ _) as [[[[]|e] clk1] s1] eqn:Hstep; [done| |done].
    intros Hl. rewrite (IH _ _ Hl), (stream_step_count _ _ _ _ _ _ _ _ _ _ Hstep). lia.
Qed.

(** Where the loop breaks: after a prefix of steps that all ran to their
    end, in the step that follows. *)
Lemma stream_loop_break a sp g t0 ks clk s clk' s' :
  stream_loop cfg a sp g t0 ks clk s = (Ok true, clk', s') →
  ∃ pre k rest clk1 s1,
    ks = pre ++ k :: rest ∧
    stream_loop cfg a sp g t0 pre clk s = (Ok false, clk1, s1) ∧
    stream_step cfg a sp g t0 k clk1 s1 = (Ok true, clk', s').
Proof.
  revert clk s. induction ks as [|k ks IH]; intros clk s; simpl; [done|].
  destruct (stream_step _ _ _ _ _ _ _ _) as [[[[]|e] clk1] s1] eqn:Hstep; [| |done].
  - intros [= <- <-]. by exists [], k, ks, clk, s.
  - intros Hl. destruct (IH _ _ Hl) as (pre & k' & rest & clk2 & s2 & -> & Hpre & Hk).
    exists (k :: pre), k', rest, clk2, s2. split; [done|]. split; [|done].
    simpl. by rewrite Hstep.
Qed.

(** ** The executor, phase by phase *)

Lemma execute_time_synced_unfold a clk s sp sc s1 g :
  bulk_read cfg true s = (Ok (sp, sc), s1) →
  dict_from (getitem (cmd_ticks s1)) (ids cfg) ∅ = Ok g →
  execute_time_synced cfg a clk s =
  match stream_loop cfg a sp g (time_time clk).1
          (Py.range 1 (exec_steps a + 1)) (time_time clk).2 s1 with
  | (Raise e, _, s2) => (Raise e, s2)
  | (Ok _, clk2, s2) => settle_phase cfg a sp sc g clk2 s2
  end.
Proof.
  intros Hr Hg. unfold execute_time_synced. rewrite Hr, Hg.
  by destruct (time_time clk).
Qed.

Lemma execute_time_synced_returns a clk s r s' :
  execute_time_synced cfg a clk s = (Ok r, s') →
  ∃ sp sc s1 g b clk2 s2,
    bulk_read cfg true s = (Ok (sp, sc), s1) ∧
    dict_from (getitem (cmd_ticks s1)) (ids cfg) ∅ = Ok g ∧
    stream_loop cfg a sp g (time_time clk).1
      (Py.range 1 (exec_steps a + 1)) (time_time clk).2 s1 = (Ok b, clk2, s2) ∧
    settle_phase cfg a sp sc g clk2 s2 = (Ok r, s').
Proof.
  intros H.
  destruct (bulk_read cfg true s) as [[[sp sc]|e] s1] eqn:Hr;
    [|by unfold execute_time_synced in H; rewrite Hr in H].
  destruct (dict_from (getitem (cmd_ticks s1)) (ids cfg) ∅) as [g|e] eqn:Hg;
    [|by unfold execute_time_synced in H; rewrite Hr, Hg in H].
  rewrite (execute_time_synced_unfold a clk s sp sc s1 g Hr Hg) in H.
  destruct (stream_loop _ _ _ _ _ _ _ _) as [[[b|e] clk2] s2] eqn:Hl; [|done].
  by exists sp, sc, s1, g, b, clk2, s2.
Qed.

Lemma settle_phase_count a sp sc g clk s :
  sync_writes (trace (bus (settle_phase cfg a sp sc g clk s).2)) =
  sync_writes (trace (bus s)).
Proof.
  unfold settle_phase. destruct (time_time clk) as [now clk'].
  apply (settle_loop_inv (λ s', sync_writes (trace (bus s')) = sync_writes (trace (bus s))));
    [| | |done].
  - intros params s0 <-. simpl. rewrite sync_writes_snoc. simpl. lia.
  - by intros r w pos s0 <-.
  - intros q s0 <-. simpl. rewrite sync_writes_snoc. simpl. lia.
Qed.

Lemma range_length lo hi : length (Py.range lo hi) = Z.to_nat (hi - lo).
Proof. unfold Py.range. by rewrite length_map, length_seq. Qed.

Lemma bulk_read_current_off want s pos cur s' :
  current_off s →
  bulk_read cfg want s = (Ok (pos, cur), s') →
  cur = no_current cfg.
Proof.
  intros Hoff. rewrite bulk_read_unfold, (asks_current_off _ _ Hoff).
  destruct (negb (comm_ok _)); [done|].
  destruct (dict_from _ _ _); [|done].
  unfold store_reading. by intros [= _ <- _].
Qed.

(** With the current channel marked unsupported no streaming step breaks. *)
Lemma stream_loop_current_off a sp g t0 ks clk s b clk' s' :
  current_off s →
  stream_loop cfg a sp g t0 ks clk s = (Ok b, clk', s') →
  b = false.
Proof.
  intros Hoff Hl. destruct b; [|done]. exfalso.
  destruct (stream_loop_break _ _ _ _ _ _ _ _ _ Hl)
    as (pre & k & rest & clk1 & s1 & _ & Hpre & Hk).
  assert (current_off s1) as Hoff1.
  { pose proof (stream_loop_inv current_off) as Hinv.
    specialize (Hinv (blind_bulk_packet _ current_off_with_bus)
                     current_off_store_reading
                     (λ q s0 H, current_off_with_bus _ s0 H)
                     (blind_sync_write _ current_off_with_bus)
                     a sp g t0 pre clk s Hoff).
    by rewrite Hpre in Hinv. }
  destruct (stream_step_break _ _ _ _ _ _ _ _ _ Hk)
    as (mid & s2 & mn & mx & pos & cur & i & c & _ & Hw & _ & _ & Hr & _ & Hi & Hc & _).
  assert (current_off s2) as Hoff2.
  { pose proof (blind_sync_write _ current_off_with_bus mid s1 Hoff1) as H.
    by rewrite Hw in H. }
  rewrite (bulk_read_current_off _ _ _ _ _ Hoff2 Hr), (no_current_lookup i Hi) in Hc.
  done.
Qed.

(** ** What a bulk read returns *)

Lemma read_currents_some r acc i :
  is_Some (acc !! i) → is_Some (read_currents cfg r acc !! i).
Proof.
  unfold read_currents. revert acc.
  induction (ids cfg) as [|j l IH]; intros acc Hacc; simpl; [done|].
  apply IH. destruct (current_available cfg r j); [|done].
  destruct (decide (i = j)) as [->|Hne].
  - rewrite lookup_insert_eq. by eexists.
  - by rewrite lookup_insert_ne.
Qed.

(** Both dicts of a bulk read have an entry for every configured axis. *)
Lemma bulk_read_covers want s pos cur s' i :
  bulk_read cfg want s = (Ok (pos, cur), s') →
  i ∈ ids cfg →
  is_Some (pos !! i) ∧ is_Some (cur !! i).
Proof.
  rewrite bulk_read_unfold.
  destruct (negb (comm_ok _)); [done|].
  destruct (dict_from _ _ _) as [pos'|e] eqn:Hpos; [|done].
  unfold store_reading. intros [= <- <- _] Hi. split.
  - destruct (dict_from_defined _ _ _ _ i Hpos Hi) as (v & _ & ->). by eexists.
  - assert (is_Some (no_current cfg !! i)) as Hn.
    { rewrite (no_current_lookup i Hi). by eexists. }
    destruct (asks_current want s); [by apply read_currents_some|done].
Qed.

Lemma bad_axes_total cur mn mx l :
  (∀ i, i ∈ l → is_Some (cur !! i)) → ∃ bad, bad_axes cur mn mx l = Ok bad.
Proof.
  induction l as [|j l IH]; intros Hcov; simpl; [by eexists|].
  destruct (Hcov j) as [c Hc]; [left|]. unfold getitem. rewrite Hc. simpl.
  destruct IH as [rest ->]; [intros i Hi; apply Hcov; by right|].
  simpl. by eexists.
Qed.

Lemma range_lookup lo hi n x : Py.range lo hi !! n = Some x → x = lo + Z.of_nat n.
Proof.
  unfold Py.range. rewrite list_lookup_fmap.
  destruct (seq 0 (Z.to_nat (hi - lo)) !! n) as [m|] eqn:Hm; [|done].
  apply lookup_seq in Hm as [-> _]. simpl. by intros [= <-].
Qed.

(** ** A guard trip *)

(** The step in which the guard finds a current outside the band breaks. *)
Lemma stream_step_trips a sp g t0 k clk s mid s1 mn mx pos cur s2 i c :
  mid_ticks cfg a sp g (exec_steps a) k = Ok mid →
  sync_write_goal_positions cfg mid s = (Ok tt, s1) →
  current_guard a = Some (mn, mx) →
  guard_step a k = true →
  bulk_read cfg true s1 = (Ok (pos, cur), s2) →
  i ∈ ids cfg → cur !! i = Some (Some c) → (c < mn ∨ mx < c) →
  stream_step cfg a sp g t0 k clk s = (Ok true, clk, s2).
Proof.
  intros Hmid Hw Hg Hgs Hr Hi Hc Hout. unfold stream_step.
  rewrite Hmid, Hw, Hg, Hgs, Hr.
  destruct (bad_axes_total cur mn mx (ids cfg)) as [bad Hbad].
  { intros j Hj. by apply (bulk_read_covers _ _ _ _ _ j Hr). }
  rewrite Hbad. destruct bad as [|b bad]; [|done].
  assert (i ∈ []) as Hnil; [|by apply elem_of_nil in Hnil].
  apply (bad_axes_spec _ _ _ _ _ Hbad i). split; [done|]. by exists c.
Qed.

(** C1 (as the code has it). When, on a guard step [k] of a configured
    guard, the guard's bulk read shows a current outside the band, the
    streaming loop stops there: [k] waypoints have been written and none
    follows, whatever steps remained.  The call then goes on to the settle
    phase exactly as after a complete stream, and its outcome, the settled
    flag included, is whatever the settle phase makes of it. *)
Theorem guard_trip_halts_streaming
    a clk s sp sc s1 g pre k rest clk1 s2 mid s3 mn mx pos cur s4 i c :
  bulk_read cfg true s = (Ok (sp, sc), s1) →
  dict_from (getitem (cmd_ticks s1)) (ids cfg) ∅ = Ok g →
  Py.range 1 (exec_steps a + 1) = pre ++ k :: rest →
  stream_loop cfg a sp g (time_time clk).1 pre (time_time clk).2 s1 = (Ok false, clk1, s2) →
  mid_ticks cfg a sp g (exec_steps a) k = Ok mid →
  sync_write_goal_positions cfg mid s2 = (Ok tt, s3) →
  current_guard a = Some (mn, mx) →
  guard_step a k = true →
  bulk_read cfg true s3 = (Ok (pos, cur), s4) →
  i ∈ ids cfg → cur !! i = Some (Some c) → (c < mn ∨ mx < c) →
  k = Z.of_nat (length pre) + 1 ∧
  stream_loop cfg a sp g (time_time clk).1 (pre ++ k :: rest) (time_time clk).2 s1 =
    (Ok true, clk1, s4) ∧
  sync_writes (trace (bus s4)) = (sync_writes (trace (bus s1)) + length pre + 1)%nat ∧
  execute_time_synced cfg a clk s = settle_phase cfg a sp sc g clk1 s4 ∧
  sync_writes (trace (bus (execute_time_synced cfg a clk s).2)) =
    (sync_writes (trace (bus s)) + length pre + 1)%nat.
Proof.
  intros Hr Hg Hrange Hpre Hmid Hw Hguard Hgs Hread Hi Hc Hout.
  pose proof (stream_step_trips a sp g (time_time clk).1 k clk1 s2
                mid s3 mn mx pos cur s4 i c Hmid Hw Hguard Hgs Hread Hi Hc Hout) as Hstep.
  assert (stream_loop cfg a sp g (time_time clk).1 (pre ++ k :: rest) (time_time clk).2 s1 =
          (Ok true, clk1, s4)) as Hloop.
  { rewrite stream_loop_app, Hpre. simpl. by rewrite Hstep. }
  assert (sync_writes (trace (bus s4)) =
          (sync_writes (trace (bus s1)) + length pre + 1)%nat) as Hcount.
  { rewrite (stream_step_count _ _ _ _ _ _ _ _ _ _ Hstep),
            (stream_loop_count _ _ _ _ _ _ _ _ _ Hpre). lia. }
  assert (execute_time_synced cfg a clk s = settle_phase cfg a sp sc g clk1 s4) as Hexec.
  { rewrite (execute_time_synced_unfold a clk s sp sc s1 g Hr Hg), Hrange. by rewrite Hloop. }
  split.
  { rewrite Z.add_comm.
    apply (range_lookup 1 (exec_steps a + 1) (length pre)). rewrite Hrange.
    by rewrite lookup_app_r, Nat.sub_diag by lia. }
  do 3 (split; [done|]).
  rewrite Hexec, settle_phase_count, Hcount.
  pose proof (bulk_read_count true s _ eq_refl) as Hc0. rewrite Hr in Hc0.
  simpl in Hc0. by rewrite Hc0.
Qed.

(** ** The settle decision on a sequence of errors *)

Lemma streak_after_snoc eps k l e :
  streak_after eps k (l ++ [e]) =
  if e <=? eps then S (streak_after eps k l) else 0%nat.
Proof. revert k. induction l as [|x l IH]; intros k; simpl; [done|apply IH]. Qed.

(** The counter reaches [w] exactly when the last [w] polls were all within
    tolerance. *)
Lemma streak_after_window eps l w :
  (w ≤ streak_after eps 0 l)%nat ↔
  (w ≤ length l)%nat ∧
  ∀ i, (length l - w ≤ i < length l)%nat → ∃ e, l !! i = Some e ∧ e ≤ eps.
Proof.
  revert w. induction l as [|e l IH] using rev_ind; intros w.
  - simpl. split; [|lia]. intros H. split; [done|]. intros i Hi. lia.
  - rewrite streak_after_snoc, length_app. simpl.
    destruct (Z.leb_spec e eps) as [He|He].
    + destruct w as [|w]; [split; [|lia]; intros _; split; [lia|]; intros i Hi; lia|].
      rewrite <- Nat.succ_le_mono, IH. split.
      * intros [Hw Hwin]. split; [lia|]. intros i Hi.
        destruct (decide (i = length l)) as [->|Hne].
        -- exists e. split; [|done]. by rewrite lookup_app_r, Nat.sub_diag by lia.
        -- rewrite lookup_app_l by lia. apply Hwin. lia.
      * intros [Hw Hwin]. split; [lia|]. intros i Hi.
        destruct (Hwin i) as (x & Hx & Hle); [lia|].
        rewrite lookup_app_l in Hx by lia. by exists x.
    + split; [intros Hw; assert (w = 0%nat) as -> by lia; split; [lia|]; intros i Hi; lia|].
      intros [Hw Hwin]. destruct w as [|w]; [done|].
      destruct (Hwin (length l)) as (x & Hx & Hle); [lia|].
      rewrite lookup_app_r, Nat.sub_diag in Hx by lia. simpl in Hx. injection Hx as <-. lia.
Qed.

Lemma streak_ends_at_counter eps w errs j :
  (1 ≤ w)%nat →
  streak_ends_at eps w errs j ↔
  (j < length errs)%nat ∧ (w ≤ streak_after eps 0 (take (S j) errs))%nat.
Proof.
  intros Hw. unfold streak_ends_at. rewrite streak_after_window. split.
  - intros [Hwj Hwin].
    assert (j < length errs)%nat as Hj.
    { destruct (Hwin j) as (e & He & _); [lia|]. by apply lookup_lt_Some in He. }
    split; [done|]. rewrite length_take_le by lia. split; [done|].
    intros i Hi. rewrite lookup_take_lt by lia. apply Hwin. lia.
  - intros [Hj [Hwj Hwin]]. rewrite length_take_le in Hwj, Hwin by lia.
    split; [done|]. intros i Hi. rewrite <- (lookup_take_lt errs (S j) i) by lia.
    apply Hwin. lia.
Qed.

(** The scan, started with the counter the polls of [pre] have left. *)
Lemma settle_scan_counter eps n errs pre j :
  1 ≤ n →
  (streak_after eps 0 pre < Z.to_nat n)%nat →
  settle_scan eps n (Z.of_nat (streak_after eps 0 pre)) errs = Some j ↔
  (j < length errs)%nat ∧
  (Z.to_nat n ≤ streak_after eps 0 (pre ++ take (S j) errs))%nat ∧
  ∀ j', (j' < j)%nat →
        (streak_after eps 0 (pre ++ take (S j') errs) < Z.to_nat n)%nat.
Proof.
  intros Hn. revert pre j. induction errs as [|e errs IH]; intros pre j Hk.
  { simpl. split; [done|]. intros [Hj _]. simpl in Hj. lia. }
  pose proof (streak_after_snoc eps 0 pre e) as Hsnoc.
  assert (∀ m, pre ++ take (S (S m)) (e :: errs) = (pre ++ [e]) ++ take (S m) errs) as Htake.
  { intros m. by rewrite <- app_assoc. }
  assert (pre ++ take 1 (e :: errs) = pre ++ [e]) as Htake0.
  { simpl. by rewrite take_0. }
  cbn [settle_scan]. destruct (Z.leb_spec e eps) as [He|He].
  - destruct (Z.geb_spec (Z.of_nat (streak_after eps 0 pre) + 1) n) as [Hge|Hlt].
    + split.
      * intros [= <-]. rewrite Htake0, Hsnoc. simpl. split; [lia|]. split; [lia|]. lia.
      * intros (Hj & Hw & Hfirst). destruct j as [|j]; [done|].
        specialize (Hfirst 0%nat ltac:(lia)). rewrite Htake0, Hsnoc in Hfirst. lia.
    + assert (Z.of_nat (streak_after eps 0 pre) + 1 =
              Z.of_nat (streak_after eps 0 (pre ++ [e]))) as -> by (rewrite Hsnoc; lia).
      destruct j as [|j].
      * split; [by destruct (settle_scan _ _ _ _)|].
        intros (_ & Hw & _). rewrite Htake0, Hsnoc in Hw. lia.
      * assert (∀ o : option nat, S <$> o = Some (S j) ↔ o = Some j) as Hfmap.
        { intros [m|]; simpl; [|done]. split; congruence. }
        rewrite Hfmap, IH by (rewrite Hsnoc; lia). rewrite Htake. cbn [length].
        split.
        -- intros (Hj & Hw & Hfirst). split; [lia|]. split; [done|].
           intros [|j'] Hj'; [rewrite Htake0, Hsnoc; lia|].
           rewrite Htake. apply Hfirst. lia.
        -- intros (Hj & Hw & Hfirst). split; [lia|]. split; [done|].
           intros j' Hj'. rewrite <- Htake. apply Hfirst. lia.
  - assert (streak_after eps 0 (pre ++ [e]) = 0%nat) as Hzero by (rewrite Hsnoc; lia).
    assert (0 = Z.of_nat (streak_after eps 0 (pre ++ [e]))) as -> by lia.
    destruct j as [|j].
    + split; [by destruct (settle_scan _ _ _ _)|].
      intros (_ & Hw & _). rewrite Htake0, Hzero in Hw. lia.
    + assert (∀ o : option nat, S <$> o = Some (S j) ↔ o = Some j) as Hfmap.
      { intros [m|]; simpl; [|done]. split; congruence. }
      rewrite Hfmap, IH by lia. rewrite Htake. cbn [length].
      split.
      * intros (Hj & Hw & Hfirst). split; [lia|]. split; [done|].
        intros [|j'] Hj'; [rewrite Htake0, Hzero; lia|].
        rewrite Htake. apply Hfirst. lia.
      * intros (Hj & Hw & Hfirst). split; [lia|]. split; [done|].
        intros j' Hj'. rewrite <- Htake. apply Hfirst. lia.
Qed.

(** The scan returns the earliest poll that completes a run of [n]
    consecutive polls within tolerance, and nothing when there is none. *)
Lemma settle_scan_first eps n errs j :
  1 ≤ n →
  settle_scan eps n 0 errs = Some j ↔ first_streak eps (Z.to_nat n) errs j.
Proof.
  intros Hn.
  pose proof (settle_scan_counter eps n errs [] j Hn) as Hscan. simpl in Hscan.
  rewrite Hscan by lia. unfold first_streak.
  rewrite streak_ends_at_counter by lia. split.
  - intros (Hj & Hw & Hfirst). split; [done|]. intros j' Hj'.
    rewrite streak_ends_at_counter by lia. intros [_ Hw'].
    specialize (Hfirst j' Hj'). lia.
  - intros ((Hj & Hw) & Hfirst). split; [done|]. split; [done|].
    intros j' Hj'. apply Nat.nle_gt. intros Hw'. apply (Hfirst j' Hj').
    rewrite streak_ends_at_counter by lia. split; [lia|done].
Qed.

(** ** The settle loop against the bus *)

Lemma reply_after_0 s : reply_after s 0 = bulk_rx (bus s) (n_bulk (bus s)).
Proof. unfold reply_after. by rewrite Nat.add_0_r. Qed.

Lemma bulk_read_result want s pos cur s' :
  bulk_read cfg want s = (Ok (pos, cur), s') →
  comm_ok (reply_after s 0) = true ∧
  positions_of cfg (reply_after s 0) = Ok pos ∧
  n_bulk (bus s') = S (n_bulk (bus s)) ∧
  bulk_rx (bus s') = bulk_rx (bus s).
Proof.
  rewrite bulk_read_unfold, reply_after_0. unfold positions_of.
  destruct (comm_ok _); [|done]. simpl.
  destruct (dict_from _ _ _) as [pos'|e]; [|done].
  unfold store_reading. by intros [= <- _ <-].
Qed.

Lemma bulk_read_good want s pos :
  comm_ok (reply_after s 0) = true →
  positions_of cfg (reply_after s 0) = Ok pos →
  ∃ cur s', bulk_read cfg want s = (Ok (pos, cur), s') ∧
            n_bulk (bus s') = S (n_bulk (bus s)) ∧
            bulk_rx (bus s') = bulk_rx (bus s).
Proof.
  rewrite reply_after_0. unfold positions_of. intros Hcomm Hpos.
  rewrite bulk_read_unfold, Hcomm, Hpos. simpl. unfold store_reading.
  by do 2 eexists.
Qed.

Lemma poll_error_inv g r e :
  poll_error cfg g r = Ok e →
  ∃ pos, positions_of cfg r = Ok pos ∧ max_abs_error cfg g pos = Ok e.
Proof.
  unfold poll_error. destruct (positions_of cfg r) as [pos|]; [|done].
  simpl. intros H. by exists pos.
Qed.

(** What the exit at the deadline returns, when it returns. *)
Lemma timed_out_result a sp sc g lme s r s' :
  timed_out cfg a sp sc g lme s = (Ok r, s') →
  settled r = false ∧
  start_pos r = sp ∧ start_current r = sc ∧ goal r = g ∧
  max_err_ticks r = lme ∧
  match lme with
  | Some e => ∃ d, ticks_to_deg cfg e = Ok d ∧ max_err_deg r = Some d
  | None => max_err_deg r = None
  end ∧
  bulk_read cfg true s = (Ok (final_pos r, final_current r), s').
Proof.
  unfold timed_out.
  assert (∀ m : M unit, (∀ s0, m s0 = (Ok tt, s0) ∨ ∃ e, m s0 = (Raise e, s0)) →
    (m ≫= λ _, '(pos, cur) ← bulk_read cfg true;
       deg ← lift match lme with
                  | Some e => d ← ticks_to_deg cfg e; Ok (Some d)
                  | None => Ok None
                  end;
       mret {| settled := false; start_pos := sp; start_current := sc; goal := g;
               final_pos := pos; final_current := cur;
               max_err_ticks := lme; max_err_deg := deg |}) s = (Ok r, s') →
    settled r = false ∧ start_pos r = sp ∧ start_current r = sc ∧ goal r = g ∧
    max_err_ticks r = lme ∧
    match lme with
    | Some e => ∃ d, ticks_to_deg cfg e = Ok d ∧ max_err_deg r = Some d
    | None => max_err_deg r = None
    end ∧
    bulk_read cfg true s = (Ok (final_pos r, final_current r), s')) as Hgen.
  { intros m Hm. unfold mbind at 1, M_bind at 1.
    destruct (Hm s) as [->|[e ->]]; [|done].
    unfold mbind at 1, M_bind at 1.
    destruct (bulk_read cfg true s) as [[[pos cur]|e] s1]; [|done].
    unfold mbind, M_bind, lift, mret, M_ret.
    destruct lme as [e|]; simpl.
    - destruct (ticks_to_deg cfg e) as [d|]; simpl; [|done].
      intros [= <- <-]. simpl. repeat split; try done. by exists d.
    - intros [= <- <-]. by simpl. }
  apply Hgen. intros s0. destruct (log a); [|by left].
  unfold mbind, M_bind, lift, mret, M_ret.
  destruct (ticks_to_deg cfg _); [by left|right; by eexists].
Qed.

Lemma timed_out_good a sp sc g lme s pos :
  ticks_per_rev cfg ≠ 0 →
  comm_ok (reply_after s 0) = true →
  positions_of cfg (reply_after s 0) = Ok pos →
  ∃ r s', timed_out cfg a sp sc g lme s = (Ok r, s').
Proof.
  intros Htpr Hcomm Hpos.
  destruct (bulk_read_good true s pos Hcomm Hpos) as (cur & s' & Hr & _).
  assert (∀ e, ∃ d, ticks_to_deg cfg e = Ok d) as Hdeg.
  { intros e. unfold ticks_to_deg. destruct (Z.eqb_spec (ticks_per_rev cfg) 0); [done|].
    by eexists. }
  unfold timed_out.
  assert ((if log a
           then lift (ticks_to_deg cfg (default 0 lme)) ≫= λ _, mret ()
           else mret ()) s = (Ok tt, s)) as Hlog.
  { destruct (log a); [|done]. unfold mbind, M_bind, lift.
    by destruct (Hdeg (default 0 lme)) as [d ->]. }
  unfold mbind at 1, M_bind at 1. rewrite Hlog.
  unfold mbind at 1, M_bind at 1. rewrite Hr.
  unfold mbind, M_bind, lift, mret, M_ret.
  destruct lme as [e|]; simpl; [|by do 2 eexists].
  destruct (Hdeg e) as [d ->]. simpl. by do 2 eexists.
Qed.

Lemma ticks_to_deg_ok e :
  ticks_per_rev cfg ≠ 0 →
  ticks_to_deg cfg e = Ok (inject_Z e * 360 / inject_Z (ticks_per_rev cfg))%Q.
Proof.
  intros H. unfold ticks_to_deg. by destruct (Z.eqb_spec (ticks_per_rev cfg) 0).
Qed.

(** On a bus that answers the admitted polls with the errors [errs], the
    settle loop returns where the scan of [errs] says, and goes to the
    deadline exit where the scan finds nothing. *)
Lemma settle_loop_scan a sp sc g deadline clk streak lme s errs :
  ticks_per_rev cfg ≠ 0 →
  length errs = admitted deadline clk →
  (∀ n e, errs !! n = Some e →
     comm_ok (reply_after s n) = true ∧ poll_error cfg g (reply_after s n) = Ok e) →
  match settle_scan (exec_eps_ticks cfg a) (settle_n a) streak errs with
  | Some j =>
      ∃ r s', settle_loop cfg a sp sc g deadline clk streak lme s = (Ok r, s') ∧
              settled r = true ∧
              n_bulk (bus s') = (n_bulk (bus s) + S j)%nat ∧
              max_err_ticks r = errs !! j
  | None =>
      ∃ lme' s1, settle_loop cfg a sp sc g deadline clk streak lme s =
                   timed_out cfg a sp sc g lme' s1 ∧
                 n_bulk (bus s1) = (n_bulk (bus s) + length errs)%nat ∧
                 bulk_rx (bus s1) = bulk_rx (bus s)
  end.
Proof.
  intros Htpr. revert streak lme s errs.
  induction clk as [|t clk IH]; intros streak lme s errs Hlen Hpolls.
  { destruct errs; [|done]. simpl. exists lme, s. by rewrite Nat.add_0_r. }
  cbn [admitted] in Hlen. cbn [settle_loop].
  destruct (before (Some t) deadline) eqn:Hbefore; cbn [negb];
    [|by destruct errs; [|done]; simpl; exists lme, s; rewrite Nat.add_0_r].
  destruct errs as [|e errs]; [done|]. injection Hlen as Hlen.
  destruct (Hpolls 0%nat e eq_refl) as [Hcomm Herr].
  destruct (poll_error_inv _ _ _ Herr) as (pos & Hpos & Hmax).
  destruct (bulk_read_good true s pos Hcomm Hpos) as (cur & s1 & -> & Hn & Hrx).
  rewrite Hmax. cbn [settle_scan].
  set (slept := with_bus (emit (settle_sleep a) (bus s1)) s1).
  assert (∀ streak' lme',
    match settle_scan (exec_eps_ticks cfg a) (settle_n a) streak' errs with
    | Some j =>
        ∃ r s', settle_loop cfg a sp sc g deadline clk streak' lme' slept = (Ok r, s') ∧
                settled r = true ∧
                n_bulk (bus s') = (n_bulk (bus s) + S (S j))%nat ∧
                max_err_ticks r = (e :: errs) !! S j
    | None =>
        ∃ lme'' s2, settle_loop cfg a sp sc g deadline clk streak' lme' slept =
                      timed_out cfg a sp sc g lme'' s2 ∧
                    n_bulk (bus s2) = (n_bulk (bus s) + length (e :: errs))%nat ∧
                    bulk_rx (bus s2) = bulk_rx (bus s)
    end) as Hrec.
  { intros streak' lme'.
    specialize (IH streak' lme' slept errs Hlen).
    assert (∀ n, reply_after slept n = reply_after s (S n)) as Hreply.
    { intros n. unfold reply_after, slept. simpl. rewrite Hrx, Hn. f_equal. lia. }
    destruct (settle_scan _ _ streak' errs) as [j|].
    - destruct IH as (r & s' & Hloop & Hset & Hn' & Herrs).
      { intros n x Hx. rewrite Hreply. by apply (Hpolls (S n)). }
      exists r, s'. split; [done|]. split; [done|]. split; [|done].
      rewrite Hn'. unfold slept. simpl. lia.
    - destruct IH as (lme'' & s2 & Hloop & Hn' & Hrx').
      { intros n x Hx. rewrite Hreply. by apply (Hpolls (S n)). }
      exists lme'', s2. split; [done|]. split.
      + rewrite Hn'. unfold slept. simpl. lia.
      + rewrite Hrx'. unfold slept. simpl. done. }
  destruct (e <=? exec_eps_ticks cfg a).
  - destruct (streak + 1 >=? settle_n a).
    + rewrite (ticks_to_deg_ok e Htpr). do 2 eexists. split; [done|].
      simpl. split; [done|]. split; [lia|done].
    + specialize (Hrec (streak + 1) (Some e)).
      by destruct (settle_scan _ _ (streak + 1) errs).
  - specialize (Hrec 0 (Some e)).
    by destruct (settle_scan _ _ 0 errs).
Qed.

(** ** The maximum error *)

Lemma foldl_max_spec l x :
  (∀ y, y ∈ x :: l → y ≤ foldl Z.max x l) ∧ foldl Z.max x l ∈ x :: l.
Proof.
  revert x. induction l as [|z l IH]; intros x; simpl.
  - split; [|left]. intros y Hy. apply list_elem_of_singleton in Hy. lia.
  - destruct (IH (Z.max x z)) as [Hub Hin]. split.
    + intros y Hy. apply elem_of_cons in Hy as [->|Hy].
      * specialize (Hub (Z.max x z) ltac:(left)). lia.
      * apply elem_of_cons in Hy as [->|Hy].
        -- specialize (Hub (Z.max x z) ltac:(left)). lia.
        -- apply Hub. by right.
    + apply elem_of_cons in Hin as [Heq|Hin]; [|by do 2 right].
      rewrite Heq. destruct (Z.max_spec x z) as [[_ ->]|[_ ->]]; [right; left|left].
Qed.

Lemma abs_errors_spec g pos l errs :
  abs_errors g pos l = Ok errs →
  (∀ i, i ∈ l → ∃ gi pi, g !! i = Some gi ∧ pos !! i = Some pi ∧ Z.abs (gi - pi) ∈ errs) ∧
  (∀ e, e ∈ errs → ∃ i gi pi, i ∈ l ∧ g !! i = Some gi ∧ pos !! i = Some pi ∧
                              e = Z.abs (gi - pi)).
Proof.
  revert errs. induction l as [|j l IH]; intros errs; simpl.
  - intros [= <-]. split; [by intros i ?%elem_of_nil|by intros e ?%elem_of_nil].
  - unfold getitem. destruct (g !! j) as [gj|] eqn:Hg; simpl; [|done].
    destruct (pos !! j) as [pj|] eqn:Hp; simpl; [|done].
    destruct (abs_errors g pos l) as [rest|]; simpl; [|done].
    destruct (IH rest eq_refl) as [Hall Hex]. intros [= <-]. split.
    + intros i Hi. apply elem_of_cons in Hi as [->|Hi].
      * exists gj, pj. repeat split; try done. left.
      * destruct (Hall i Hi) as (gi & pi & ? & ? & ?). exists gi, pi.
        repeat split; try done. by right.
    + intros e He. apply elem_of_cons in He as [->|He].
      * exists j, gj, pj. repeat split; try done. left.
      * destruct (Hex e He) as (i & gi & pi & ? & ? & ? & ?). exists i, gi, pi.
        repeat split; try done. by right.
Qed.

(** [max_abs_error] is the largest [|goal[i] - pos[i]|] over the configured
    axes: a bound for every axis, attained by one of them. *)
Lemma max_abs_error_spec g pos e :
  max_abs_error cfg g pos = Ok e →
  (∀ i, i ∈ ids cfg →
     ∃ gi pi, g !! i = Some gi ∧ pos !! i = Some pi ∧ Z.abs (gi - pi) ≤ e) ∧
  (∃ i gi pi, i ∈ ids cfg ∧ g !! i = Some gi ∧ pos !! i = Some pi ∧
              e = Z.abs (gi - pi)).
Proof.
  unfold max_abs_error.
  destruct (abs_errors g pos (ids cfg)) as [errs|] eqn:Herrs; simpl; [|done].
  destruct (abs_errors_spec _ _ _ _ Herrs) as [Hall Hex].
  destruct errs as [|x errs]; simpl; [done|]. intros [= <-].
  destruct (foldl_max_spec errs x) as [Hub Hin]. split.
  - intros i Hi. destruct (Hall i Hi) as (gi & pi & ? & ? & Hmem).
    exists gi, pi. repeat split; try done. by apply Hub.
  - by apply Hex.
Qed.

Lemma settle_phase_unfold a sp sc g clk s :
  settle_phase cfg a sp sc g clk s =
  settle_loop cfg a sp sc g (deadline_of a clk) (time_time clk).2 0 None s.
Proof. unfold settle_phase, deadline_of. by destruct (time_time clk). Qed.

(** ** What the result reports *)

(** The result of the settle loop, whichever exit it takes.  A settled
    result carries the positions of the poll that settled and the maximum
    error of those very positions.  A result from the deadline exit carries
    the positions of one more bulk read, and as its error the one computed
    by the last poll before it ([lme] when the loop made none). *)
Lemma settle_loop_result a sp sc g deadline clk streak lme s r s' :
  settle_loop cfg a sp sc g deadline clk streak lme s = (Ok r, s') →
  settle_report cfg a sp sc g lme s r s'.
Proof.
  assert (∀ lme s, timed_out cfg a sp sc g lme s = (Ok r, s') →
    settle_report cfg a sp sc g lme s r s') as Hexit.
  { intros lme0 s0 Hto. unfold settle_report.
    destruct (timed_out_result _ _ _ _ _ _ _ _ Hto)
      as (Hset & Hsp & Hsc & Hg & Hlme & Hdeg & Hread).
    destruct (bulk_read_result _ _ _ _ _ Hread) as (_ & Hpos & Hn & Hrx).
    rewrite reply_after_0 in Hpos.
    do 4 (split; [done|]). split; [lia|]. split.
    { rewrite Hn. by replace (S (n_bulk (bus s0)) - 1)%nat with (n_bulk (bus s0)) by lia. }
    split; [by rewrite Hlme|]. split; [congruence|]. intros _. by left. }
  revert streak lme s.
  induction clk as [|t clk IH]; intros streak lme s; cbn [settle_loop]; [apply Hexit|].
  destruct (negb (before (Some t) deadline)); [apply Hexit|].
  destruct (bulk_read cfg true s) as [[[pos cur]|e] s1] eqn:Hread; [|done].
  destruct (bulk_read_result _ _ _ _ _ Hread) as (_ & Hpos & Hn & Hrx).
  rewrite reply_after_0 in Hpos.
  destruct (max_abs_error cfg g pos) as [max_err|] eqn:Hmax; [|done].
  set (slept := with_bus (emit (settle_sleep a) (bus s1)) s1).
  assert (∀ streak',
    settle_loop cfg a sp sc g deadline clk streak' (Some max_err) slept = (Ok r, s') →
    settle_report cfg a sp sc g lme s r s') as Hrec.
  { intros streak' Hloop. unfold settle_report.
    destruct (IH _ _ _ Hloop)
      as (Hsp & Hsc & Hg & Hrx' & Hlt & Hfinal & Hdeg & Hset & Hnot).
    assert (bulk_rx (bus slept) = bulk_rx (bus s)) as Hrxs by (by unfold slept; simpl).
    assert (n_bulk (bus slept) = S (n_bulk (bus s))) as Hns by (by unfold slept; simpl).
    rewrite Hrxs in Hrx', Hfinal. rewrite Hns in Hlt.
    do 4 (split; [done|]). split; [lia|]. do 3 (split; [done|]).
    intros Hfalse. right. destruct (Hnot Hfalse) as [[Hlast Hn']|(pl & e & Hge & Hpl & He & Hm)].
    - exists pos, max_err. rewrite Hn', Hns. split; [lia|].
      replace (S (S (n_bulk (bus s))) - 2)%nat with (n_bulk (bus s)) by lia.
      done.
    - exists pl, e. rewrite Hrxs in Hpl. split; [lia|done]. }
  destruct (Z.leb_spec max_err (exec_eps_ticks cfg a)) as [Hle|Hgt]; [|apply Hrec].
  destruct (streak + 1 >=? settle_n a); [|apply Hrec].
  destruct (ticks_to_deg cfg max_err) as [deg|] eqn:Hdeg; [|done].
  intros [= <- <-]. unfold settle_report. simpl.
  do 4 (split; [done|]). split; [lia|]. split.
  { rewrite Hn. by replace (S (n_bulk (bus s)) - 1)%nat with (n_bulk (bus s)) by lia. }
  split; [by exists deg|]. split; [|done]. intros _. by exists max_err.
Qed.

Lemma bulk_read_cmd_ticks want s :
  cmd_ticks (bulk_read cfg want s).2 = cmd_ticks s.
Proof. by apply (blind_bulk_read (λ x, cmd_ticks x = cmd_ticks s)). Qed.

(** The bus oracle is never replaced and the count of bulk reads only
    grows, whatever the streaming loop does. *)
Lemma stream_loop_bus a sp g t0 ks clk s :
  bulk_rx (bus (stream_loop cfg a sp g t0 ks clk s).2) = bulk_rx (bus s) ∧
  (n_bulk (bus s) ≤ n_bulk (bus (stream_loop cfg a sp g t0 ks clk s).2))%nat.
Proof.
  apply (stream_loop_inv
           (λ x, bulk_rx (bus x) = bulk_rx (bus s) ∧ (n_bulk (bus s) ≤ n_bulk (bus x))%nat)).
  - intros params x [Hrx Hn]. simpl. split; [done|lia].
  - by intros r w pos x [Hrx Hn].
  - by intros q x [Hrx Hn].
  - intros mid x [Hrx Hn]. unfold sync_write_goal_positions.
    destruct (add_params _ _); simpl; [|done]. by destruct (tx_ok _).
  - split; [done|lia].
Qed.

Lemma settle_loop_deadline a sp sc g deadline clk streak lme s :
  admitted deadline clk = 0%nat →
  settle_loop cfg a sp sc g deadline clk streak lme s = timed_out cfg a sp sc g lme s.
Proof.
  destruct clk as [|t clk]; [done|]. cbn [admitted settle_loop].
  by destruct (before (Some t) deadline).
Qed.

(** The same for polls that need not be all the clock admits: on a bus that
    answers the first polls with the errors [errs], the loop returns where
    the scan of [errs] says, and where the scan finds nothing it goes on
    after them with the polls the clock still admits. *)
Lemma settle_loop_prefix a sp sc g deadline clk streak lme s errs :
  ticks_per_rev cfg ≠ 0 →
  (length errs ≤ admitted deadline clk)%nat →
  (∀ n e, errs !! n = Some e →
     comm_ok (reply_after s n) = true ∧ poll_error cfg g (reply_after s n) = Ok e) →
  match settle_scan (exec_eps_ticks cfg a) (settle_n a) streak errs with
  | Some j =>
      ∃ r s', settle_loop cfg a sp sc g deadline clk streak lme s = (Ok r, s') ∧
              settled r = true ∧
              n_bulk (bus s') = (n_bulk (bus s) + S j)%nat ∧
              max_err_ticks r = errs !! j
  | None =>
      ∃ clk' streak' lme' s1,
        settle_loop cfg a sp sc g deadline clk streak lme s =
          settle_loop cfg a sp sc g deadline clk' streak' lme' s1 ∧
        admitted deadline clk = (length errs + admitted deadline clk')%nat ∧
        n_bulk (bus s1) = (n_bulk (bus s) + length errs)%nat ∧
        bulk_rx (bus s1) = bulk_rx (bus s)
  end.
Proof.
  intros Htpr. revert clk streak lme s.
  induction errs as [|e errs IH]; intros clk streak lme s Hlen Hpolls.
  { simpl. exists clk, streak, lme, s. by rewrite Nat.add_0_r. }
  destruct clk as [|t clk]; [simpl in Hlen; lia|].
  cbn [admitted] in Hlen. cbn [settle_loop admitted].
  destruct (before (Some t) deadline) eqn:Hbefore; cbn [negb]; [|simpl in Hlen; lia].
  cbn [length] in Hlen. apply le_S_n in Hlen.
  destruct (Hpolls 0%nat e eq_refl) as [Hcomm Herr].
  destruct (poll_error_inv _ _ _ Herr) as (pos & Hpos & Hmax).
  destruct (bulk_read_good true s pos Hcomm Hpos) as (cur & s1 & -> & Hn & Hrx).
  rewrite Hmax. cbn [settle_scan].
  set (slept := with_bus (emit (settle_sleep a) (bus s1)) s1).
  assert (∀ streak' lme',
    match settle_scan (exec_eps_ticks cfg a) (settle_n a) streak' errs with
    | Some j =>
        ∃ r s', settle_loop cfg a sp sc g deadline clk streak' lme' slept = (Ok r, s') ∧
                settled r = true ∧
                n_bulk (bus s') = (n_bulk (bus s) + S (S j))%nat ∧
                max_err_ticks r = (e :: errs) !! S j
    | None =>
        ∃ clk' streak'' lme'' s2,
          settle_loop cfg a sp sc g deadline clk streak' lme' slept =
            settle_loop cfg a sp sc g deadline clk' streak'' lme'' s2 ∧
          S (admitted deadline clk) = (length (e :: errs) + admitted deadline clk')%nat ∧
          n_bulk (bus s2) = (n_bulk (bus s) + length (e :: errs))%nat ∧
          bulk_rx (bus s2) = bulk_rx (bus s)
    end) as Hrec.
  { intros streak' lme'.
    specialize (IH clk streak' lme' slept Hlen).
    assert (∀ n, reply_after slept n = reply_after s (S n)) as Hreply.
    { intros n. unfold reply_after, slept. simpl. rewrite Hrx, Hn. f_equal. lia. }
    destruct (settle_scan _ _ streak' errs) as [j|].
    - destruct IH as (r & s' & Hloop & Hset & Hn' & Herrs).
      { intros n x Hx. rewrite Hreply. by apply (Hpolls (S n)). }
      exists r, s'. split; [done|]. split; [done|]. split; [|done].
      rewrite Hn'. unfold slept. simpl. lia.
    - destruct IH as (clk' & streak'' & lme'' & s2 & Hloop & Hadm & Hn' & Hrx').
      { intros n x Hx. rewrite Hreply. by apply (Hpolls (S n)). }
      exists clk', streak'', lme'', s2. split; [done|]. split; [simpl; lia|]. split.
      + rewrite Hn'. unfold slept. simpl. lia.
      + rewrite Hrx'. unfold slept. simpl. done. }
  destruct (e <=? exec_eps_ticks cfg a).
  - destruct (streak + 1 >=? settle_n a).
    + rewrite (ticks_to_deg_ok e Htpr). do 2 eexists. split; [done|].
      simpl. split; [done|]. split; [lia|done].
    + specialize (Hrec (streak + 1) (Some e)).
      by destruct (settle_scan _ _ (streak + 1) errs).
  - specialize (Hrec 0 (Some e)).
    by destruct (settle_scan _ _ 0 errs).
Qed.

(** C2. A call of [execute_time_synced] whose entry and streaming have
    succeeded and left the bus in state [s2], with a positive streak count,
    on a bus that answers the first settle polls with the maximum errors
    [errs]; these are polls the clock admits, and nothing is assumed of any
    later poll.  If some poll of [errs] completes a run of [settle_n]
    consecutive polls with maximum error at most [eps_ticks], the call
    returns settled at the earliest such poll [j], after [j + 1] bulk reads
    of the settle phase and with the error of that poll.  A call that
    returns settled has done so at the earliest such poll of [errs], or
    else [errs] holds none and the call settled at a later poll.  When
    [errs] are all the polls the clock admits and none completes a run, no
    result of the call is settled, and the call returns not settled with the
    positions of one more read provided that read succeeds.  A poll's error
    is within tolerance exactly when every axis is within [eps_ticks] of its
    goal. *)
Theorem settle_decision a clk s sp sc s1 g b clk2 s2 errs :
  1 ≤ settle_n a →
  ticks_per_rev cfg ≠ 0 →
  bulk_read cfg true s = (Ok (sp, sc), s1) →
  dict_from (getitem (cmd_ticks s1)) (ids cfg) ∅ = Ok g →
  stream_loop cfg a sp g (time_time clk).1
    (Py.range 1 (exec_steps a + 1)) (time_time clk).2 s1 = (Ok b, clk2, s2) →
  (length errs ≤ admitted (deadline_of a clk2) (time_time clk2).2)%nat →
  (∀ n e, errs !! n = Some e →
     comm_ok (reply_after s2 n) = true ∧ poll_error cfg g (reply_after s2 n) = Ok e) →
  let eps := exec_eps_ticks cfg a in
  let w := Z.to_nat (settle_n a) in
  (∀ j, first_streak eps w errs j →
     ∃ r s', execute_time_synced cfg a clk s = (Ok r, s') ∧
             settled r = true ∧
             n_bulk (bus s') = (n_bulk (bus s2) + S j)%nat ∧
             max_err_ticks r = errs !! j) ∧
  (∀ r s', execute_time_synced cfg a clk s = (Ok r, s') →
     settled r = true →
     ∃ j, n_bulk (bus s') = (n_bulk (bus s2) + S j)%nat ∧
          (first_streak eps w errs j ∨
           (length errs ≤ j)%nat ∧
           (length errs < admitted (deadline_of a clk2) (time_time clk2).2)%nat ∧
           ∀ j', ¬ first_streak eps w errs j')) ∧
  (length errs = admitted (deadline_of a clk2) (time_time clk2).2 →
   (∀ j, ¬ first_streak eps w errs j) →
   (∀ r s', execute_time_synced cfg a clk s = (Ok r, s') → settled r = false) ∧
   ∀ pos, comm_ok (reply_after s2 (length errs)) = true →
          positions_of cfg (reply_after s2 (length errs)) = Ok pos →
          ∃ r s', execute_time_synced cfg a clk s = (Ok r, s') ∧
                  settled r = false ∧ final_pos r = pos ∧
                  n_bulk (bus s') = (n_bulk (bus s2) + S (length errs))%nat) ∧
  (∀ n e, errs !! n = Some e →
     (e ≤ eps ↔
      ∃ pos, positions_of cfg (reply_after s2 n) = Ok pos ∧
             ∀ i, i ∈ ids cfg →
                  ∃ gi pi, g !! i = Some gi ∧ pos !! i = Some pi ∧
                           Z.abs (gi - pi) ≤ eps)).
Proof.
  intros Hn Htpr Hr Hg Hl Hlen Hpolls eps w.
  assert (execute_time_synced cfg a clk s =
          settle_loop cfg a sp sc g (deadline_of a clk2) (time_time clk2).2 0 None s2)
    as Hexec.
  { rewrite (execute_time_synced_unfold a clk s sp sc s1 g Hr Hg), Hl.
    apply settle_phase_unfold. }
  rewrite Hexec.
  pose proof (settle_loop_prefix a sp sc g (deadline_of a clk2) (time_time clk2).2
                0 None s2 errs Htpr Hlen Hpolls) as Hscan.
  fold eps in Hscan.
  split; [|split; [|split]].
  - intros j Hj. apply (settle_scan_first eps (settle_n a) errs j Hn) in Hj. rewrite Hj in Hscan. exact Hscan.
  - intros r s' Hloop Hset.
    destruct (settle_scan eps (settle_n a) 0 errs) as [j|] eqn:Hj.
    + destruct Hscan as (r0 & s0 & Hloop0 & _ & Hnb & _).
      rewrite Hloop in Hloop0. injection Hloop0 as <- <-.
      exists j. split; [done|]. left. by apply (settle_scan_first eps (settle_n a) errs j Hn).
    + destruct Hscan as (clk' & streak' & lme' & s3 & Hloop1 & Hadm & Hn3 & _).
      rewrite Hloop in Hloop1. symmetry in Hloop1.
      pose proof (settle_loop_result _ _ _ _ _ _ _ _ _ _ _ Hloop1)
        as (_ & _ & _ & _ & Hlt & _).
      exists (n_bulk (bus s') - n_bulk (bus s2) - 1)%nat.
      split; [lia|]. right. split; [lia|]. split.
      * destruct (admitted (deadline_of a clk2) clk') eqn:Hzero; [|lia].
        rewrite settle_loop_deadline in Hloop1 by done.
        apply timed_out_result in Hloop1 as [Hno _]. congruence.
      * intros j' Hj'. apply (settle_scan_first eps (settle_n a) errs j' Hn) in Hj'. congruence.
  - intros Hall Hnone.
    destruct (settle_scan eps (settle_n a) 0 errs) as [j|] eqn:Hj.
    { by apply (settle_scan_first eps (settle_n a) errs j Hn), Hnone in Hj. }
    destruct Hscan as (clk' & streak' & lme' & s3 & -> & Hadm & Hn3 & Hrx3).
    rewrite settle_loop_deadline by lia. split.
    + intros r s' Hto. by apply timed_out_result in Hto as [Hno _].
    + intros pos Hcomm Hpos.
      assert (reply_after s3 0 = reply_after s2 (length errs)) as Hreply.
      { rewrite reply_after_0. unfold reply_after. by rewrite Hrx3, Hn3. }
      rewrite <- Hreply in Hcomm, Hpos.
      destruct (timed_out_good a sp sc g lme' s3 pos Htpr Hcomm Hpos) as (r & s' & Hto).
      exists r, s'. split; [done|].
      destruct (timed_out_result _ _ _ _ _ _ _ _ Hto) as (Hset & _ & _ & _ & _ & _ & Hread).
      split; [done|].
      destruct (bulk_read_result _ _ _ _ _ Hread) as (_ & Hpos' & Hn4 & _).
      split; [congruence|]. rewrite Hn4, Hn3. lia.
  - intros n e He. destruct (Hpolls n e He) as [_ Herr].
    destruct (poll_error_inv _ _ _ Herr) as (pos & Hpos & Hmax).
    destruct (max_abs_error_spec _ _ _ Hmax) as [Hall (i & gi & pi & Hi & Hg' & Hp & ->)].
    split.
    + intros Hle. exists pos. split; [done|]. intros i' Hi'.
      destruct (Hall i' Hi') as (g' & p' & ? & ? & ?). exists g', p'.
      repeat split; try done. lia.
    + intros (pos' & Hpos' & Hwithin). rewrite Hpos in Hpos'. injection Hpos' as <-.
      destruct (Hwithin i Hi) as (g' & p' & Hg'' & Hp' & Hle). congruence.
Qed.

(** A result of the settle loop that is not settled comes from the deadline
    exit: every poll the clock admits has been made, and one more read. *)
Lemma settle_loop_unsettled a sp sc g deadline clk streak lme s r s' :
  settle_loop cfg a sp sc g deadline clk streak lme s = (Ok r, s') →
  settled r = false →
  n_bulk (bus s') = (n_bulk (bus s) + admitted deadline clk + 1)%nat.
Proof.
  assert (∀ lme s, timed_out cfg a sp sc g lme s = (Ok r, s') →
    n_bulk (bus s') = (n_bulk (bus s) + 0 + 1)%nat) as Hexit.
  { intros lme0 s0 Hto.
    destruct (timed_out_result _ _ _ _ _ _ _ _ Hto) as (_ & _ & _ & _ & _ & _ & Hread).
    destruct (bulk_read_result _ _ _ _ _ Hread) as (_ & _ & Hn & _). lia. }
  revert streak lme s.
  induction clk as [|t clk IH]; intros streak lme s; cbn [settle_loop admitted];
    [intros H _; by apply (Hexit lme)|].
  destruct (before (Some t) deadline); cbn [negb]; [|intros H _; by apply (Hexit lme)].
  destruct (bulk_read cfg true s) as [[[pos cur]|e] s1] eqn:Hr; [|done].
  destruct (bulk_read_result _ _ _ _ _ Hr) as (_ & _ & Hn & _).
  destruct (max_abs_error cfg g pos) as [me|]; [|done].
  assert (∀ streak' lme',
    settle_loop cfg a sp sc g deadline clk streak' lme'
      (with_bus (emit (settle_sleep a) (bus s1)) s1) = (Ok r, s') →
    settled r = false →
    n_bulk (bus s') = (n_bulk (bus s) + S (admitted deadline clk) + 1)%nat) as Hrec.
  { intros streak' lme' Hloop Hset. rewrite (IH _ _ _ Hloop Hset). simpl. lia. }
  destruct (me <=? exec_eps_ticks cfg a); [|apply Hrec].
  destruct (streak + 1 >=? settle_n a); [|apply Hrec].
  destruct (ticks_to_deg cfg me); [|done]. by intros [= <- _].
Qed.

(** C4 (as the code has it). A result of [execute_time_synced] carries as
    goal the stored commands, as final positions those decoded from the last
    bulk read of the call, and as error in degrees [ticks_to_deg] of its
    error in ticks.  When it is settled, the error in ticks is the maximum
    over the configured axes of [|goal - final_pos|].  When it is not, the
    settle phase has made every poll the clock admitted and then one more
    bulk read, from which the final positions come; the error in ticks is
    absent exactly when the clock admitted no poll, and is otherwise the
    maximum error of the positions of the read before the final one, the
    last settle poll. *)
Theorem motion_result_report a clk s r s' :
  execute_time_synced cfg a clk s = (Ok r, s') →
  dict_from (getitem (cmd_ticks s)) (ids cfg) ∅ = Ok (goal r) ∧
  bulk_rx (bus s') = bulk_rx (bus s) ∧
  (n_bulk (bus s) + 2 ≤ n_bulk (bus s'))%nat ∧
  positions_of cfg (bulk_rx (bus s) (n_bulk (bus s))) = Ok (start_pos r) ∧
  positions_of cfg (bulk_rx (bus s) (n_bulk (bus s') - 1)) = Ok (final_pos r) ∧
  match max_err_ticks r with
  | Some e => ∃ d, ticks_to_deg cfg e = Ok d ∧ max_err_deg r = Some d
  | None => max_err_deg r = None
  end ∧
  (settled r = true →
     ∃ e, max_err_ticks r = Some e ∧
          max_abs_error cfg (goal r) (final_pos r) = Ok e ∧
          e ≤ exec_eps_ticks cfg a ∧
          (∀ i, i ∈ ids cfg →
             ∃ gi pi, goal r !! i = Some gi ∧ final_pos r !! i = Some pi ∧
                      Z.abs (gi - pi) ≤ e) ∧
          (∃ i gi pi, i ∈ ids cfg ∧ goal r !! i = Some gi ∧
                      final_pos r !! i = Some pi ∧ e = Z.abs (gi - pi))) ∧
  (settled r = false →
     ∃ b clk2 s2,
       stream_loop cfg a (start_pos r) (goal r) (time_time clk).1
         (Py.range 1 (exec_steps a + 1)) (time_time clk).2
         (bulk_read cfg true s).2 = (Ok b, clk2, s2) ∧
       let polls := admitted (deadline_of a clk2) (time_time clk2).2 in
       n_bulk (bus s') = (n_bulk (bus s2) + polls + 1)%nat ∧
       match polls with
       | O => max_err_ticks r = None
       | S _ =>
           ∃ pos_last e,
             positions_of cfg (bulk_rx (bus s) (n_bulk (bus s') - 2)) = Ok pos_last ∧
             max_abs_error cfg (goal r) pos_last = Ok e ∧
             max_err_ticks r = Some e
       end).
Proof.
  intros Hexec.
  destruct (execute_time_synced_returns _ _ _ _ _ Hexec)
    as (sp & sc & s1 & g & b & clk2 & s2 & Hr & Hg & Hl & Hs).
  destruct (bulk_read_result _ _ _ _ _ Hr) as (_ & Hsp & Hn1 & Hrx1).
  rewrite reply_after_0 in Hsp.
  pose proof (bulk_read_cmd_ticks true s) as Hcmd. rewrite Hr in Hcmd. simpl in Hcmd.
  destruct (stream_loop_bus a sp g (time_time clk).1 (Py.range 1 (exec_steps a + 1))
              (time_time clk).2 s1) as [Hrx2 Hn2].
  rewrite Hl in Hrx2, Hn2. simpl in Hrx2, Hn2.
  rewrite settle_phase_unfold in Hs.
  destruct (settle_loop_result _ _ _ _ _ _ _ _ _ _ _ Hs)
    as (Esp & Esc & Eg & Hrx3 & Hn3 & Hfinal & Hdeg & Hset & Hnot).
  rewrite Hrx2, Hrx1 in Hrx3, Hfinal. subst sp sc g.
  split; [by rewrite <- Hcmd|]. split; [done|]. split; [lia|].
  do 3 (split; [done|]). split.
  - intros Htrue. destruct (Hset Htrue) as (e & Hmax & He & Hle).
    destruct (max_abs_error_spec _ _ _ Hmax) as [Hall Hex]. by exists e.
  - intros Hfalse. exists b, clk2, s2. rewrite Hr. split; [exact Hl|].
    pose proof (settle_loop_unsettled _ _ _ _ _ _ _ _ _ _ _ Hs Hfalse) as Hcount.
    cbv zeta. split; [exact Hcount|].
    destruct (admitted (deadline_of a clk2) (time_time clk2).2) as [|polls].
    + destruct (Hnot Hfalse) as [[Hnone _]|(pl & e & Hge & _)]; [done|lia].
    + destruct (Hnot Hfalse) as [[_ Hone]|(pl & e & _ & Hpl & Hmax & He)]; [lia|].
      exists pl, e. by rewrite Hrx2, Hrx1 in Hpl.
Qed.

(** ** Termination with a result on a healthy bus *)

Lemma healthy_same_oracle s s' :
  bulk_rx (bus s') = bulk_rx (bus s) → sync_tx (bus s') = sync_tx (bus s) →
  healthy cfg s → healthy cfg s'.
Proof. unfold healthy. by intros -> ->. Qed.

Lemma bulk_read_healthy_inv want s :
  healthy cfg s → healthy cfg (bulk_read cfg want s).2.
Proof.
  apply (preserves_bulk_read (healthy cfg)).
  - intros params x Hx. by apply (healthy_same_oracle x).
  - intros r w pos x Hx. by apply (healthy_same_oracle x).
Qed.

Lemma stream_step_healthy_inv a sp g t0 k clk s :
  healthy cfg s → healthy cfg (stream_step cfg a sp g t0 k clk s).2.
Proof.
  apply (stream_step_inv (healthy cfg)).
  - intros params x Hx. by apply (healthy_same_oracle x).
  - intros r w pos x Hx. by apply (healthy_same_oracle x).
  - intros q x Hx. by apply (healthy_same_oracle x).
  - intros mid x Hx. apply (healthy_same_oracle x); [| |done];
      unfold sync_write_goal_positions;
      (destruct (add_params _ _); simpl; [|done]); by destruct (tx_ok _).
Qed.

Lemma add_params_ok sr items :
  (∀ i, add_param_ok sr i = true) → ∃ ps, add_params sr items = Ok ps.
Proof.
  intros Hok. induction items as [|[i goal] items [ps IH]]; simpl; [by eexists|].
  rewrite Hok, IH. simpl. by eexists.
Qed.

Lemma sync_write_healthy goal_ticks s :
  healthy cfg s → ∃ s', sync_write_goal_positions cfg goal_ticks s = (Ok tt, s').
Proof.
  intros [_ Hsync]. destruct (Hsync (n_sync (bus s))) as [Htx Hadd].
  unfold sync_write_goal_positions.
  destruct (add_params_ok _ (map_to_list goal_ticks) Hadd) as [ps ->].
  rewrite Htx. by eexists.
Qed.

Lemma bulk_read_healthy want s :
  healthy cfg s → ∃ pos cur s', bulk_read cfg want s = (Ok (pos, cur), s').
Proof.
  intros [Hbulk _]. destruct (Hbulk (n_bulk (bus s))) as [Hcomm Hpos].
  by apply bulk_read_succeeds.
Qed.

Lemma mid_ticks_ok a sp g steps k :
  (∀ i, i ∈ ids cfg → is_Some (sp !! i)) →
  (∀ i, i ∈ ids cfg → is_Some (g !! i)) →
  ∃ mid, mid_ticks cfg a sp g steps k = Ok mid.
Proof.
  intros Hsp Hg. unfold mid_ticks. apply dict_from_ok. intros i Hi.
  destruct (Hsp i Hi) as [p Hp]. destruct (Hg i Hi) as [gi Hgi].
  unfold getitem. rewrite Hp, Hgi. simpl. by eexists.
Qed.

Lemma pace_returns a t0 k clk s : ∃ clk' s', pace a t0 k clk s = (Ok false, clk', s').
Proof.
  unfold pace. destruct clk as [|t clk]; simpl; [by do 2 eexists|].
  destruct t0; [|by do 2 eexists]. destruct (Py.ltb _ _); by do 2 eexists.
Qed.

Lemma stream_step_healthy a sp g t0 k clk s :
  healthy cfg s →
  (∀ i, i ∈ ids cfg → is_Some (sp !! i)) →
  (∀ i, i ∈ ids cfg → is_Some (g !! i)) →
  ∃ b clk' s', stream_step cfg a sp g t0 k clk s = (Ok b, clk', s').
Proof.
  intros Hs Hsp Hg. unfold stream_step.
  destruct (mid_ticks_ok a sp g (exec_steps a) k Hsp Hg) as [mid ->].
  destruct (sync_write_healthy mid s Hs) as [s1 Hw].
  assert (healthy cfg s1) as Hs1.
  { destruct Hs as [Hb Hy]. revert Hw. unfold sync_write_goal_positions.
    destruct (add_params _ _); [|done]. destruct (tx_ok _); [|done].
    by intros [= <-]. }
  rewrite Hw.
  assert (∀ s2, ∃ b clk' s', pace a t0 k clk s2 = (Ok b, clk', s')) as Hpace.
  { intros s2. destruct (pace_returns a t0 k clk s2) as (clk' & s' & ->). by do 3 eexists. }
  destruct (current_guard a) as [[mn mx]|]; [|apply Hpace].
  destruct (guard_step a k); [|apply Hpace].
  destruct (bulk_read_healthy true s1 Hs1) as (pos & cur & s2 & Hr). rewrite Hr.
  destruct (bad_axes_total cur mn mx (ids cfg)) as [bad ->].
  { intros i Hi. by apply (bulk_read_covers _ _ _ _ _ i Hr). }
  destruct bad; [apply Hpace|by do 3 eexists].
Qed.

Lemma stream_loop_healthy a sp g t0 ks clk s :
  healthy cfg s →
  (∀ i, i ∈ ids cfg → is_Some (sp !! i)) →
  (∀ i, i ∈ ids cfg → is_Some (g !! i)) →
  ∃ b clk' s', stream_loop cfg a sp g t0 ks clk s = (Ok b, clk', s') ∧ healthy cfg s'.
Proof.
  intros Hs Hsp Hg. revert clk s Hs.
  induction ks as [|k ks IH]; intros clk s Hs; simpl; [by do 3 eexists|].
  pose proof (stream_step_healthy_inv a sp g t0 k clk s Hs) as Hinv.
  destruct (stream_step_healthy a sp g t0 k clk s Hs Hsp Hg) as (b & clk1 & s1 & Hstep).
  rewrite Hstep in Hinv |- *. simpl in Hinv.
  destruct b; [by do 3 eexists|]. by apply IH.
Qed.

Lemma max_abs_error_ok g pos :
  ids cfg ≠ [] →
  (∀ i, i ∈ ids cfg → is_Some (g !! i)) →
  (∀ i, i ∈ ids cfg → is_Some (pos !! i)) →
  ∃ e, max_abs_error cfg g pos = Ok e.
Proof.
  intros Hne Hg Hpos. unfold max_abs_error.
  assert (∀ l, (∀ i, i ∈ l → is_Some (g !! i) ∧ is_Some (pos !! i)) →
               ∃ errs, abs_errors g pos l = Ok errs ∧ length errs = length l) as Herrs.
  { induction l as [|j l IH]; intros Hcov; simpl; [by eexists|].
    destruct (Hcov j) as [[gj Hgj] [pj Hpj]]; [left|].
    destruct IH as (rest & -> & Hlen); [intros i Hi; apply Hcov; by right|].
    unfold getitem. rewrite Hgj, Hpj. simpl. eexists. split; [done|]. simpl. by rewrite Hlen. }
  destruct (Herrs (ids cfg)) as (errs & -> & Hlen); [by intros i Hi; split; auto|].
  simpl. destruct errs as [|x errs]; simpl; [|by eexists].
  destruct (ids cfg); [done|discriminate].
Qed.

Lemma settle_loop_healthy a sp sc g deadline clk streak lme s :
  healthy cfg s → ids cfg ≠ [] → ticks_per_rev cfg ≠ 0 →
  (∀ i, i ∈ ids cfg → is_Some (g !! i)) →
  ∃ r s', settle_loop cfg a sp sc g deadline clk streak lme s = (Ok r, s').
Proof.
  intros Hs Hne Htpr Hg.
  assert (∀ lme s, healthy cfg s → ∃ r s', timed_out cfg a sp sc g lme s = (Ok r, s')) as Hexit.
  { intros lme0 s0 [Hbulk _]. destruct (Hbulk (n_bulk (bus s0))) as [Hcomm Hpos].
    destruct (dict_from_ok (read_position cfg (reply_after s0 0)) (ids cfg) ∅) as [pos Hp].
    { intros i Hi. unfold read_position. rewrite reply_after_0, (Hpos i Hi). by eexists. }
    apply (timed_out_good a sp sc g lme0 s0 pos Htpr); [by rewrite reply_after_0|done]. }
  revert streak lme s Hs.
  induction clk as [|t clk IH]; intros streak lme s Hs; cbn [settle_loop]; [by apply Hexit|].
  destruct (negb (before (Some t) deadline)); [by apply Hexit|].
  destruct (bulk_read_healthy true s Hs) as (pos & cur & s1 & Hr). rewrite Hr.
  destruct (max_abs_error_ok g pos Hne Hg) as [e ->].
  { intros i Hi. by apply (bulk_read_covers _ _ _ _ _ i Hr). }
  assert (healthy cfg (with_bus (emit (settle_sleep a) (bus s1)) s1)) as Hslept.
  { pose proof (bulk_read_healthy_inv true s Hs) as H. rewrite Hr in H.
    by apply (healthy_same_oracle s1). }
  destruct (e <=? exec_eps_ticks cfg a); [|by apply IH].
  destruct (streak + 1 >=? settle_n a); [|by apply IH].
  rewrite (ticks_to_deg_ok e Htpr). by do 2 eexists.
Qed.

(** On a healthy bus, with at least one axis, a non-zero resolution and a
    stored command for every axis, [execute_time_synced] returns a result. *)
Lemma execute_time_synced_healthy a clk s :
  healthy cfg s → ids cfg ≠ [] → ticks_per_rev cfg ≠ 0 →
  (∀ i, i ∈ ids cfg → is_Some (cmd_ticks s !! i)) →
  ∃ r s', execute_time_synced cfg a clk s = (Ok r, s').
Proof.
  intros Hs Hne Htpr Hcmd.
  destruct (bulk_read_healthy true s Hs) as (sp & sc & s1 & Hr).
  assert (cmd_ticks s1 = cmd_ticks s) as Hc.
  { pose proof (bulk_read_cmd_ticks true s) as H. by rewrite Hr in H. }
  destruct (dict_from_ok (getitem (cmd_ticks s1)) (ids cfg) ∅) as [g Hg].
  { intros i Hi. rewrite Hc. destruct (Hcmd i Hi) as [v Hv].
    unfold getitem. rewrite Hv. by eexists. }
  rewrite (execute_time_synced_unfold a clk s sp sc s1 g Hr Hg).
  assert (healthy cfg s1) as Hs1.
  { pose proof (bulk_read_healthy_inv true s Hs) as H. by rewrite Hr in H. }
  assert (∀ i, i ∈ ids cfg → is_Some (g !! i)) as Hgcov.
  { intros i Hi. destruct (dict_from_defined _ _ _ _ i Hg Hi) as (v & _ & ->). by eexists. }
  destruct (stream_loop_healthy a sp g (time_time clk).1 (Py.range 1 (exec_steps a + 1))
              (time_time clk).2 s1 Hs1) as (b & clk2 & s2 & -> & Hs2); [|done|].
  { intros i Hi. by apply (bulk_read_covers _ _ _ _ _ i Hr). }
  unfold settle_phase. destruct (time_time clk2) as [now clk3].
  by apply settle_loop_healthy.
Qed.

(** ** The guard and absent currents *)

(** C10. The guard's list of offending axes holds exactly the configured
    axes whose current reading is present and strictly below [mn] or
    strictly above [mx]; a streaming step breaks only on such a reading;
    and once the current channel is marked unsupported, so that no axis
    reports a current, a streaming loop that is not cut short by an
    exception never breaks and writes every one of its steps, guard or
    no guard; on a healthy bus no exception occurs, and the call returns
    with all its steps written. *)
Theorem guard_needs_present_current :
  (∀ cur mn mx bad, bad_axes cur mn mx (ids cfg) = Ok bad →
     ∀ i, i ∈ bad ↔
          i ∈ ids cfg ∧ ∃ c, cur !! i = Some (Some c) ∧ (c < mn ∨ mx < c)) ∧
  (∀ a sp g t0 k clk s clk' s',
     stream_step cfg a sp g t0 k clk s = (Ok true, clk', s') →
     ∃ mn mx s1 pos cur i c,
       current_guard a = Some (mn, mx) ∧ guard_step a k = true ∧
       bulk_read cfg true s1 = (Ok (pos, cur), s') ∧
       i ∈ ids cfg ∧ cur !! i = Some (Some c) ∧ (c < mn ∨ mx < c)) ∧
  (∀ a sp g t0 ks clk s b clk' s',
     current_off s →
     stream_loop cfg a sp g t0 ks clk s = (Ok b, clk', s') →
     b = false ∧
     sync_writes (trace (bus s')) = (sync_writes (trace (bus s)) + length ks)%nat) ∧
  (∀ a clk s r s',
     current_off s →
     execute_time_synced cfg a clk s = (Ok r, s') →
     sync_writes (trace (bus s')) =
       (sync_writes (trace (bus s)) + Z.to_nat (exec_steps a))%nat) ∧
  (∀ a clk s,
     current_off s →
     healthy cfg s → ids cfg ≠ [] → ticks_per_rev cfg ≠ 0 →
     (∀ i, i ∈ ids cfg → is_Some (cmd_ticks s !! i)) →
     ∃ r s', execute_time_synced cfg a clk s = (Ok r, s')).
Proof.
  split; [|split; [|split; [|split]]].
  - intros cur mn mx bad. apply bad_axes_spec.
  - intros a sp g t0 k clk s clk' s' Hk.
    destruct (stream_step_break _ _ _ _ _ _ _ _ _ Hk)
      as (mid & s1 & mn & mx & pos & cur & i & c & _ & _ & Hg & Hgs & Hr & _ & Hi & Hc & Hout).
    by exists mn, mx, s1, pos, cur, i, c.
  - intros a sp g t0 ks clk s b clk' s' Hoff Hl.
    assert (b = false) as -> by by eapply stream_loop_current_off.
    split; [done|]. by eapply stream_loop_count.
  - intros a clk s r s' Hoff Hexec.
    destruct (execute_time_synced_returns _ _ _ _ _ Hexec)
      as (sp & sc & s1 & g & b & clk2 & s2 & Hr & _ & Hl & Hs).
    assert (current_off s1) as Hoff1.
    { pose proof (blind_bulk_read _ current_off_with_bus current_off_store_reading
                    true s Hoff) as H. by rewrite Hr in H. }
    assert (b = false) as -> by by eapply stream_loop_current_off.
    pose proof (settle_phase_count a sp sc g clk2 s2) as Hcount.
    rewrite Hs in Hcount. simpl in Hcount. rewrite Hcount.
    rewrite (stream_loop_count _ _ _ _ _ _ _ _ _ Hl), range_length.
    pose proof (bulk_read_count true s _ eq_refl) as Hc0. rewrite Hr in Hc0.
    simpl in Hc0. rewrite Hc0. f_equal. lia.
  - intros a clk s _. apply execute_time_synced_healthy.
Qed.

(** ** The parameters fixed on entry *)




End Facts.

(** * Concrete runs *)

(** ** C1 *)

(** The scenario of the specification: a ten-step stream, a current of 500
    against the band [-300, 300] on step 3.  Three waypoints are written and
    the call continues with the settle phase. *)
Lemma guard_trip_halts_streaming_witness :
  Demo.guarded.(current_guard) = Some (-300, 300) ∧
  exec_steps Demo.guarded = 10 ∧
  sync_writes (trace (bus (execute_time_synced Demo.cfg Demo.guarded
                             (Demo.still 30) Demo.tripping).2)) = 3%nat.
Proof.
  split; [reflexivity|]. split; [reflexivity|].
  edestruct (guard_trip_halts_streaming Demo.cfg Demo.guarded (Demo.still 30) Demo.tripping)
    with (pre := [1; 2]) (k := 3) (rest := [4; 5; 6; 7; 8; 9; 10]) (i := 1)
    as (_ & _ & _ & _ & Hcount).
  - vm_compute. reflexivity.
  - vm_compute. reflexivity.
  - reflexivity.
  - vm_compute. reflexivity.
  - vm_compute. reflexivity.
  - vm_compute. reflexivity.
  - reflexivity.
  - reflexivity.
  - vm_compute. reflexivity.
  - apply list_elem_of_In. simpl. auto.
  - vm_compute. reflexivity.
  - right. reflexivity.
  - exact Hcount.
Defined.

(** In that scenario both axes are within tolerance of the goal, and the
    call that the guard cut short returns [settled = True]. *)
Lemma guard_trip_can_settle :
  let run := execute_time_synced Demo.cfg Demo.guarded (Demo.still 30) Demo.tripping in
  stream_outcome Demo.cfg Demo.guarded (Demo.still 30) Demo.tripping = Ok true ∧
  sync_writes (trace (bus run.2)) = 3%nat ∧
  exec_steps Demo.guarded = 10 ∧
  settled <$> (match run.1 with Ok r => Some r | Raise _ => None end) = Some true.
Proof. vm_compute. repeat split. Qed.

(** ** C2 *)

(** Position 9 at the start, then errors 5, 5, 1, 1, 1 against a tolerance
    of 2 ticks and a streak of 3: the call settles at the fifth poll, index
    4, with six bulk reads made in all.  Errors 1, 1, 5, 1, 1 with a clock
    that admits five polls: the call does not settle, and has made one more
    read. *)
Lemma settle_decision_witness :
  let run ps := execute_time_synced Demo.cfg Demo.one_step (Demo.still 8) (Demo.polled ps) in
  (∃ r s', run [9; 5; 5; 1; 1; 1] = (Ok r, s') ∧
           settled r = true ∧ n_bulk (bus s') = 6%nat ∧ max_err_ticks r = Some 1) ∧
  settle_scan 2 3 0 [5; 5; 1; 1; 1] = Some 4%nat ∧
  settle_scan 2 3 0 [1; 1; 5; 1; 1] = None ∧
  (∃ r s', run [9; 1; 1; 5; 1; 1] = (Ok r, s') ∧
           settled r = false ∧ final_pos r = {[1 := 1; 2 := 1]} ∧
           n_bulk (bus s') = 7%nat).
Proof.
  intros run.
  set (sp := ({[1 := 9; 2 := 9]} : gmap Z Z)).
  set (sc := ({[1 := None; 2 := None]} : gmap Z (option Z))).
  set (g := ({[1 := 0; 2 := 0]} : gmap Z Z)).
  split; [|split; [reflexivity|split; [reflexivity|]]].
  - set (s := Demo.polled [9; 5; 5; 1; 1; 1]).
    set (s1 := (bulk_read Demo.cfg true s).2).
    set (out := stream_loop Demo.cfg Demo.one_step sp g (time_time (Demo.still 8)).1
                  (Py.range 1 (exec_steps Demo.one_step + 1))
                  (time_time (Demo.still 8)).2 s1).
    assert (bulk_read Demo.cfg true s = (Ok (sp, sc), s1)) as Hr
      by (vm_compute; reflexivity).
    assert (dict_from (getitem (cmd_ticks s1)) (ids Demo.cfg) ∅ = Ok g) as Hg
      by (vm_compute; reflexivity).
    assert (out = (Ok false, Demo.still 6, out.2)) as Hl by (vm_compute; reflexivity).
    assert (n_bulk (bus out.2) = 1%nat) as Hone by (vm_compute; reflexivity).
    destruct (settle_decision Demo.cfg Demo.one_step (Demo.still 8) s sp sc s1 g false
                (Demo.still 6) out.2 [5; 5; 1; 1; 1]
                ltac:(simpl; lia) ltac:(simpl; lia) Hr Hg Hl)
      as (Hsettles & _).
    + vm_compute. lia.
    + intros n e He.
      do 5 (destruct n as [|n]; [injection He as <-; split; vm_compute; reflexivity|]).
      discriminate.
    + destruct (Hsettles 4%nat) as (r & s' & Hrun & Hset & Hnb & Herr).
      { apply (settle_scan_first 2 3 [5; 5; 1; 1; 1] 4%nat); [lia|reflexivity]. }
      exists r, s'. rewrite Hone in Hnb.
      split; [exact Hrun|]. split; [exact Hset|]. split; [exact Hnb|exact Herr].
  - set (s := Demo.polled [9; 1; 1; 5; 1; 1]).
    set (s1 := (bulk_read Demo.cfg true s).2).
    set (out := stream_loop Demo.cfg Demo.one_step sp g (time_time (Demo.still 8)).1
                  (Py.range 1 (exec_steps Demo.one_step + 1))
                  (time_time (Demo.still 8)).2 s1).
    assert (bulk_read Demo.cfg true s = (Ok (sp, sc), s1)) as Hr
      by (vm_compute; reflexivity).
    assert (dict_from (getitem (cmd_ticks s1)) (ids Demo.cfg) ∅ = Ok g) as Hg
      by (vm_compute; reflexivity).
    assert (out = (Ok false, Demo.still 6, out.2)) as Hl by (vm_compute; reflexivity).
    assert (n_bulk (bus out.2) = 1%nat) as Hone by (vm_compute; reflexivity).
    destruct (settle_decision Demo.cfg Demo.one_step (Demo.still 8) s sp sc s1 g false
                (Demo.still 6) out.2 [1; 1; 5; 1; 1]
                ltac:(simpl; lia) ltac:(simpl; lia) Hr Hg Hl)
      as (_ & _ & Hnot & _).
    + vm_compute. lia.
    + intros n e He.
      do 5 (destruct n as [|n]; [injection He as <-; split; vm_compute; reflexivity|]).
      discriminate.
    + destruct Hnot as [_ Hreturns].
      { vm_compute. reflexivity. }
      { intros j Hj.
        apply (settle_scan_first 2 3 [1; 1; 5; 1; 1] j) in Hj; [discriminate|lia]. }
      destruct (Hreturns {[1 := 1; 2 := 1]}) as (r & s' & Hrun & Hset & Hpos & Hnb).
      { vm_compute. reflexivity. }
      { vm_compute. reflexivity. }
      exists r, s'. rewrite Hone in Hnb.
      split; [exact Hrun|]. split; [exact Hset|]. split; [exact Hpos|exact Hnb].
Defined.

(** The same two sequences through a whole call: one streamed step, then the
    polls.  With the clock letting five polls through the first settles,
    with four it does not, and the second does not settle with five. *)
Example execute_settles_at_fifth_poll :
  let run n ps := execute_time_synced Demo.cfg Demo.one_step (Demo.still n) (Demo.polled ps) in
  let flag (res : Res MotionResult * AxisServo) :=
    match res.1 with Ok r => Some (settled r, n_bulk (bus res.2)) | Raise _ => None end in
  flag (run 8%nat [9; 5; 5; 1; 1; 1]) = Some (true, 6%nat) ∧
  flag (run 7%nat [9; 5; 5; 1; 1; 1]) = Some (false, 6%nat) ∧
  flag (run 8%nat [9; 1; 1; 5; 1; 1]) = Some (false, 7%nat).
Proof. vm_compute. repeat split. Qed.


(** ** C4 *)

(** A settled result: its error is the maximum error of its own final
    positions.  A result from the deadline exit after one poll: the poll
    read position 10 and the final read position 0, and the result reports
    the error 10 of the poll next to the final positions 0. *)
Lemma motion_result_report_witness :
  (∃ r s', execute_time_synced Demo.cfg Demo.one_step (Demo.still 8)
             (Demo.polled [9; 5; 5; 1; 1; 1]) = (Ok r, s') ∧
           settled r = true ∧
           max_err_ticks r = Some 1 ∧
           max_abs_error Demo.cfg (goal r) (final_pos r) = Ok 1) ∧
  (∃ r s', execute_time_synced Demo.cfg Demo.one_step (Demo.still 4) Demo.late =
             (Ok r, s') ∧
           settled r = false ∧
           final_pos r = {[1 := 0; 2 := 0]} ∧
           max_err_ticks r = Some 10 ∧
           n_bulk (bus s') = 3%nat ∧
           ∃ pos_last,
             positions_of Demo.cfg (bulk_rx (bus Demo.late) 1) = Ok pos_last ∧
             max_abs_error Demo.cfg (goal r) pos_last = Ok 10).
Proof.
  pose (none := {| settled := false; start_pos := ∅; start_current := ∅; goal := ∅;
                   final_pos := ∅; final_current := ∅;
                   max_err_ticks := None; max_err_deg := None |}).
  split.
  - set (run := execute_time_synced Demo.cfg Demo.one_step (Demo.still 8)
                  (Demo.polled [9; 5; 5; 1; 1; 1])).
    set (r := match run.1 with Ok r => r | Raise _ => none end).
    assert (run = (Ok r, run.2)) as Hrun by (vm_compute; reflexivity).
    exists r, run.2. split; [exact Hrun|].
    destruct (motion_result_report Demo.cfg _ _ _ _ _ Hrun)
      as (_ & _ & _ & _ & _ & _ & Hset & _).
    assert (settled r = true) as Htrue by (vm_compute; reflexivity).
    destruct (Hset Htrue) as (e & He & Hmax & _).
    assert (max_err_ticks r = Some 1) as Hone by (vm_compute; reflexivity).
    rewrite Hone in He. injection He as <-.
    split; [exact Htrue|]. split; [exact Hone|exact Hmax].
  - set (run := execute_time_synced Demo.cfg Demo.one_step (Demo.still 4) Demo.late).
    set (r := match run.1 with Ok r => r | Raise _ => none end).
    assert (run = (Ok r, run.2)) as Hrun by (vm_compute; reflexivity).
    exists r, run.2. split; [exact Hrun|].
    destruct (motion_result_report Demo.cfg _ _ _ _ _ Hrun)
      as (_ & _ & _ & _ & Hfinal & _ & _ & Hnot).
    assert (settled r = false) as Hfalse by (vm_compute; reflexivity).
    split; [exact Hfalse|].
    assert (final_pos r = {[1 := 0; 2 := 0]}) as Hpos by (vm_compute; reflexivity).
    split; [exact Hpos|].
    destruct (Hnot Hfalse) as (b & clk2 & s2 & Hl & Hcount & Hlast).
    set (out := stream_loop Demo.cfg Demo.one_step (start_pos r) (goal r)
                  (time_time (Demo.still 4)).1
                  (Py.range 1 (exec_steps Demo.one_step + 1))
                  (time_time (Demo.still 4)).2
                  (bulk_read Demo.cfg true Demo.late).2) in Hl.
    assert (out = (Ok false, Demo.still 2, out.2)) as Hout by (vm_compute; reflexivity).
    assert (n_bulk (bus out.2) = 1%nat) as Hn by (vm_compute; reflexivity).
    assert (admitted (deadline_of Demo.one_step (Demo.still 2))
              (time_time (Demo.still 2)).2 = 1%nat) as Hone by (vm_compute; reflexivity).
    clearbody out.
    pose proof (eq_trans (eq_sym Hout) Hl) as Heq.
    injection Heq as Hb Hclk Hs2. subst b clk2 s2.
    rewrite Hone, Hn in Hcount. rewrite Hone in Hlast.
    change (1 + 1 + 1)%nat with 3%nat in Hcount.
    destruct Hlast as (pos_last & e & Hpl & Hmax & He).
    rewrite Hcount in Hpl. change (3 - 2)%nat with 1%nat in Hpl.
    assert (max_err_ticks r = Some 10) as Hten by (vm_compute; reflexivity).
    rewrite Hten in He. injection He as <-.
    split; [exact Hten|]. split; [exact Hcount|].
    exists pos_last. split; [exact Hpl|exact Hmax].
Defined.

(** A result from the deadline exit: the only settle poll read position 10,
    the final read position 0.  The result reports the final positions 0
    together with the error 10 of the poll; the maximum error of the
    positions it reports is 0. *)
Lemma stale_error_after_timeout :
  let run := execute_time_synced Demo.cfg Demo.one_step (Demo.still 4) Demo.late in
  let r := match run.1 with Ok r => Some r | Raise _ => None end in
  settled <$> r = Some false ∧
  final_pos <$> r = Some {[1 := 0; 2 := 0]} ∧
  goal <$> r = Some {[1 := 0; 2 := 0]} ∧
  max_err_ticks <$> r = Some (Some 10) ∧
  (λ r, max_abs_error Demo.cfg (goal r) (final_pos r)) <$> r = Some (Ok 0).
Proof. vm_compute. repeat split. Qed.

(** ** C5 *)

(** The first read of a session on a bus without the current field marks
    the channel unsupported; two reads and a nudge later it still is, and
    the next read asks for positions only. *)
Lemma current_channel_degrades_once_witness :
  let s := Demo.servo 0 (Demo.bus_of [] (Demo.reading 7 None)) in
  let s1 := (bulk_read Demo.cfg true s).2 in
  let cs := [CallBulkRead true; CallNudgeRelDeg [(1, 90%Q)]; CallBulkRead true] in
  let s2 := after_calls Demo.cfg cs s1 in
  supports_current s1 = Some false ∧
  supports_current s2 = Some false ∧
  trace (bus (bulk_read Demo.cfg true s2).2) =
    trace (bus s2) ++ [EvBulkRead (position_params Demo.cfg)].
Proof.
  intros s s1 cs s2.
  assert (∃ pos cur, bulk_read Demo.cfg true s = (Ok (pos, cur), s1)) as (pos & cur & Hread).
  { do 2 eexists. vm_compute. reflexivity. }
  destruct (current_channel_degrades_once Demo.cfg s pos cur s1 1 cs true)
    as (H1 & H2 & _ & H3 & _).
  - reflexivity.
  - exact Hread.
  - apply list_elem_of_In. simpl. auto.
  - reflexivity.
  - exact (conj H1 (conj H2 H3)).
Defined.

(** The flag is decided on the first attempt only: after a first read that
    found the current of every axis, a read that finds it unavailable leaves
    the flag at [Some true], and the read after that asks for the current
    again. *)
Lemma current_flag_not_revised :
  let s := Demo.servo 0 (Demo.bus_of [Demo.reading 7 (Some 12)] (Demo.reading 7 None)) in
  let s1 := (bulk_read Demo.cfg true s).2 in
  let s2 := (bulk_read Demo.cfg true s1).2 in
  let s3 := (bulk_read Demo.cfg true s2).2 in
  asks_current true s1 = true ∧
  current_available Demo.cfg (bulk_rx (bus s1) (n_bulk (bus s1))) 1 = false ∧
  (bulk_read Demo.cfg true s1).1 =
    Ok ({[1 := 7; 2 := 7]}, {[1 := None; 2 := None]}) ∧
  supports_current s2 = Some true ∧
  asks_current true s2 = true ∧
  last (trace (bus s3)) = Some (EvBulkRead (bulk_params Demo.cfg true)) ∧
  bulk_params Demo.cfg true = [(1, 132, 4); (2, 132, 4); (1, 126, 2); (2, 126, 2)].
Proof. vm_compute. repeat split. Qed.

(** ** C6 *)

(** 90 degrees, then 45 degrees, on axis 1 of a pair commanded to 100 ticks:
    1024 and 512 ticks are added to the stored 100. *)
Lemma nudge_rel_deg_adds_to_command_witness :
  let s := Demo.servo 100 (Demo.bus_of [] (Demo.reading 7 None)) in
  ∃ s1 s2,
    nudge_rel_deg Demo.cfg [(1, 90%Q)] s = (Ok tt, s1) ∧
    nudge_rel_deg Demo.cfg [(1, 45%Q); (2, 10%Q)] s1 = (Ok tt, s2) ∧
    cmd_ticks s2 !! 1 = Some (100 + (1024 + 512)).
Proof.
  intros s.
  destruct (nudge_rel_deg_adds_to_command Demo.cfg [(1, 90%Q)] [(1, 45%Q); (2, 10%Q)]
              s 1 90%Q 45%Q 100) as (s1 & s2 & H1 & H2 & _ & Hcmd & _).
  - apply NoDup_singleton.
  - apply NoDup_cons. split; [|apply NoDup_singleton].
    intros Hin. apply list_elem_of_singleton in Hin. discriminate.
  - intros k Hk. apply list_elem_of_In in Hk. simpl in Hk.
    destruct Hk as [<-|[<-|[<-|[]]]]; by eexists.
  - left.
  - left.
  - reflexivity.
  - vm_compute. split; discriminate.
  - vm_compute. split; discriminate.
  - exists s1, s2. split; [exact H1|]. split; [exact H2|]. exact Hcmd.
Defined.

(** ** C7, C9, C10 *)

Example smoothstep_values :
  (shape true (1 # 2) == 1 # 2)%Q ∧
  (shape true (1 # 4) == 5 # 32)%Q ∧
  waypoint 0 4096 (shape true (1 # 4)) = 640 ∧
  waypoint (-7) 4096 (shape true (inject_Z 10 / inject_Z 10)) = 4096.
Proof. repeat split. Qed.

Example mode_switch_trace :
  trace (bus (ensure_extended_mode Demo.cfg (Some [2; 1])
                (Demo.servo 0 (Demo.bus_of [] (Demo.reading 0 None)))).2) =
  [ EvWrite1 2 64 0; EvWrite1 2 11 4; EvWrite1 2 64 1;
    EvWrite1 1 64 0; EvWrite1 1 11 4; EvWrite1 1 64 1 ].
Proof. reflexivity. Qed.

(** On a bus without the current field the guard has nothing to trip on:
    all ten steps are written.  A current equal to a bound does not trip
    either. *)
Example guard_without_current_completes :
  let count (s : AxisServo) :=
    sync_writes (trace (bus (execute_time_synced Demo.cfg Demo.guarded (Demo.still 30) s).2)) in
  count (Demo.polled []) = 10%nat ∧
  count (Demo.servo 0 (Demo.bus_of [] (Demo.reading 1 (Some 300)))) = 10%nat ∧
  count (Demo.servo 0 (Demo.bus_of [] (Demo.reading 1 (Some (-300))))) = 10%nat ∧
  count (Demo.servo 0 (Demo.bus_of [] (Demo.reading 1 (Some 301)))) = 1%nat.
Proof. vm_compute. repeat split. Qed.

(** ** Binary64 *)

(** In binary64 the shaper is exact at both ends, the last progress
    fraction is exactly 1, and 7/8 s at 50 Hz gives 43 steps where rounding
    would give 44. *)
Example binary64_boundaries :
  Binary64.shape true 0 = 0%float ∧ Binary64.shape true 1 = 1%float ∧
  Binary64.shape false 0 = 0%float ∧ Binary64.shape false 1 = 1%float ∧
  Binary64.alpha 10 10 = 1%float ∧ Binary64.alpha 43 43 = 1%float ∧
  Binary64.exec_steps 0.875 50 = 43 ∧
  Z.max 1 (Binary64.round (0.875 * 50)%float) = 44 ∧
  Binary64.waypoint (- 2 ^ 31) (2 ^ 31 - 1) (Binary64.shape true (Binary64.alpha 10 10)) =
    2 ^ 31 - 1.
Proof. vm_compute. repeat split. Qed.

(** The rational model and binary64 agree on the conversions and on every
    waypoint of the concrete runs. *)
Example binary64_agrees :
  map (Binary64.deg_to_ticks 4096) [0.1875; 2; 10; 45; 90]%float =
    map (deg_to_ticks Demo.cfg) [3 # 16; 2; 10; 45; 90]%Q ∧
  Binary64.exec_steps 1 10 = exec_steps Demo.guarded ∧
  Binary64.exec_steps 0.0625 10 = exec_steps Demo.one_step ∧
  Binary64.exec_steps 0.875 50 = exec_steps Demo.fractional ∧
  map (λ k, Binary64.waypoint 1 0 (Binary64.shape true (Binary64.alpha k 10)))
      (Py.range 1 11) =
    map (λ k, waypoint 1 0 (shape true (inject_Z k / inject_Z 10))) (Py.range 1 11) ∧
  map (λ k, Binary64.waypoint 0 4096 (Binary64.shape true (Binary64.alpha k 10)))
      (Py.range 1 11) =
    map (λ k, waypoint 0 4096 (shape true (inject_Z k / inject_Z 10))) (Py.range 1 11).
Proof. vm_compute. repeat split. Qed.

(** * Further properties of the servo layer *)

Section MoreFacts.

Variable cfg : DxlConfig.

(** ** Two's complement decoding *)

Lemma land_pow2 y n :
  0 ≤ n → Z.land y (2 ^ n) = if Z.testbit y n then 2 ^ n else 0.
Proof.
  intros Hn. apply Z.bits_inj'. intros m Hm.
  rewrite Z.land_spec, Z.pow2_bits_eqb by done.
  destruct (Z.eqb_spec n m) as [->|Hne].
  - destruct (Z.testbit y m); simpl; [by rewrite Z.pow2_bits_true|by rewrite Z.bits_0].
  - rewrite andb_false_r. destruct (Z.testbit y n); [|by rewrite Z.bits_0].
    by rewrite Z.pow2_bits_false.
Qed.

(** The sign test of [_int32] and [_i16]: on a value below [2^(n+1)], bit [n]
    is clear exactly below [2^n]. *)
Lemma sign_bit_clear y n :
  0 ≤ n → 0 ≤ y < 2 ^ (n + 1) →
  (Z.land y (2 ^ n) =? 0) = (y <? 2 ^ n).
Proof.
  intros Hn Hy. rewrite land_pow2 by done.
  assert (0 < 2 ^ n) as Hpos by (apply Z.pow_pos_nonneg; lia).
  rewrite Z.pow_add_r, Z.pow_1_r in Hy by lia.
  rewrite Z.testbit_eqb by done.
  assert (y / 2 ^ n = 0 ∨ y / 2 ^ n = 1) as Hq.
  { assert (0 ≤ y / 2 ^ n < 2) as Hr; [|lia]. split.
    - apply Z.div_pos; lia.
    - apply Z.div_lt_upper_bound; lia. }
  destruct Hq as [Hq|Hq]; rewrite Hq; simpl.
  - apply Z.div_small_iff in Hq; [|lia]. symmetry. apply Z.ltb_lt. lia.
  - assert (2 ^ n ≤ y) as Hge.
    { pose proof (Z.mul_div_le y (2 ^ n) Hpos). lia. }
    destruct (Z.eqb_spec (2 ^ n) 0); [lia|]. symmetry. apply Z.ltb_ge. lia.
Qed.

Lemma int32_unfold x :
  _int32 x = if x mod 2 ^ 32 <? 2 ^ 31 then x mod 2 ^ 32 else x mod 2 ^ 32 - 2 ^ 32.
Proof.
  unfold _int32. change 0xFFFFFFFF with (Z.ones 32).
  rewrite Z.land_ones by lia.
  change 0x80000000 with (2 ^ 31). change 0x100000000 with (2 ^ 32).
  rewrite (sign_bit_clear _ 31); [done|lia|].
  change (2 ^ (31 + 1)) with (2 ^ 32). apply Z.mod_pos_bound. lia.
Qed.

Lemma i16_unfold x :
  _i16 x = if x mod 2 ^ 16 <? 2 ^ 15 then x mod 2 ^ 16 else x mod 2 ^ 16 - 2 ^ 16.
Proof.
  unfold _i16. change 0xFFFF with (Z.ones 16).
  rewrite Z.land_ones by lia.
  change 0x8000 with (2 ^ 15). change 0x10000 with (2 ^ 16).
  rewrite (sign_bit_clear _ 15); [done|lia|].
  change (2 ^ (15 + 1)) with (2 ^ 16). apply Z.mod_pos_bound. lia.
Qed.

Lemma u32_unfold x : _u32 x = x mod 2 ^ 32.
Proof. unfold _u32. change 0xFFFFFFFF with (Z.ones 32). apply Z.land_ones. lia. Qed.

Lemma int32_range x : in_i32 (_int32 x).
Proof.
  rewrite int32_unfold. unfold in_i32.
  pose proof (Z.mod_pos_bound x (2 ^ 32) ltac:(lia)).
  destruct (Z.ltb_spec (x mod 2 ^ 32) (2 ^ 31)); lia.
Qed.

Lemma i16_range x : in_i16 (_i16 x).
Proof.
  rewrite i16_unfold. unfold in_i16.
  pose proof (Z.mod_pos_bound x (2 ^ 16) ltac:(lia)).
  destruct (Z.ltb_spec (x mod 2 ^ 16) (2 ^ 15)); lia.
Qed.

(** X1. [_int32] decodes any integer to the signed 32-bit value congruent to
    it modulo 2^32, and [_u32] encodes to the unsigned one; decoding an
    encoded value gives back every value of the signed range, and [_i16]
    does the same on 16 bits. *)
Theorem int32_decodes_u32 x :
  in_i32 (_int32 x) ∧
  (_int32 x) mod 2 ^ 32 = x mod 2 ^ 32 ∧
  0 ≤ _u32 x < 2 ^ 32 ∧
  (_u32 x) mod 2 ^ 32 = x mod 2 ^ 32 ∧
  _int32 (_u32 x) = _int32 x ∧
  (in_i32 x → _int32 (_u32 x) = x) ∧
  in_i16 (_i16 x) ∧
  (_i16 x) mod 2 ^ 16 = x mod 2 ^ 16 ∧
  (in_i16 x → _i16 x = x).
Proof.
  pose proof (Z.mod_pos_bound x (2 ^ 32) ltac:(lia)) as H32.
  pose proof (Z.mod_pos_bound x (2 ^ 16) ltac:(lia)) as H16.
  split; [apply int32_range|]. split.
  { rewrite int32_unfold. destruct (_ <? _); [by rewrite Z.mod_mod by lia|].
    rewrite Zminus_mod, Z.mod_same, Z.sub_0_r, !Z.mod_mod by lia. done. }
  split; [by rewrite u32_unfold|]. split; [by rewrite u32_unfold, Z.mod_mod by lia|].
  split. { by rewrite (int32_unfold (_u32 x)), u32_unfold, Z.mod_mod, <- int32_unfold by lia. }
  split.
  { intros Hx. unfold in_i32 in Hx. rewrite int32_unfold, u32_unfold, Z.mod_mod by lia.
    assert (x mod 2 ^ 32 = if 0 <=? x then x else x + 2 ^ 32) as ->.
    { destruct (Z.leb_spec 0 x); [apply Z.mod_small; lia|].
      rewrite <- (Z.mod_add x 1) by lia. apply Z.mod_small. lia. }
    destruct (Z.leb_spec 0 x);
      [destruct (Z.ltb_spec x (2 ^ 31))|destruct (Z.ltb_spec (x + 2 ^ 32) (2 ^ 31))]; lia. }
  split; [apply i16_range|]. split.
  { rewrite i16_unfold. destruct (_ <? _); [by rewrite Z.mod_mod by lia|].
    rewrite Zminus_mod, Z.mod_same, Z.sub_0_r, !Z.mod_mod by lia. done. }
  intros Hx. unfold in_i16 in Hx. rewrite i16_unfold.
  assert (x mod 2 ^ 16 = if 0 <=? x then x else x + 2 ^ 16) as ->.
  { destruct (Z.leb_spec 0 x); [apply Z.mod_small; lia|].
    rewrite <- (Z.mod_add x 1) by lia. apply Z.mod_small. lia. }
  destruct (Z.leb_spec 0 x);
    [destruct (Z.ltb_spec x (2 ^ 15))|destruct (Z.ltb_spec (x + 2 ^ 16) (2 ^ 15))]; lia.
Qed.

(** ** What a bulk read returns and records *)

Lemma dict_from_raise {V} (f : Z → Res V) l acc e :
  dict_from f l acc = Raise e → ∃ i, i ∈ l ∧ f i = Raise e.
Proof.
  revert acc. induction l as [|j l IH]; intros acc; cbn [dict_from]; [done|].
  destruct (f j) as [v|e'] eqn:Hj; simpl.
  - intros H. destruct (IH _ H) as (i & Hi & Hf). exists i. split; [by right|done].
  - intros [= <-]. exists j. split; [left|done].
Qed.

Lemma read_currents_lookup r acc i :
  read_currents cfg r acc !! i =
  if decide (i ∈ ids cfg) then
    if current_available cfg r i
    then Some (Some (_i16 (get_data r i (addr_present_current cfg) LEN_2)))
    else acc !! i
  else acc !! i.
Proof.
  unfold read_currents. revert acc.
  induction (ids cfg) as [|j l IH]; intros acc; [done|].
  cbn [foldl]. rewrite IH. clear IH.
  destruct (decide (i = j)) as [->|Hne].
  - rewrite (decide_True (P := j ∈ j :: l)) by left.
    destruct (current_available cfg r j) eqn:Hav.
    + rewrite lookup_insert_eq. by destruct (decide (j ∈ l)).
    + by destruct (decide (j ∈ l)).
  - assert (i ∈ j :: l ↔ i ∈ l) as Hiff.
    { rewrite elem_of_cons. split; [by intros [?|?]|by right]. }
    assert ((if current_available cfg r j
             then <[j := Some (_i16 (get_data r j (addr_present_current cfg) LEN_2))]> acc
             else acc) !! i = acc !! i) as ->.
    { destruct (current_available cfg r j); [by rewrite lookup_insert_ne|done]. }
    destruct (decide (i ∈ l)) as [Hl|Hl], (decide (i ∈ j :: l)) as [Hjl|Hjl];
      try done; [by destruct Hjl; apply Hiff|by destruct Hl; apply Hiff].
Qed.

Lemma no_current_outside i : i ∉ ids cfg → no_current cfg !! i = None.
Proof.
  unfold no_current. generalize (∅ : gmap Z (option Z)) (lookup_empty (M:=gmap Z) (A:=option Z) i).
  induction (ids cfg) as [|j l IH]; intros acc Hacc Hi; [done|].
  apply not_elem_of_cons in Hi as [Hne Hi]. simpl. apply IH; [|done].
  by rewrite lookup_insert_ne.
Qed.

Lemma bulk_read_lookup want s pos cur s' :
  bulk_read cfg want s = (Ok (pos, cur), s') →
  let r := reply_after s 0 in
  (∀ i, pos !! i =
        if decide (i ∈ ids cfg)
        then Some (_int32 (get_data r i (addr_present_position cfg) LEN_4))
        else None) ∧
  (∀ i, cur !! i =
        if decide (i ∈ ids cfg)
        then Some (if asks_current want s && current_available cfg r i
                   then Some (_i16 (get_data r i (addr_present_current cfg) LEN_2))
                   else None)
        else None).
Proof.
  intros Hread r. split.
  - intros i. destruct (bulk_read_result cfg _ _ _ _ _ Hread) as (_ & Hp & _).
    fold r in Hp. unfold positions_of in Hp.
    rewrite (dict_from_lookup _ _ _ _ i Hp).
    destruct (decide (i ∈ ids cfg)) as [Hi|Hi]; [|done].
    destruct (dict_from_defined _ _ _ _ i Hp Hi) as (v & Hv & _).
    rewrite Hv. unfold read_position in Hv.
    destruct (is_available r i _ _); [|done]. by injection Hv as <-.
  - intros i. revert Hread. rewrite bulk_read_unfold.
    destruct (negb (comm_ok _)); [done|]. destruct (dict_from _ _ _); [|done].
    unfold store_reading. intros [= _ <- _]. unfold r. rewrite reply_after_0.
    destruct (asks_current want s); simpl.
    + rewrite read_currents_lookup.
      destruct (decide (i ∈ ids cfg)) as [Hi|Hi]; [|by apply no_current_outside].
      destruct (current_available _ _ _); [done|by apply no_current_lookup].
    + destruct (decide (i ∈ ids cfg)) as [Hi|Hi];
        [by apply no_current_lookup|by apply no_current_outside].
Qed.

(** X2. A bulk read that returns gives exactly one position per configured
    axis, the 32-bit two's complement reading of the position field, and one
    current entry per configured axis: the 16-bit reading of the current
    field where the current was asked for and is available, [None]
    otherwise.  So every position is within the signed 32-bit range and every
    present current within the signed 16-bit range. *)
Theorem bulk_read_returns want s pos cur s' :
  bulk_read cfg want s = (Ok (pos, cur), s') →
  let r := reply_after s 0 in
  (∀ i, pos !! i =
        if decide (i ∈ ids cfg)
        then Some (_int32 (get_data r i (addr_present_position cfg) LEN_4))
        else None) ∧
  (∀ i, cur !! i =
        if decide (i ∈ ids cfg)
        then Some (if asks_current want s && current_available cfg r i
                   then Some (_i16 (get_data r i (addr_present_current cfg) LEN_2))
                   else None)
        else None) ∧
  (∀ i v, pos !! i = Some v → i ∈ ids cfg ∧ in_i32 v) ∧
  (∀ i c, cur !! i = Some (Some c) →
          i ∈ ids cfg ∧ in_i16 c ∧ want = true ∧ supports_current s ≠ Some false).
Proof.
  intros Hread r. destruct (bulk_read_lookup want s pos cur s' Hread) as [Hpos Hcur].
  fold r in Hpos, Hcur.
  split; [done|]. split; [done|]. split.
  - intros i v. rewrite Hpos. destruct (decide (i ∈ ids cfg)); [|done].
    intros [= <-]. split; [done|apply int32_range].
  - intros i c. rewrite Hcur. destruct (decide (i ∈ ids cfg)); [|done].
    destruct (asks_current want s) eqn:Hask; simpl; [|done].
    destruct (current_available _ _ _); [|done]. intros [= <-].
    split; [done|]. split; [apply i16_range|].
    unfold asks_current in Hask. apply andb_true_iff in Hask as [-> Hoff].
    split; [done|]. intros Hf. by rewrite bool_decide_eq_true_2 in Hoff.
Qed.


(** ** The goal packet *)

Lemma byte_split u :
  0 ≤ u < 2 ^ 32 →
  le_value (goal_bytes u) = u.
Proof.
  intros Hu. unfold goal_bytes, le_value, DXL_LOBYTE, DXL_HIBYTE, DXL_LOWORD, DXL_HIWORD.
  rewrite u32_unfold, (Z.mod_small u) by done.
  change 0xFFFF with (Z.ones 16). change 0xFF with (Z.ones 8).
  rewrite !Z.land_ones, !Z.shiftr_div_pow2 by lia. cbn [foldr].
  change (2 ^ 16) with 65536. change (2 ^ 8) with 256.
  change (2 ^ 32) with 4294967296 in Hu.
  Z.div_mod_to_equations. lia.
Qed.

(** X4. The four bytes written for a goal are the little-endian bytes of its
    32-bit two's complement encoding: each is a byte (so building the
    [bytearray] cannot fail), together they are worth [_u32 goal], and a
    device decoding them as a signed 32-bit number reads back every goal of
    the signed 32-bit range. *)
Theorem goal_bytes_little_endian g :
  length (goal_bytes g) = 4%nat ∧
  Forall (λ b, 0 ≤ b < 256) (goal_bytes g) ∧
  le_value (goal_bytes g) = _u32 g ∧
  _int32 (le_value (goal_bytes g)) = _int32 g ∧
  (in_i32 g → _int32 (le_value (goal_bytes g)) = g) ∧
  (∀ g', goal_bytes g = goal_bytes g' ↔ g mod 2 ^ 32 = g' mod 2 ^ 32).
Proof.
  assert (∀ x, le_value (goal_bytes x) = _u32 x) as Hle.
  { intros x. assert (goal_bytes x = goal_bytes (_u32 x)) as ->.
    { unfold goal_bytes. rewrite !u32_unfold. by rewrite Z.mod_mod by lia. }
    apply byte_split. rewrite u32_unfold. apply Z.mod_pos_bound. lia. }
  assert (_int32 (_u32 g) = _int32 g) as Hdec.
  { rewrite !int32_unfold, u32_unfold. by rewrite Z.mod_mod by lia. }
  split; [done|]. split.
  { unfold goal_bytes, DXL_LOBYTE, DXL_HIBYTE. change 0xFF with (Z.ones 8).
    rewrite !Z.land_ones by lia.
    repeat (apply Forall_cons; split; [apply Z.mod_pos_bound; lia|]). apply Forall_nil_2. }
  split; [apply Hle|]. split; [by rewrite Hle|]. split.
  { intros Hg. rewrite Hle, Hdec, int32_unfold. unfold in_i32 in Hg.
    assert (g mod 2 ^ 32 = if 0 <=? g then g else g + 2 ^ 32) as ->.
    { destruct (Z.leb_spec 0 g).
      - apply Z.mod_small. lia.
      - symmetry. apply (Z.mod_unique_pos _ _ (-1)); lia. }
    destruct (Z.leb_spec 0 g).
    - destruct (Z.ltb_spec g (2 ^ 31)); lia.
    - destruct (Z.ltb_spec (g + 2 ^ 32) (2 ^ 31)); lia. }
  intros g'. rewrite <- !u32_unfold. split.
  - intros Heq. by rewrite <- !Hle, Heq.
  - intros Heq. unfold goal_bytes. by rewrite Heq.
Qed.

Lemma add_params_spec sr items :
  match add_params sr items with
  | Ok ps =>
      ps = map (λ '(i, g), (i, goal_bytes g)) items ∧
      ∀ i g, (i, g) ∈ items → add_param_ok sr i = true
  | Raise e =>
      ∃ i g, (i, g) ∈ items ∧ add_param_ok sr i = false ∧
             e = RuntimeError (SyncWriteAddParamFailed i)
  end.
Proof.
  induction items as [|[i g] items IH]; cbn [add_params].
  - split; [done|]. intros i g Hin. by apply elem_of_nil in Hin.
  - destruct (add_param_ok sr i) eqn:Hi.
    + destruct (add_params sr items) as [ps|e]; simpl.
      * destruct IH as [-> Hall]. split; [done|].
        intros j h Hin. apply elem_of_cons in Hin as [[= -> ->]|Hin]; [done|by eapply Hall].
      * destruct IH as (j & h & Hin & Hj & ->). exists j, h. split; [by right|done].
    + exists i, g. split; [left|done].
Qed.

(** X5. A synchronised write touches nothing of the object but the bus and
    uses up one SDK answer.  Either the SDK refuses the parameter of an axis
    of the goal, and then the call raises for that axis and no packet has
    gone out; or every axis of the goal was accepted and exactly one packet
    went out, to the goal-position address, carrying each axis of the goal
    once with the bytes of its goal, and the call raises exactly when the
    transmission failed. *)
Theorem sync_write_packet goal_ticks s :
  let sr := sync_tx (bus s) (n_sync (bus s)) in
  let out := sync_write_goal_positions cfg goal_ticks s in
  cmd_ticks out.2 = cmd_ticks s ∧
  last_present_ticks out.2 = last_present_ticks s ∧
  last_present_current out.2 = last_present_current s ∧
  supports_current out.2 = supports_current s ∧
  n_sync (bus out.2) = S (n_sync (bus s)) ∧
  n_bulk (bus out.2) = n_bulk (bus s) ∧
  ((∃ i g, goal_ticks !! i = Some g ∧ add_param_ok sr i = false ∧
           out.1 = Raise (RuntimeError (SyncWriteAddParamFailed i)) ∧
           trace (bus out.2) = trace (bus s)) ∨
   (∃ ps, trace (bus out.2) =
            trace (bus s) ++ [EvSyncWrite (addr_goal_position cfg) 4 ps] ∧
          (∀ i bytes, (i, bytes) ∈ ps ↔
                      ∃ g, goal_ticks !! i = Some g ∧ bytes = goal_bytes g) ∧
          NoDup ps.*1 ∧
          (∀ i, is_Some (goal_ticks !! i) → add_param_ok sr i = true) ∧
          out.1 = if tx_ok sr then Ok tt else Raise (RuntimeError SyncWriteFailed))).
Proof.
  intros sr out. unfold out, sync_write_goal_positions. fold sr.
  pose proof (add_params_spec sr (map_to_list goal_ticks)) as Hspec.
  destruct (add_params sr (map_to_list goal_ticks)) as [ps|e].
  - destruct Hspec as [Hps Hall].
    assert (ps.*1 = (map_to_list goal_ticks).*1) as Hfst.
    { rewrite Hps. clear. induction (map_to_list goal_ticks) as [|[i g] l IH]; [done|].
      cbn [map fmap list_fmap fst]. f_equal. apply IH. }
    assert (∀ i bytes, (i, bytes) ∈ ps ↔
                       ∃ g, goal_ticks !! i = Some g ∧ bytes = goal_bytes g) as Hmem.
    { intros i bytes. rewrite Hps. split.
      - intros Hin. apply list_elem_of_In, in_map_iff in Hin as ([j g] & [= -> <-] & Hin).
        exists g. split; [|done]. by apply elem_of_map_to_list, list_elem_of_In.
      - intros (g & Hg & ->). apply list_elem_of_In, in_map_iff. exists (i, g).
        split; [done|]. by apply list_elem_of_In, elem_of_map_to_list. }
    assert (∀ i, is_Some (goal_ticks !! i) → add_param_ok sr i = true) as Hacc.
    { intros i [g Hg]. apply (Hall i g). by apply elem_of_map_to_list. }
    assert (NoDup ps.*1) as Hnd by (rewrite Hfst; apply NoDup_fst_map_to_list).
    destruct (tx_ok sr); simpl; do 6 (split; [done|]); right; by exists ps.
  - destruct Hspec as (i & g & Hin & Hi & ->). simpl. do 6 (split; [done|]). left.
    exists i, g. split; [by apply elem_of_map_to_list|done].
Qed.

(** ** The unit conversions *)

(** [round] lands within one half of its argument. *)
Lemma Py_round_near x :
  (inject_Z (Py.round x) - (1 # 2) <= x ∧ x <= inject_Z (Py.round x) + (1 # 2))%Q.
Proof.
  unfold Py.round.
  pose proof (Qfloor_le x) as Hlo. pose proof (Qlt_floor x) as Hhi.
  rewrite inject_Z_plus in Hhi. change (inject_Z 1) with 1%Q in Hhi.
  destruct (Qcompare_spec (x - inject_Z (Qfloor x)) (1 # 2)) as [E|E|E].
  - destruct (Z.even (Qfloor x)).
    + split; lra.
    + rewrite inject_Z_plus. change (inject_Z 1) with 1%Q. split; lra.
  - split; lra.
  - rewrite inject_Z_plus. change (inject_Z 1) with 1%Q. split; lra.
Qed.

Lemma Py_round_mono x y : (x <= y)%Q → Py.round x ≤ Py.round y.
Proof.
  intros Hxy. destruct (Z.le_gt_cases (Py.round x) (Py.round y)) as [|Hlt]; [done|].
  destruct (Py_round_near x) as [Hx _]. destruct (Py_round_near y) as [_ Hy].
  assert (inject_Z (Py.round y + 1) <= inject_Z (Py.round x))%Q as Hz
    by (rewrite <- Zle_Qle; lia).
  rewrite inject_Z_plus in Hz. change (inject_Z 1) with 1%Q in Hz.
  assert (x == y)%Q as E by lra.
  rewrite (Py_round_comp _ _ E) in Hlt. lia.
Qed.

Lemma ticks_per_rev_Q : ticks_per_rev cfg ≠ 0 → ¬ (inject_Z (ticks_per_rev cfg) == 0)%Q.
Proof. intros Hne E. apply Hne. by apply (inject_Z_injective _ 0). Qed.

(** X6. Degrees computed from ticks convert back to the same ticks:
    [deg_to_ticks] undoes [ticks_to_deg] on every tick count, whatever the
    non-zero resolution.  [ticks_to_deg] raises exactly when the configured
    resolution is zero, and then with [ZeroDivisionError]. *)
Theorem ticks_deg_round_trip t :
  match ticks_to_deg cfg t with
  | Ok d => ticks_per_rev cfg ≠ 0 ∧ deg_to_ticks cfg d = t
  | Raise e => ticks_per_rev cfg = 0 ∧ e = ZeroDivisionError
  end.
Proof.
  unfold ticks_to_deg. destruct (Z.eqb_spec (ticks_per_rev cfg) 0) as [E|Hne]; [done|].
  split; [done|]. unfold deg_to_ticks.
  rewrite <- (Py_round_Z t) at 2. apply Py_round_comp.
  pose proof (ticks_per_rev_Q Hne). field. done.
Qed.

(** X7. With a positive resolution and in exact arithmetic, [deg_to_ticks]
    is monotone, and converting its result back to degrees lands within half
    a tick, [180 / ticks_per_rev] degrees, of the angle asked for. *)
Theorem deg_to_ticks_nearest :
  0 < ticks_per_rev cfg →
  (∀ d1 d2, (d1 <= d2)%Q → deg_to_ticks cfg d1 ≤ deg_to_ticks cfg d2) ∧
  (∀ d, ∃ d', ticks_to_deg cfg (deg_to_ticks cfg d) = Ok d' ∧
              (Qabs (d' - d) <= 180 / inject_Z (ticks_per_rev cfg))%Q).
Proof.
  intros Hpos.
  assert (0 < inject_Z (ticks_per_rev cfg))%Q as Hq.
  { change 0%Q with (inject_Z 0). by rewrite <- Zlt_Qlt. }
  assert (¬ (inject_Z (ticks_per_rev cfg) == 0)%Q) as Hq0 by (intros E; rewrite E in Hq; lra).
  split.
  - intros d1 d2 Hd. unfold deg_to_ticks. apply Py_round_mono.
    unfold Qdiv. apply Qmult_le_compat_r; [|done].
    apply Qmult_le_compat_r; [done|]. by apply Qlt_le_weak.
  - intros d. rewrite ticks_to_deg_ok by lia. eexists. split; [done|].
    unfold deg_to_ticks. set (y := (d * inject_Z (ticks_per_rev cfg) / 360)%Q).
    destruct (Py_round_near y) as [Hlo Hhi].
    assert (0 < 360 / inject_Z (ticks_per_rev cfg))%Q as Hc.
    { apply Qlt_shift_div_l; [done|]. lra. }
    assert (inject_Z (Py.round y) * 360 / inject_Z (ticks_per_rev cfg) - d ==
            (inject_Z (Py.round y) - y) * (360 / inject_Z (ticks_per_rev cfg)))%Q as ->.
    { unfold y. field. done. }
    rewrite Qabs_Qmult, (Qabs_pos (360 / _)) by by apply Qlt_le_weak.
    assert (180 / inject_Z (ticks_per_rev cfg) ==
            (1 # 2) * (360 / inject_Z (ticks_per_rev cfg)))%Q as -> by (field; done).
    apply Qmult_le_compat_r; [|by apply Qlt_le_weak].
    apply Qabs_Qle_condition. split; lra.
Qed.

(** ** The command state *)

Lemma clamp_i32_range t : in_i32 (clamp_i32 t).
Proof. unfold in_i32, clamp_i32. lia. Qed.

Lemma with_cmd_ticks_same s : with_cmd_ticks (cmd_ticks s) s = s.
Proof. by destruct s. Qed.

Lemma set_targets_abs_deg_pure (targets : list (Z * Q)) s :
  set_targets_abs_deg cfg targets s =
  (Ok tt, with_cmd_ticks (target_cmds cfg targets (cmd_ticks s)) s).
Proof.
  revert s. induction targets as [|[i d] l IH]; intros s.
  - unfold target_cmds. simpl. by rewrite with_cmd_ticks_same.
  - unfold set_targets_abs_deg in *. rewrite for_each_cons.
    unfold set_cmd at 1. rewrite IH. done.
Qed.

Lemma target_cmds_lookup (targets : list (Z * Q)) c :
  (∀ i, i ∉ targets.*1 → target_cmds cfg targets c !! i = c !! i) ∧
  (∀ i, i ∈ targets.*1 → ∃ d, (i, d) ∈ targets ∧
        target_cmds cfg targets c !! i = Some (clamp_i32 (deg_to_ticks cfg d))) ∧
  (NoDup targets.*1 → ∀ i d, (i, d) ∈ targets →
        target_cmds cfg targets c !! i = Some (clamp_i32 (deg_to_ticks cfg d))).
Proof.
  revert c. unfold target_cmds.
  induction targets as [|[j e] l IH]; intros c; cbn [foldl fmap list_fmap fst].
  - split; [done|]. split; intros; by apply elem_of_nil in H || apply elem_of_nil in H0.
  - destruct (IH (<[j := clamp_i32 (deg_to_ticks cfg e)]> c)) as (Hout & Hin & Hnd).
    split; [|split].
    + intros i Hi. apply not_elem_of_cons in Hi as [Hne Hi].
      rewrite (Hout i Hi). by rewrite lookup_insert_ne.
    + intros i Hi. destruct (decide (i ∈ l.*1)) as [Hl|Hl].
      * destruct (Hin i Hl) as (d & Hd & Hv). exists d. split; [by right|done].
      * apply elem_of_cons in Hi as [->|Hi]; [|done].
        exists e. split; [left|]. rewrite (Hout j Hl). apply lookup_insert_eq.
    + intros Hdup i d Hi. apply NoDup_cons in Hdup as [Hj Hdup].
      apply elem_of_cons in Hi as [[= -> ->]|Hi].
      * rewrite (Hout j Hj). apply lookup_insert_eq.
      * by apply Hnd.
Qed.

(** X8. On targets whose angles convert, [set_targets_abs_deg] does not
    raise and touches nothing but the commands.  Every listed axis,
    configured or not, ends with a command within the signed 32-bit range:
    the converted angle where that fits, the nearer end of the range
    otherwise.  Every axis not listed keeps what it had. *)
Theorem set_targets_abs_deg_stores (targets : list (Z * Q)) s :
  Forall (λ t, converts cfg t.2) targets →
  let out := set_targets_abs_deg cfg targets s in
  out.1 = Ok tt ∧
  bus out.2 = bus s ∧
  last_present_ticks out.2 = last_present_ticks s ∧
  last_present_current out.2 = last_present_current s ∧
  supports_current out.2 = supports_current s ∧
  (∀ i, i ∉ targets.*1 → cmd_ticks out.2 !! i = cmd_ticks s !! i) ∧
  (∀ i, i ∈ targets.*1 → ∃ v, cmd_ticks out.2 !! i = Some v ∧ in_i32 v) ∧
  (NoDup targets.*1 → ∀ i d, (i, d) ∈ targets →
     cmd_ticks out.2 !! i =
       Some (if decide (deg_to_ticks cfg d < - 2 ^ 31) then - 2 ^ 31
             else if decide (2 ^ 31 - 1 < deg_to_ticks cfg d) then 2 ^ 31 - 1
             else deg_to_ticks cfg d)).
Proof.
  intros _ out. unfold out. rewrite set_targets_abs_deg_pure. simpl.
  destruct (target_cmds_lookup targets (cmd_ticks s)) as (Hout & Hin & Hnd).
  do 5 (split; [done|]). split; [done|]. split.
  - intros i Hi. destruct (Hin i Hi) as (d & _ & ->). eexists. split; [done|].
    apply clamp_i32_range.
  - intros Hdup i d Hi. rewrite (Hnd Hdup i d Hi). f_equal.
    unfold clamp_i32. repeat case_decide; lia.
Qed.

Lemma nudge_cmds_app (l1 l2 : list (Z * Q)) c :
  nudge_cmds cfg (l1 ++ l2) c =
  match nudge_cmds cfg l1 c with
  | (Ok _, c') => nudge_cmds cfg l2 c'
  | (Raise e, c') => (Raise e, c')
  end.
Proof.
  revert c. induction l1 as [|[i d] l1 IH]; intros c; [done|].
  cbn [app nudge_cmds]. destruct (c !! i); [apply IH|done].
Qed.

Lemma nudge_cmds_keys (l : list (Z * Q)) c j :
  is_Some ((nudge_cmds cfg l c).2 !! j) ↔ is_Some (c !! j).
Proof.
  revert c. induction l as [|[i d] l IH]; intros c; [done|].
  cbn [nudge_cmds]. destruct (c !! i) as [v|] eqn:Hi; [|done].
  rewrite IH. destruct (decide (j = i)) as [->|Hne].
  - rewrite lookup_insert_eq, Hi. split; by eexists.
  - by rewrite lookup_insert_ne.
Qed.

Lemma nudge_cmds_range (l : list (Z * Q)) c :
  (∀ i v, c !! i = Some v → in_i32 v) →
  ∀ i v, (nudge_cmds cfg l c).2 !! i = Some v → in_i32 v.
Proof.
  revert c. induction l as [|[j d] l IH]; intros c Hc; [done|].
  cbn [nudge_cmds]. destruct (c !! j) as [w|] eqn:Hj; [|done].
  apply IH. intros i v. destruct (decide (i = j)) as [->|Hne].
  - rewrite lookup_insert_eq. intros [= <-]. apply clamp_i32_range.
  - rewrite lookup_insert_ne by done. apply Hc.
Qed.

Lemma nudge_cmds_outcome (l : list (Z * Q)) c :
  match (nudge_cmds cfg l c).1 with
  | Ok _ => ∀ k, k ∈ l.*1 → is_Some (c !! k)
  | Raise e =>
      ∃ l1 k d l2, l = l1 ++ (k, d) :: l2 ∧ e = KeyError k ∧ c !! k = None ∧
                   (∀ j, j ∈ l1.*1 → is_Some (c !! j)) ∧
                   nudge_cmds cfg l c = (Raise (KeyError k), (nudge_cmds cfg l1 c).2) ∧
                   (nudge_cmds cfg l1 c).1 = Ok tt
  end.
Proof.
  revert c. induction l as [|[i d] l IH]; intros c.
  - simpl. intros k Hk. by apply elem_of_nil in Hk.
  - cbn [nudge_cmds]. destruct (c !! i) as [v|] eqn:Hi.
    + specialize (IH (<[i := clamp_i32 (v + deg_to_ticks cfg d)]> c)).
      destruct (nudge_cmds cfg l _) as [[[]|e] c'] eqn:Hrun; cbn [fst] in *.
      * intros k Hk. cbn [fmap list_fmap fst] in Hk.
        apply elem_of_cons in Hk as [->|Hk]; [by eexists|].
        specialize (IH k Hk). destruct (decide (k = i)) as [->|Hne]; [by eexists|].
        by rewrite lookup_insert_ne in IH.
      * destruct IH as (l1 & k & e' & l2 & -> & -> & Hk & Hl1 & Heq & Hok).
        exists ((i, d) :: l1), k, e', l2. split; [done|]. split; [done|].
        assert (k ≠ i) as Hne by (intros ->; by rewrite lookup_insert_eq in Hk).
        rewrite lookup_insert_ne in Hk by done. split; [done|]. split.
        { intros j Hj. cbn [fmap list_fmap fst] in Hj.
          apply elem_of_cons in Hj as [->|Hj]; [by eexists|].
          specialize (Hl1 j Hj). destruct (decide (j = i)) as [->|Hji]; [by eexists|].
          by rewrite lookup_insert_ne in Hl1. }
        cbn [nudge_cmds]. rewrite Hi. by injection Heq as <-.
    + simpl. exists [], i, d, l. split; [done|]. do 2 (split; [done|]). split; [|done].
      intros j Hj. by apply elem_of_nil in Hj.
Qed.

(** X9. On deltas whose angles convert, [nudge_rel_deg] touches nothing
    but the commands and fails only with [KeyError], on the first listed
    axis that has no stored command.  When it fails the entries before that
    axis have already been applied and stay applied, the entries after it
    have not.  Whatever the outcome, no axis gains or loses a command, and
    commands within the signed 32-bit range stay within it. *)
Theorem nudge_rel_deg_outcome (deltas : list (Z * Q)) s :
  Forall (λ t, converts cfg t.2) deltas →
  let out := nudge_rel_deg cfg deltas s in
  bus out.2 = bus s ∧
  last_present_ticks out.2 = last_present_ticks s ∧
  last_present_current out.2 = last_present_current s ∧
  supports_current out.2 = supports_current s ∧
  (∀ j, is_Some (cmd_ticks out.2 !! j) ↔ is_Some (cmd_ticks s !! j)) ∧
  (cmd_in_range s → cmd_in_range out.2) ∧
  match out.1 with
  | Ok _ => ∀ k, k ∈ deltas.*1 → is_Some (cmd_ticks s !! k)
  | Raise e =>
      ∃ applied k d skipped,
        deltas = applied ++ (k, d) :: skipped ∧ e = KeyError k ∧
        cmd_ticks s !! k = None ∧
        nudge_rel_deg cfg applied s = (Ok tt, out.2)
  end.
Proof.
  intros _ out. unfold out. rewrite nudge_rel_deg_pure. cbn [fst snd].
  do 4 (split; [done|]). split; [|split].
  - intros j. apply nudge_cmds_keys.
  - unfold cmd_in_range. simpl. apply nudge_cmds_range.
  - pose proof (nudge_cmds_outcome deltas (cmd_ticks s)) as H.
    destruct (nudge_cmds cfg deltas (cmd_ticks s)).1 as [[]|e] eqn:Hrun; [done|].
    destruct H as (l1 & k & d & l2 & -> & -> & Hk & _ & Heq & Hok).
    exists l1, k, d, l2. do 3 (split; [done|]).
    rewrite nudge_rel_deg_pure, Hok, Heq. done.
Qed.

(** ** Soft reset *)

Lemma soft_reset_unfold mode s :
  soft_reset cfg mode s =
  match bulk_read cfg false s with
  | (Ok (pos, _), s1) =>
      match mode with
      | to_present =>
          for_each (λ dxl_id, p ← lift (getitem pos dxl_id); set_cmd dxl_id p) (ids cfg) s1
      | to_nearest_turn =>
          for_each (λ dxl_id,
            p ← lift (getitem pos dxl_id);
            if ticks_per_rev cfg =? 0 then raise ZeroDivisionError
            else set_cmd dxl_id
                   (Py.round (inject_Z p / inject_Z (ticks_per_rev cfg))%Q
                    * ticks_per_rev cfg)) (ids cfg) s1
      | other_mode => (Raise ValueError, s1)
      end
  | (Raise e, s1) => (Raise e, s1)
  end.
Proof.
  unfold soft_reset, mbind, M_bind.
  destruct (bulk_read cfg false s) as [[[pos cur]|e] s1]; [|done]. by destruct mode.
Qed.

(** The two loops of [soft_reset], when nothing in them raises: every axis
    of the list gets [f] of its position. *)
Lemma reset_loop (f : Z → Z) l (pos : gmap Z Z) s :
  (∀ i, i ∈ l → is_Some (pos !! i)) →
  let out := for_each (λ dxl_id, p ← lift (getitem pos dxl_id); set_cmd dxl_id (f p)) l s in
  out.1 = Ok tt ∧ bus out.2 = bus s ∧
  last_present_ticks out.2 = last_present_ticks s ∧
  last_present_current out.2 = last_present_current s ∧
  supports_current out.2 = supports_current s ∧
  (∀ i, i ∉ l → cmd_ticks out.2 !! i = cmd_ticks s !! i) ∧
  (∀ i, i ∈ l → cmd_ticks out.2 !! i = f <$> pos !! i).
Proof.
  revert s. induction l as [|j l IH]; intros s Hpos out; unfold out.
  - simpl. do 6 (split; [done|]). intros i Hi. by apply elem_of_nil in Hi.
  - destruct (Hpos j) as [p Hp]; [left|].
    assert (for_each (λ dxl_id, p ← lift (getitem pos dxl_id); set_cmd dxl_id (f p)) (j :: l) s =
            for_each (λ dxl_id, p ← lift (getitem pos dxl_id); set_cmd dxl_id (f p)) l
              (with_cmd_ticks (<[j := f p]> (cmd_ticks s)) s)) as ->.
    { rewrite for_each_cons. unfold mbind at 1, M_bind at 1, lift at 1, getitem at 1.
      by rewrite Hp. }
    destruct (IH (with_cmd_ticks (<[j := f p]> (cmd_ticks s)) s))
      as (H1 & H2 & H3 & H4 & H5 & Hout & Hin).
    { intros i Hi. apply Hpos. by right. }
    split; [exact H1|]. split; [exact H2|]. split; [exact H3|].
    split; [exact H4|]. split; [exact H5|]. split.
    + intros i Hi. apply not_elem_of_cons in Hi as [Hne Hi].
      rewrite (Hout i Hi). simpl. by rewrite lookup_insert_ne.
    + intros i Hi. destruct (decide (i ∈ l)) as [Hl|Hl]; [by apply Hin|].
      apply elem_of_cons in Hi as [->|Hi]; [|done].
      rewrite (Hout j Hl). simpl. by rewrite lookup_insert_eq, Hp.
Qed.

(** The nearest multiple of the resolution is within half a turn. *)
Lemma nearest_turn p r :
  r ≠ 0 →
  2 * Z.abs (Py.round (inject_Z p / inject_Z r)%Q * r - p) ≤ Z.abs r.
Proof.
  intros Hr. set (y := (inject_Z p / inject_Z r)%Q).
  destruct (Py_round_near y) as [Hlo Hhi]. set (k := Py.round y) in *.
  assert (¬ (inject_Z r == 0)%Q) as Hq0.
  { intros E. apply Hr. by apply (inject_Z_injective _ 0). }
  assert (y * inject_Z r == inject_Z p)%Q as Hy by (unfold y; field; done).
  assert (y * - inject_Z r == - inject_Z p)%Q as Hy' by (unfold y; field; done).
  destruct (Z.lt_trichotomy r 0) as [Hneg|[->|Hpos]]; [|done|].
  - assert (0 <= - inject_Z r)%Q as Hq.
    { rewrite <- inject_Z_opp. change 0%Q with (inject_Z 0). rewrite <- Zle_Qle. lia. }
    pose proof (Qmult_le_compat_r _ _ _ Hlo Hq) as H1.
    pose proof (Qmult_le_compat_r _ _ _ Hhi Hq) as H2.
    rewrite Hy' in H1, H2.
    assert (inject_Z (2 * (k * r - p)) <= inject_Z (- r))%Q as G1.
    { unfold Z.sub. rewrite !inject_Z_mult, !inject_Z_plus, !inject_Z_opp, inject_Z_mult.
      change (inject_Z 2) with 2%Q. lra. }
    assert (inject_Z r <= inject_Z (2 * (k * r - p)))%Q as G2.
    { unfold Z.sub. rewrite !inject_Z_mult, !inject_Z_plus, !inject_Z_opp, inject_Z_mult.
      change (inject_Z 2) with 2%Q. lra. }
    rewrite <- Zle_Qle in G1, G2. lia.
  - assert (0 <= inject_Z r)%Q as Hq.
    { change 0%Q with (inject_Z 0). rewrite <- Zle_Qle. lia. }
    pose proof (Qmult_le_compat_r _ _ _ Hlo Hq) as H1.
    pose proof (Qmult_le_compat_r _ _ _ Hhi Hq) as H2.
    rewrite Hy in H1, H2.
    assert (inject_Z (2 * (k * r - p)) <= inject_Z r)%Q as G1.
    { unfold Z.sub. rewrite !inject_Z_mult, !inject_Z_plus, !inject_Z_opp, inject_Z_mult.
      change (inject_Z 2) with 2%Q. lra. }
    assert (inject_Z (- r) <= inject_Z (2 * (k * r - p)))%Q as G2.
    { unfold Z.sub. rewrite !inject_Z_mult, !inject_Z_plus, !inject_Z_opp, inject_Z_mult.
      change (inject_Z 2) with 2%Q. lra. }
    rewrite <- Zle_Qle in G1, G2. lia.
Qed.

(** X10. [soft_reset] starts with one bulk read for positions only, whatever
    the mode, and a failure of that read is the failure of the reset, the
    commands untouched.  After a good read: [to_present] makes the command
    of every configured axis the position just read; [to_nearest_turn] makes
    it the multiple of the resolution nearest to that position, at most half
    a turn away, without clamping, and raises [ZeroDivisionError] before
    storing anything when the resolution is zero; any other mode raises
    [ValueError], after the read, and stores nothing.  The commands of axes
    outside the configuration are never touched. *)
Theorem soft_reset_outcome mode s :
  let out := soft_reset cfg mode s in
  let r := ticks_per_rev cfg in
  trace (bus out.2) = trace (bus s) ++ [EvBulkRead (position_params cfg)] ∧
  (∀ i, i ∉ ids cfg → cmd_ticks out.2 !! i = cmd_ticks s !! i) ∧
  match bulk_read cfg false s with
  | (Raise e, s1) => out = (Raise e, s1)
  | (Ok (pos, _), s1) =>
      bus out.2 = bus s1 ∧
      last_present_ticks out.2 = last_present_ticks s1 ∧
      last_present_current out.2 = last_present_current s1 ∧
      supports_current out.2 = supports_current s ∧
      match mode with
      | to_present =>
          out.1 = Ok tt ∧
          ∀ i, i ∈ ids cfg → is_Some (pos !! i) ∧ cmd_ticks out.2 !! i = pos !! i
      | to_nearest_turn =>
          if decide (r = 0 ∧ ids cfg ≠ []) then out = (Raise ZeroDivisionError, s1)
          else
            out.1 = Ok tt ∧
            ∀ i, i ∈ ids cfg →
              ∃ p k, pos !! i = Some p ∧ cmd_ticks out.2 !! i = Some (k * r) ∧
                     2 * Z.abs (k * r - p) ≤ Z.abs r
      | other_mode => out = (Raise ValueError, s1)
      end
  end.
Proof.
  intros out r. unfold out. rewrite soft_reset_unfold.
  pose proof (bulk_read_unfold cfg false s) as Hunf. cbv zeta in Hunf.
  unfold asks_current in Hunf. cbn [andb] in Hunf. rewrite bulk_params_off in Hunf.
  destruct (bulk_read cfg false s) as [[[pos cur]|e] s1] eqn:Hread.
  - assert (trace (bus s1) = trace (bus s) ++ [EvBulkRead (position_params cfg)] ∧
            cmd_ticks s1 = cmd_ticks s ∧ supports_current s1 = supports_current s)
      as (Htr & Hcmd & Hsup).
    { destruct (negb (comm_ok _)); [done|]. destruct (dict_from _ _ _); [|done].
      unfold store_reading in Hunf. injection Hunf as _ _ Hs1. by rewrite Hs1. }
    assert (∀ i, i ∈ ids cfg → is_Some (pos !! i)) as Hpos.
    { intros i Hi. destruct (bulk_read_result cfg _ _ _ _ _ Hread) as (_ & Hp & _).
      destruct (dict_from_defined _ _ _ _ i Hp Hi) as (v & _ & Hv). by eexists. }
    destruct mode.
    + destruct (reset_loop (λ p, p) (ids cfg) pos s1 Hpos)
        as (H1 & H2 & H3 & H4 & H5 & Hout & Hin).
      rewrite H2, Htr. split; [done|]. split.
      { intros i Hi. by rewrite (Hout i Hi), Hcmd. }
      do 3 (split; [done|]). split; [by rewrite H5|]. split; [done|].
      intros i Hi. split; [by apply Hpos|]. rewrite (Hin i Hi).
      by destruct (pos !! i).
    + fold r. destruct (Z.eqb_spec r 0) as [Hr|Hr].
      * destruct (ids cfg) as [|j l] eqn:Hids.
        { simpl. rewrite decide_False by (by intros [_ ?]).
          split; [done|]. split; [by rewrite Hcmd|].
          do 3 (split; [done|]). split; [done|]. split; [done|].
          intros i Hi. by apply elem_of_nil in Hi. }
        rewrite decide_True by done. rewrite for_each_cons.
        destruct (Hpos j) as [p Hp]; [left|].
        unfold mbind, M_bind, lift, getitem. rewrite Hp. simpl.
        split; [done|]. split; [by rewrite Hcmd|]. do 3 (split; [done|]). done.
      * rewrite decide_False by (by intros [? _]).
        destruct (reset_loop (λ p, Py.round (inject_Z p / inject_Z r) * r) (ids cfg) pos s1 Hpos)
          as (H1 & H2 & H3 & H4 & H5 & Hout & Hin).
        rewrite H2, Htr. split; [done|]. split.
        { intros i Hi. by rewrite (Hout i Hi), Hcmd. }
        do 3 (split; [done|]). split; [by rewrite H5|]. split; [done|].
        intros i Hi. destruct (Hpos i Hi) as [p Hp].
        exists p, (Py.round (inject_Z p / inject_Z r)). split; [done|].
        rewrite (Hin i Hi), Hp. split; [done|]. by apply nearest_turn.
    + simpl. split; [done|]. split; [by rewrite Hcmd|]. do 3 (split; [done|]). done.
  - simpl. assert (trace (bus s1) = trace (bus s) ++ [EvBulkRead (position_params cfg)] ∧
                   cmd_ticks s1 = cmd_ticks s) as (Htr & Hcmd).
    { destruct (negb (comm_ok _)); [injection Hunf as _ Hs1; by rewrite Hs1|].
      destruct (dict_from _ _ _); [done|]. injection Hunf as _ Hs1. by rewrite Hs1. }
    split; [done|]. split; [by rewrite Hcmd|done].
Qed.

(** ** What the executor can raise *)

Lemma bulk_read_raises want s e s' :
  bulk_read cfg want s = (Raise e, s') → bus_error e.
Proof.
  rewrite bulk_read_unfold. destruct (negb (comm_ok _)).
  - intros [= <- _]. by eexists.
  - destruct (dict_from _ _ _) as [pos|e'] eqn:Hpos; [done|]. intros [= -> _].
    destruct (dict_from_raise _ _ _ _ Hpos) as (i & _ & Hraise).
    unfold read_position in Hraise. destruct (is_available _ _ _ _); [done|].
    injection Hraise as <-. by eexists.
Qed.

Lemma sync_write_raises goal_ticks s e s' :
  sync_write_goal_positions cfg goal_ticks s = (Raise e, s') → bus_error e.
Proof.
  unfold sync_write_goal_positions.
  pose proof (add_params_spec (sync_tx (bus s) (n_sync (bus s))) (map_to_list goal_ticks)) as H.
  destruct (add_params _ _) as [ps|e'].
  - destruct (tx_ok _); [done|]. intros [= <- _]. by eexists.
  - destruct H as (i & g & _ & _ & ->). intros [= <- _]. by eexists.
Qed.

Lemma pace_never_raises a t0 k clk s e clk' s' : pace a t0 k clk s ≠ (Raise e, clk', s').
Proof.
  unfold pace. destruct clk as [|t clk]; simpl; [done|].
  destruct t0; [|done]. by destruct (Py.ltb _ _).
Qed.

Lemma stream_step_raises a sp g t0 k clk s e clk' s' :
  (∀ i, i ∈ ids cfg → is_Some (sp !! i)) →
  (∀ i, i ∈ ids cfg → is_Some (g !! i)) →
  stream_step cfg a sp g t0 k clk s = (Raise e, clk', s') → bus_error e.
Proof.
  intros Hsp Hg. unfold stream_step.
  destruct (mid_ticks_ok cfg a sp g (exec_steps a) k Hsp Hg) as [mid ->].
  destruct (sync_write_goal_positions cfg mid s) as [[[]|e1] s1] eqn:Hw.
  2:{ intros [= <- _ _]. by eapply sync_write_raises. }
  assert (∀ s2, pace a t0 k clk s2 = (Raise e, clk', s') → bus_error e) as Hpace.
  { intros s2 H. by apply pace_never_raises in H. }
  destruct (current_guard a) as [[mn mx]|]; [|apply Hpace].
  destruct (guard_step a k); [|apply Hpace].
  destruct (bulk_read cfg true s1) as [[[pos cur]|e2] s2] eqn:Hr.
  2:{ intros [= <- _ _]. by eapply bulk_read_raises. }
  destruct (bad_axes_total cur mn mx (ids cfg)) as [bad ->].
  { intros i Hi. by apply (bulk_read_covers cfg _ _ _ _ _ i Hr). }
  destruct bad; [apply Hpace|done].
Qed.

Lemma stream_loop_raises a sp g t0 ks clk s e clk' s' :
  (∀ i, i ∈ ids cfg → is_Some (sp !! i)) →
  (∀ i, i ∈ ids cfg → is_Some (g !! i)) →
  stream_loop cfg a sp g t0 ks clk s = (Raise e, clk', s') → bus_error e.
Proof.
  intros Hsp Hg. revert clk s.
  induction ks as [|k ks IH]; intros clk s; cbn [stream_loop]; [done|].
  destruct (stream_step cfg a sp g t0 k clk s) as [[[b|e1] clk1] s1] eqn:Hstep.
  - destruct b; [done|apply IH].
  - intros [= <- _ _]. apply (stream_step_raises a sp g t0 k clk s _ _ _ Hsp Hg Hstep).
Qed.

Lemma max_abs_error_raises g pos e :
  (∀ i, i ∈ ids cfg → is_Some (g !! i)) →
  (∀ i, i ∈ ids cfg → is_Some (pos !! i)) →
  max_abs_error cfg g pos = Raise e → e = ValueError ∧ ids cfg = [].
Proof.
  intros Hg Hpos. destruct (decide (ids cfg = [])) as [Hids|Hids].
  - unfold max_abs_error. rewrite Hids. simpl. by intros [= <-].
  - by destruct (max_abs_error_ok cfg g pos Hids Hg Hpos) as [v ->].
Qed.

Lemma ticks_to_deg_raises t e :
  ticks_to_deg cfg t = Raise e → e = ZeroDivisionError ∧ ticks_per_rev cfg = 0.
Proof.
  unfold ticks_to_deg. destruct (Z.eqb_spec (ticks_per_rev cfg) 0); [|done].
  by intros [= <-].
Qed.

Lemma timed_out_raises a sp sc g lme s e s' :
  timed_out cfg a sp sc g lme s = (Raise e, s') → exec_error cfg e.
Proof.
  unfold timed_out.
  assert (∀ m : M unit,
    (∀ s0, m s0 = (Ok tt, s0) ∨ ∃ e0, m s0 = (Raise e0, s0) ∧ exec_error cfg e0) →
    (m ≫= λ _, '(pos, cur) ← bulk_read cfg true;
       deg ← lift match lme with
                  | Some e => d ← ticks_to_deg cfg e; Ok (Some d)
                  | None => Ok None
                  end;
       mret {| settled := false; start_pos := sp; start_current := sc; goal := g;
               final_pos := pos; final_current := cur;
               max_err_ticks := lme; max_err_deg := deg |}) s = (Raise e, s') →
    exec_error cfg e) as Hgen.
  { intros m Hm. unfold mbind at 1, M_bind at 1.
    destruct (Hm s) as [->|(e0 & -> & He0)]; [|by intros [= <- _]].
    unfold mbind at 1, M_bind at 1.
    destruct (bulk_read cfg true s) as [[[pos cur]|e1] s1] eqn:Hr.
    2:{ intros [= <- _]. left. by eapply bulk_read_raises. }
    unfold mbind, M_bind, lift, mret, M_ret.
    destruct lme as [v|]; simpl; [|done].
    destruct (ticks_to_deg cfg v) as [d|e2] eqn:Hd; simpl; [done|].
    intros [= <- _]. right. right. by apply (ticks_to_deg_raises v). }
  apply Hgen. intros s0. destruct (log a); [|by left].
  unfold mbind, M_bind, lift, mret, M_ret.
  destruct (ticks_to_deg cfg _) as [d|e0] eqn:Hd; [by left|right].
  exists e0. split; [done|]. right. right. by eapply ticks_to_deg_raises.
Qed.

Lemma settle_loop_raises a sp sc g deadline clk streak lme s e s' :
  (∀ i, i ∈ ids cfg → is_Some (g !! i)) →
  settle_loop cfg a sp sc g deadline clk streak lme s = (Raise e, s') → exec_error cfg e.
Proof.
  intros Hg. revert streak lme s.
  induction clk as [|t clk IH]; intros streak lme s; cbn [settle_loop];
    [apply timed_out_raises|].
  destruct (negb (before (Some t) deadline)); [apply timed_out_raises|].
  destruct (bulk_read cfg true s) as [[[pos cur]|e1] s1] eqn:Hr.
  2:{ intros [= <- _]. left. by eapply bulk_read_raises. }
  destruct (max_abs_error cfg g pos) as [v|e2] eqn:Herr.
  2:{ intros [= <- _]. right. left. apply (max_abs_error_raises g pos); [done| |done].
      intros i Hi. by apply (bulk_read_covers cfg _ _ _ _ _ i Hr). }
  destruct (v <=? exec_eps_ticks cfg a); [|apply IH].
  destruct (streak + 1 >=? settle_n a); [|apply IH].
  destruct (ticks_to_deg cfg v) as [d|e3] eqn:Hd; [done|].
  intros [= <- _]. right. right. by eapply ticks_to_deg_raises.
Qed.

Lemma execute_time_synced_errors a clk s e s' :
  commanded cfg s →
  execute_time_synced cfg a clk s = (Raise e, s') → exec_error cfg e.
Proof.
  intros Hcmd. unfold execute_time_synced.
  destruct (bulk_read cfg true s) as [[[sp sc]|e1] s1] eqn:Hr.
  2:{ intros [= <- _]. left. by eapply bulk_read_raises. }
  destruct (dict_from_ok (getitem (cmd_ticks s1)) (ids cfg) ∅) as [g Hgoal].
  { intros i Hi. unfold getitem.
    pose proof (bulk_read_cmd_ticks cfg true s) as Hc. rewrite Hr in Hc. simpl in Hc.
    rewrite Hc. destruct (Hcmd i Hi) as [v ->]. by eexists. }
  rewrite Hgoal.
  assert (∀ i, i ∈ ids cfg → is_Some (g !! i)) as Hg.
  { intros i Hi. destruct (dict_from_defined _ _ _ _ i Hgoal Hi) as (v & _ & Hv).
    by eexists. }
  destruct (time_time clk) as [t0 clk1].
  destruct (stream_loop cfg a sp g t0 _ clk1 s1) as [[[b|e2] clk2] s2] eqn:Hloop.
  - unfold settle_phase. destruct (time_time clk2) as [now clk3].
    by apply settle_loop_raises.
  - intros [= <- _]. left.
    assert (∀ i, i ∈ ids cfg → is_Some (sp !! i)) as Hsp.
    { intros i Hi. by apply (bulk_read_covers cfg _ _ _ _ _ i Hr). }
    apply (stream_loop_raises _ _ _ _ _ _ _ _ _ _ Hsp Hg Hloop).
Qed.


(** ** Invariants of the command state over a session *)

Lemma foldl_insert_lookup {V} (v : V) (l : list Z) (acc : gmap Z V) i :
  foldl (λ d j, <[j := v]> d) acc l !! i = if decide (i ∈ l) then Some v else acc !! i.
Proof.
  revert acc. induction l as [|j l IH]; intros acc; [done|].
  cbn [foldl]. rewrite IH. destruct (decide (i = j)) as [->|Hne].
  - rewrite lookup_insert_eq, (decide_True (P := j ∈ j :: l)) by left.
    by destruct (decide (j ∈ l)).
  - rewrite lookup_insert_ne by done.
    destruct (decide (i ∈ l)) as [Hl|Hl].
    + rewrite decide_True; [done|by right].
    + rewrite decide_False; [done|]. intros Hin.
      apply elem_of_cons in Hin as [?|?]; done.
Qed.

Lemma commanded_set_cmd i t : preserves (commanded cfg) (set_cmd i t).
Proof.
  intros s Hs j Hj. simpl. destruct (decide (j = i)) as [->|Hne].
  - rewrite lookup_insert_eq. by eexists.
  - rewrite lookup_insert_ne by done. by apply Hs.
Qed.

Lemma in_range_set_cmd i t : in_i32 t → preserves cmd_in_range (set_cmd i t).
Proof.
  intros Ht s Hs j v. simpl. destruct (decide (j = i)) as [->|Hne].
  - rewrite lookup_insert_eq. by intros [= <-].
  - rewrite lookup_insert_ne by done. apply Hs.
Qed.

Lemma bulk_read_positions_range want s pos cur s' i v :
  bulk_read cfg want s = (Ok (pos, cur), s') → pos !! i = Some v → in_i32 v.
Proof.
  intros Hread. destruct (bulk_read_result cfg _ _ _ _ _ Hread) as (_ & Hp & _).
  unfold positions_of in Hp. rewrite (dict_from_lookup _ _ _ _ i Hp).
  destruct (decide (i ∈ ids cfg)) as [Hi|Hi]; [|done].
  destruct (dict_from_defined _ _ _ _ i Hp Hi) as (w & Hw & _).
  rewrite Hw. unfold read_position in Hw.
  destruct (is_available _ i _ _); [|done]. injection Hw as <-. intros [= <-].
  apply int32_range.
Qed.

Lemma after_call_commanded c s : commanded cfg s → commanded cfg (after_call cfg c s).
Proof.
  assert (∀ b s0, commanded cfg s0 → commanded cfg (with_bus b s0)) as Hwb by done.
  assert (∀ r want pos s0, commanded cfg s0 →
            commanded cfg (store_reading cfg r want pos s0).2) as Hsr by done.
  destruct c as [ids_arg|mode|l|l|want|g|a clk]; cbn [after_call].
  - by apply blind_ensure_extended_mode.
  - revert s. change (preserves (commanded cfg) (soft_reset cfg mode)).
    unfold soft_reset. apply preserves_bind; [by apply blind_bulk_read|].
    intros [pos cur]. destruct mode.
    + apply preserves_for_each. intros i. apply preserves_bind; [apply preserves_lift|].
      intros p. apply commanded_set_cmd.
    + apply preserves_for_each. intros i. apply preserves_bind; [apply preserves_lift|].
      intros p. destruct (_ =? _); [apply preserves_raise|apply commanded_set_cmd].
    + apply preserves_raise.
  - revert s. change (preserves (commanded cfg) (set_targets_abs_deg cfg l)).
    apply preserves_for_each. intros [i d]. apply commanded_set_cmd.
  - revert s. change (preserves (commanded cfg) (nudge_rel_deg cfg l)).
    apply preserves_for_each. intros [i d].
    apply preserves_bind; [apply preserves_get_state|]. intros s0.
    apply preserves_bind; [apply preserves_lift|]. intros v. apply commanded_set_cmd.
  - by apply blind_bulk_read.
  - by apply blind_sync_write.
  - by apply blind_execute_time_synced.
Qed.

Lemma after_call_in_range c s :
  c ≠ CallSoftReset to_nearest_turn →
  cmd_in_range s → cmd_in_range (after_call cfg c s).
Proof.
  assert (∀ b s0, cmd_in_range s0 → cmd_in_range (with_bus b s0)) as Hwb by done.
  assert (∀ r want pos s0, cmd_in_range s0 →
            cmd_in_range (store_reading cfg r want pos s0).2) as Hsr by done.
  intros Hc. destruct c as [ids_arg|mode|l|l|want|g|a clk]; cbn [after_call].
  - by apply blind_ensure_extended_mode.
  - intros Hs. rewrite soft_reset_unfold.
    pose proof (bulk_read_cmd_ticks cfg false s) as Hcmd.
    destruct (bulk_read cfg false s) as [[[pos cur]|e] s1] eqn:Hread; simpl in Hcmd.
    2:{ intros i v. simpl. rewrite Hcmd. apply Hs. }
    destruct mode; [|done|].
    + destruct (reset_loop (λ p, p) (ids cfg) pos s1) as (_ & _ & _ & _ & _ & Hout & Hin).
      { intros i Hi. by apply (bulk_read_covers cfg _ _ _ _ _ i Hread). }
      intros i v. destruct (decide (i ∈ ids cfg)) as [Hi|Hi].
      * rewrite (Hin i Hi). destruct (pos !! i) as [p|] eqn:Hp; [|done].
        intros [= <-]. by apply (bulk_read_positions_range _ _ _ _ _ i p Hread).
      * rewrite (Hout i Hi), Hcmd. apply Hs.
    + intros i v. simpl. rewrite Hcmd. apply Hs.
  - revert s. change (preserves cmd_in_range (set_targets_abs_deg cfg l)).
    apply preserves_for_each. intros [i d]. apply in_range_set_cmd, clamp_i32_range.
  - revert s. change (preserves cmd_in_range (nudge_rel_deg cfg l)).
    apply preserves_for_each. intros [i d].
    apply preserves_bind; [apply preserves_get_state|]. intros s0.
    apply preserves_bind; [apply preserves_lift|]. intros v.
    apply in_range_set_cmd, clamp_i32_range.
  - by apply blind_bulk_read.
  - by apply blind_sync_write.
  - by apply blind_execute_time_synced.
Qed.

Lemma after_calls_commanded cs s :
  commanded cfg s → commanded cfg (after_calls cfg cs s).
Proof.
  revert s. induction cs as [|c cs IH]; intros s Hs; [done|].
  apply IH. by apply after_call_commanded.
Qed.

Lemma after_calls_in_range cs s :
  Forall (λ c, c ≠ CallSoftReset to_nearest_turn) cs →
  cmd_in_range s → cmd_in_range (after_calls cfg cs s).
Proof.
  revert s. induction cs as [|c cs IH]; intros s Hall Hs; [done|].
  apply Forall_cons in Hall as [Hc Hall].
  apply IH; [done|]. by apply after_call_in_range.
Qed.

(** X12. A freshly constructed object holds the command 0 for every
    configured axis, and no operation of the class ever removes a command:
    after any sequence of calls, failed ones included, every configured axis
    still has one, so a later [execute_time_synced] never raises [KeyError]
    for a missing command.  Every stored command also stays within the
    signed 32-bit range, as long as the session does not use the
    [to_nearest_turn] reset, the one writer that does not clamp. *)
Theorem session_keeps_commands b cs :
  let s := after_calls cfg cs (new_servo cfg b) in
  (∀ i, i ∈ ids cfg → cmd_ticks (new_servo cfg b) !! i = Some 0) ∧
  commanded cfg s ∧
  (∀ a clk e s' k, execute_time_synced cfg a clk s = (Raise e, s') → e ≠ KeyError k) ∧
  (Forall (λ c, c ≠ CallSoftReset to_nearest_turn) cs → cmd_in_range s).
Proof.
  intros s.
  assert (∀ i, cmd_ticks (new_servo cfg b) !! i =
               if decide (i ∈ ids cfg) then Some 0 else None) as Hnew.
  { intros i. unfold new_servo. cbn [cmd_ticks]. by rewrite foldl_insert_lookup. }
  assert (commanded cfg s) as Hcmd.
  { apply after_calls_commanded. intros i Hi. rewrite Hnew, decide_True by done.
    by eexists. }
  split; [|split; [done|split]].
  - intros i Hi. by rewrite Hnew, decide_True.
  - intros a clk e s' k Hrun ->.
    destruct (execute_time_synced_errors a clk s _ s' Hcmd Hrun) as [[why ?]|[[? _]|[? _]]];
      done.
  - intros Hall. apply after_calls_in_range; [done|].
    intros i v. rewrite Hnew. destruct (decide (i ∈ ids cfg)); [|done].
    intros [= <-]. unfold in_i32. lia.
Qed.

(** ** The streamed waypoints *)

Lemma shape_unit smooth a : (0 <= a <= 1)%Q → (0 <= shape smooth a <= 1)%Q.
Proof.
  intros [H0 H1]. unfold shape. destruct smooth; simpl; [|done].
  assert (0 <= a * a * (3 - 2 * a))%Q as G1.
  { apply Qmult_le_0_compat; [by apply Qmult_le_0_compat|lra]. }
  assert (0 <= (1 - a) * (1 - a) * (1 + 2 * a))%Q as G2.
  { apply Qmult_le_0_compat; [apply Qmult_le_0_compat; lra|lra]. }
  split; [done|]. lra.
Qed.

Lemma shape_mono smooth a b :
  (0 <= a)%Q → (a <= b)%Q → (b <= 1)%Q → (shape smooth a <= shape smooth b)%Q.
Proof.
  intros H0 Hab H1. unfold shape. destruct smooth; simpl; [|done].
  assert (0 <= a * (1 - a))%Q as G1 by (apply Qmult_le_0_compat; lra).
  assert (0 <= b * (1 - b))%Q as G2 by (apply Qmult_le_0_compat; lra).
  assert (0 <= (b - a) * (b - a))%Q as G3 by (apply Qmult_le_0_compat; lra).
  assert (0 <= (b - a) * (3 * (a + b) - 2 * (a * a + a * b + b * b)))%Q as H.
  { apply Qmult_le_0_compat; lra. }
  lra.
Qed.

Lemma Py_round_between lo hi x :
  (inject_Z lo <= x)%Q → (x <= inject_Z hi)%Q → lo ≤ Py.round x ≤ hi.
Proof.
  intros Hlo Hhi. split.
  - rewrite <- (Py_round_Z lo). by apply Py_round_mono.
  - rewrite <- (Py_round_Z hi). by apply Py_round_mono.
Qed.

Lemma waypoint_between p g sa :
  (0 <= sa <= 1)%Q → Z.min p g ≤ waypoint p g sa ≤ Z.max p g.
Proof.
  intros [H0 H1]. unfold waypoint.
  assert (inject_Z (g - p) == inject_Z g - inject_Z p)%Q as E.
  { unfold Z.sub. rewrite inject_Z_plus, inject_Z_opp. ring. }
  destruct (Z.le_ge_cases p g) as [Hpg|Hpg].
  - rewrite Z.min_l, Z.max_r by done.
    assert (inject_Z p <= inject_Z g)%Q as Hq by by rewrite <- Zle_Qle.
    assert (0 <= (inject_Z g - inject_Z p) * sa)%Q as G1
      by (apply Qmult_le_0_compat; lra).
    assert (0 <= (inject_Z g - inject_Z p) * (1 - sa))%Q as G2
      by (apply Qmult_le_0_compat; lra).
    apply Py_round_between; rewrite E; lra.
  - rewrite Z.min_r, Z.max_l by done.
    assert (inject_Z g <= inject_Z p)%Q as Hq by by rewrite <- Zle_Qle.
    assert (0 <= (inject_Z p - inject_Z g) * sa)%Q as G1
      by (apply Qmult_le_0_compat; lra).
    assert (0 <= (inject_Z p - inject_Z g) * (1 - sa))%Q as G2
      by (apply Qmult_le_0_compat; lra).
    apply Py_round_between; rewrite E; lra.
Qed.

Lemma waypoint_mono p g sa sb :
  (sa <= sb)%Q →
  (p ≤ g → waypoint p g sa ≤ waypoint p g sb) ∧
  (g ≤ p → waypoint p g sb ≤ waypoint p g sa).
Proof.
  intros Hab. unfold waypoint.
  assert (inject_Z (g - p) == inject_Z g - inject_Z p)%Q as E.
  { unfold Z.sub. rewrite inject_Z_plus, inject_Z_opp. ring. }
  split; intros Hpg; apply Py_round_mono; rewrite E.
  - assert (inject_Z p <= inject_Z g)%Q as Hq by by rewrite <- Zle_Qle.
    assert (0 <= (inject_Z g - inject_Z p) * (sb - sa))%Q as G1
      by (apply Qmult_le_0_compat; lra).
    lra.
  - assert (inject_Z g <= inject_Z p)%Q as Hq by by rewrite <- Zle_Qle.
    assert (0 <= (inject_Z p - inject_Z g) * (sb - sa))%Q as G1
      by (apply Qmult_le_0_compat; lra).
    lra.
Qed.

Lemma alpha_unit k steps :
  1 ≤ k ≤ steps → (0 <= inject_Z k / inject_Z steps <= 1)%Q.
Proof.
  intros Hk. assert (0 < inject_Z steps)%Q as Hs.
  { change 0%Q with (inject_Z 0). rewrite <- Zlt_Qlt. lia. }
  assert (0 <= inject_Z k)%Q as Hk0.
  { change 0%Q with (inject_Z 0). rewrite <- Zle_Qle. lia. }
  assert (inject_Z k <= inject_Z steps)%Q as Hks by (rewrite <- Zle_Qle; lia).
  split.
  - apply Qle_shift_div_l; [done|]. lra.
  - apply Qle_shift_div_r; [done|]. lra.
Qed.

Lemma alpha_mono k k' steps :
  1 ≤ steps → k ≤ k' → (inject_Z k / inject_Z steps <= inject_Z k' / inject_Z steps)%Q.
Proof.
  intros Hs Hk. unfold Qdiv. apply Qmult_le_compat_r; [by rewrite <- Zle_Qle|].
  apply Qinv_le_0_compat. change 0%Q with (inject_Z 0). rewrite <- Zle_Qle. lia.
Qed.

Lemma mid_ticks_lookup a sp g steps k mid i m :
  mid_ticks cfg a sp g steps k = Ok mid → mid !! i = Some m →
  ∃ p gi, i ∈ ids cfg ∧ sp !! i = Some p ∧ g !! i = Some gi ∧
          m = waypoint p gi (shape (smoothstep a) (inject_Z k / inject_Z steps)).
Proof.
  unfold mid_ticks. intros Hmid. rewrite (dict_from_lookup _ _ _ _ i Hmid).
  destruct (decide (i ∈ ids cfg)) as [Hi|Hi]; [|done].
  destruct (dict_from_defined _ _ _ _ i Hmid Hi) as (w & Hw & _). rewrite Hw.
  intros [= ->]. unfold getitem in Hw.
  destruct (sp !! i) as [p|]; [|done]. destruct (g !! i) as [gi|]; [|done].
  simpl in Hw. injection Hw as <-. by exists p, gi.
Qed.

(** X13. Every waypoint of the streaming loop lies between the start
    position of its axis and the goal, both included, and the waypoints of
    an axis move towards the goal from one step to a later one, never back:
    in exact arithmetic, linear or smoothstep. *)
Theorem waypoints_between a sp g k k' mid mid' i m m' :
  1 ≤ k → k ≤ k' → k' ≤ exec_steps a →
  mid_ticks cfg a sp g (exec_steps a) k = Ok mid →
  mid_ticks cfg a sp g (exec_steps a) k' = Ok mid' →
  mid !! i = Some m → mid' !! i = Some m' →
  ∃ p gi, i ∈ ids cfg ∧ sp !! i = Some p ∧ g !! i = Some gi ∧
          Z.min p gi ≤ m ≤ Z.max p gi ∧
          Z.min p gi ≤ m' ≤ Z.max p gi ∧
          (p ≤ gi → m ≤ m') ∧ (gi ≤ p → m' ≤ m).
Proof.
  intros Hk Hkk Hk' Hmid Hmid' Hm Hm'.
  destruct (mid_ticks_lookup _ _ _ _ _ _ _ _ Hmid Hm) as (p & gi & Hi & Hp & Hg & ->).
  destruct (mid_ticks_lookup _ _ _ _ _ _ _ _ Hmid' Hm') as (p' & gi' & _ & Hp' & Hg' & ->).
  rewrite Hp in Hp'. rewrite Hg in Hg'. injection Hp' as <-. injection Hg' as <-.
  exists p, gi. do 3 (split; [done|]).
  pose proof (alpha_unit k (exec_steps a) ltac:(lia)) as Ha.
  pose proof (alpha_unit k' (exec_steps a) ltac:(lia)) as Ha'.
  pose proof (alpha_mono k k' (exec_steps a) ltac:(lia) Hkk) as Hmono.
  split; [by apply waypoint_between, shape_unit|].
  split; [by apply waypoint_between, shape_unit|].
  apply waypoint_mono, shape_mono; [apply Ha|done|apply Ha'].
Qed.

(** ** What the executor puts on the bus *)

Lemma extends_ok_refl sp g s : extends_ok cfg sp g s s.
Proof. exists []. by rewrite app_nil_r. Qed.

Lemma extends_ok_same sp g s0 s s' :
  trace (bus s') = trace (bus s) →
  extends_ok cfg sp g s0 s → extends_ok cfg sp g s0 s'.
Proof. intros Heq (new & Htr & Hall). exists new. by rewrite Heq. Qed.

Lemma extends_ok_snoc sp g s0 s s' ev :
  trace (bus s') = trace (bus s) ++ [ev] → event_ok cfg sp g ev →
  extends_ok cfg sp g s0 s → extends_ok cfg sp g s0 s'.
Proof.
  intros Heq Hev (new & Htr & Hall). exists (new ++ [ev]). split.
  - by rewrite Heq, Htr, app_assoc.
  - apply Forall_app. split; [done|]. by apply Forall_singleton.
Qed.

Lemma extends_ok_bulk_read sp g s0 want :
  preserves (extends_ok cfg sp g s0) (bulk_read cfg want).
Proof.
  apply preserves_bulk_read.
  - intros params s Hs. by apply (extends_ok_snoc sp g s0 s _ (EvBulkRead params)).
  - intros r w pos s Hs. by apply (extends_ok_same sp g s0 s).
Qed.

Lemma extends_ok_timed_out sp g s0 a sp' sc g' lme :
  preserves (extends_ok cfg sp g s0) (timed_out cfg a sp' sc g' lme).
Proof.
  apply preserves_timed_out.
  - intros params s Hs. by apply (extends_ok_snoc sp g s0 s _ (EvBulkRead params)).
  - intros r w pos s Hs. by apply (extends_ok_same sp g s0 s).
Qed.

Lemma extends_ok_pace sp g s0 a t0 k clk s :
  extends_ok cfg sp g s0 s → extends_ok cfg sp g s0 (pace a t0 k clk s).2.
Proof.
  intros Hs. unfold pace. destruct clk as [|t clk]; simpl; [done|].
  destruct t0 as [t0|]; [|done].
  destruct (Py.ltb 0 _) eqn:Hlt; [|done]. cbn [snd].
  apply (extends_ok_snoc sp g s0 s _ (EvSleep (inject_Z k * exec_dt a - (t - t0))));
    [done| |done].
  simpl. unfold Py.ltb in Hlt. apply negb_true_iff in Hlt.
  apply Qnot_le_lt. intros Hle. apply Qle_bool_iff in Hle. by rewrite Hle in Hlt.
Qed.

Lemma extends_ok_sync_write sp g s0 mid s :
  (∀ i m, mid !! i = Some m →
     ∃ p gi, i ∈ ids cfg ∧ sp !! i = Some p ∧ g !! i = Some gi ∧
             Z.min p gi ≤ m ≤ Z.max p gi) →
  extends_ok cfg sp g s0 s →
  extends_ok cfg sp g s0 (sync_write_goal_positions cfg mid s).2.
Proof.
  intros Hmid Hs. unfold sync_write_goal_positions.
  pose proof (add_params_spec (sync_tx (bus s) (n_sync (bus s))) (map_to_list mid)) as Hspec.
  destruct (add_params _ _) as [ps|e]; [|by apply (extends_ok_same sp g s0 s)].
  destruct Hspec as [Hps _].
  assert (extends_ok cfg sp g s0
            (with_bus {| bulk_rx := bulk_rx (bus s); n_bulk := n_bulk (bus s);
                         sync_tx := sync_tx (bus s); n_sync := S (n_sync (bus s));
                         trace := trace (bus s) ++
                                  [EvSyncWrite (addr_goal_position cfg) LEN_4 ps] |} s)) as H.
  { apply (extends_ok_snoc sp g s0 s _ (EvSyncWrite (addr_goal_position cfg) LEN_4 ps));
      [done| |done].
    split; [done|]. split; [done|]. intros i bytes Hin. rewrite Hps in Hin.
    apply list_elem_of_In, in_map_iff in Hin as ([j m] & [= -> <-] & Hin).
    apply list_elem_of_In, elem_of_map_to_list in Hin.
    destruct (Hmid i m Hin) as (p & gi & Hi & Hp & Hg & Hbetween).
    by exists p, gi, m. }
  by destruct (tx_ok _).
Qed.

Lemma extends_ok_stream_step sp g s0 a t0 k clk s :
  1 ≤ k ≤ exec_steps a →
  extends_ok cfg sp g s0 s →
  extends_ok cfg sp g s0 (stream_step cfg a sp g t0 k clk s).2.
Proof.
  intros Hk Hs. unfold stream_step.
  destruct (mid_ticks cfg a sp g (exec_steps a) k) as [mid|e] eqn:Hmid; [|done].
  assert (extends_ok cfg sp g s0 (sync_write_goal_positions cfg mid s).2) as Hw.
  { apply extends_ok_sync_write; [|done]. intros i m Hm.
    destruct (mid_ticks_lookup _ _ _ _ _ _ _ _ Hmid Hm) as (p & gi & Hi & Hp & Hg & ->).
    exists p, gi. do 3 (split; [done|]).
    apply waypoint_between, shape_unit, alpha_unit. lia. }
  destruct (sync_write_goal_positions cfg mid s) as [[[]|e] s1]; simpl in Hw; [|done].
  destruct (current_guard a) as [[mn mx]|]; [|by apply extends_ok_pace].
  destruct (guard_step a k); [|by apply extends_ok_pace].
  pose proof (extends_ok_bulk_read sp g s0 true s1 Hw) as Hr.
  destruct (bulk_read cfg true s1) as [[[pos cur]|e] s2]; simpl in Hr; [|done].
  destruct (bad_axes _ _ _ _) as [[|b bad]|e]; simpl; [|done..].
  by apply extends_ok_pace.
Qed.

Lemma extends_ok_stream_loop sp g s0 a t0 ks clk s :
  Forall (λ k, 1 ≤ k ≤ exec_steps a) ks →
  extends_ok cfg sp g s0 s →
  extends_ok cfg sp g s0 (stream_loop cfg a sp g t0 ks clk s).2.
Proof.
  revert clk s. induction ks as [|k ks IH]; intros clk s Hks Hs; simpl; [done|].
  apply Forall_cons in Hks as [Hk Hks].
  pose proof (extends_ok_stream_step sp g s0 a t0 k clk s Hk Hs) as Hstep.
  destruct (stream_step _ _ _ _ _ _ _ _) as [[[[]|e] clk'] s']; simpl in *; [done| |done].
  by apply IH.
Qed.

Lemma extends_ok_settle_loop sp g s0 a sp' sc g' deadline clk streak lme s :
  extends_ok cfg sp g s0 s →
  extends_ok cfg sp g s0 (settle_loop cfg a sp' sc g' deadline clk streak lme s).2.
Proof.
  assert (∀ s1, extends_ok cfg sp g s0 s1 →
                extends_ok cfg sp g s0 (with_bus (emit (settle_sleep a) (bus s1)) s1)) as Hsleep.
  { intros s1 Hs1. apply (extends_ok_snoc sp g s0 s1 _ (settle_sleep a)); [done| |done].
    simpl. apply Qlt_shift_div_l; [|lra].
    change 0%Q with (inject_Z 0). rewrite <- Zlt_Qlt. lia. }
  revert streak lme s.
  induction clk as [|t clk IH]; intros streak lme s Hs; cbn [settle_loop].
  { by apply extends_ok_timed_out. }
  destruct (negb (before (Some t) deadline)); [by apply extends_ok_timed_out|].
  pose proof (extends_ok_bulk_read sp g s0 true s Hs) as Hr.
  destruct (bulk_read _ _ _) as [[[pos cur]|e] s1]; simpl in *; [|done].
  destruct (max_abs_error _ _ _) as [max_err|e]; [|done].
  destruct (max_err <=? _).
  - destruct (_ >=? _).
    + by destruct (ticks_to_deg _ _).
    + apply IH. by apply Hsleep.
  - apply IH. by apply Hsleep.
Qed.

Lemma range_within steps : Forall (λ k, 1 ≤ k ≤ steps) (Py.range 1 (steps + 1)).
Proof.
  apply Forall_lookup. intros n k Hn.
  pose proof (range_lookup _ _ _ _ Hn) as ->.
  apply lookup_lt_Some in Hn. rewrite range_length in Hn. lia.
Qed.

Lemma int32_u32_id x : in_i32 x → _int32 (_u32 x) = x.
Proof.
  intros Hx. rewrite int32_unfold, u32_unfold, Z.mod_mod by lia. unfold in_i32 in Hx.
  assert (x mod 2 ^ 32 = if 0 <=? x then x else x + 2 ^ 32) as ->.
  { destruct (Z.leb_spec 0 x).
    - apply Z.mod_small. lia.
    - symmetry. apply (Z.mod_unique_pos _ _ (-1)); lia. }
  destruct (Z.leb_spec 0 x).
  - destruct (Z.ltb_spec x (2 ^ 31)); lia.
  - destruct (Z.ltb_spec (x + 2 ^ 32) (2 ^ 31)); lia.
Qed.

Lemma le_value_goal_bytes x : le_value (goal_bytes x) = _u32 x.
Proof.
  assert (goal_bytes x = goal_bytes (_u32 x)) as ->.
  { unfold goal_bytes. rewrite !u32_unfold. by rewrite Z.mod_mod by lia. }
  apply byte_split. rewrite u32_unfold. apply Z.mod_pos_bound. lia.
Qed.

(** X14. Whatever its outcome, [execute_time_synced] only adds to the bus
    bulk reads, sleeps of a positive length and synchronised writes to the
    goal-position register; it never writes a single register.  In every
    synchronised write each axis is a configured one and gets the bytes of a
    goal between the position the call read at its start and the stored
    command, both included; when the stored command is within the signed
    32-bit range, a device that decodes the bytes reads exactly that
    goal. *)
Theorem execute_time_synced_bus a clk s :
  let out := execute_time_synced cfg a clk s in
  let r := reply_after s 0 in
  ∃ new,
    trace (bus out.2) = trace (bus s) ++ new ∧
    ∀ ev, ev ∈ new →
      match ev with
      | EvWrite1 _ _ _ => False
      | EvBulkRead _ => True
      | EvSleep q => (0 < q)%Q
      | EvSyncWrite addr len ps =>
          addr = addr_goal_position cfg ∧ len = 4 ∧
          ∀ i bytes, (i, bytes) ∈ ps →
            ∃ gi m, i ∈ ids cfg ∧ cmd_ticks s !! i = Some gi ∧
                    let p := _int32 (get_data r i (addr_present_position cfg) LEN_4) in
                    Z.min p gi ≤ m ≤ Z.max p gi ∧ bytes = goal_bytes m ∧
                    (in_i32 gi → _int32 (le_value bytes) = m)
      end.
Proof.
  intros out r. unfold out, execute_time_synced.
  assert (∀ sp g s2,
            (∀ i p, sp !! i = Some p →
               p = _int32 (get_data r i (addr_present_position cfg) LEN_4)) →
            (∀ i gi, g !! i = Some gi → cmd_ticks s !! i = Some gi) →
            extends_ok cfg sp g s s2 →
            ∃ new, trace (bus s2) = trace (bus s) ++ new ∧
              ∀ ev, ev ∈ new →
                match ev with
                | EvWrite1 _ _ _ => False
                | EvBulkRead _ => True
                | EvSleep q => (0 < q)%Q
                | EvSyncWrite addr len ps =>
                    addr = addr_goal_position cfg ∧ len = 4 ∧
                    ∀ i bytes, (i, bytes) ∈ ps →
                      ∃ gi m, i ∈ ids cfg ∧ cmd_ticks s !! i = Some gi ∧
                        let p := _int32 (get_data r i (addr_present_position cfg) LEN_4) in
                        Z.min p gi ≤ m ≤ Z.max p gi ∧ bytes = goal_bytes m ∧
                        (in_i32 gi → _int32 (le_value bytes) = m)
                end) as Hfin.
  { intros sp g s2 Hsp Hg (new & Htr & Hall). exists new. split; [done|].
    intros ev Hev. rewrite Forall_forall in Hall. specialize (Hall ev Hev).
    destruct ev as [| |addr len ps|q]; try done.
    destruct Hall as (-> & -> & Hps). split; [done|]. split; [done|].
    intros i bytes Hin. destruct (Hps i bytes Hin) as (p & gi & m & Hi & Hp & Hgi & Hm & ->).
    exists gi, m. split; [done|]. split; [by apply Hg|].
    rewrite <- (Hsp i p Hp). cbv zeta. split; [done|]. split; [done|].
    intros Hrange. rewrite le_value_goal_bytes. apply int32_u32_id.
    pose proof (int32_range (get_data r i (addr_present_position cfg) LEN_4)) as Hpr.
    rewrite <- (Hsp i p Hp) in Hpr. unfold in_i32 in *. lia. }
  pose proof (bulk_read_cmd_ticks cfg true s) as Hcmd.
  destruct (bulk_read cfg true s) as [[[sp sc]|e] s1] eqn:Hr; simpl in Hcmd.
  2:{ apply (Hfin ∅ ∅); [done|done|].
      pose proof (extends_ok_bulk_read ∅ ∅ s true s (extends_ok_refl _ _ s)) as H.
      by rewrite Hr in H. }
  assert (∀ i p, sp !! i = Some p →
            p = _int32 (get_data r i (addr_present_position cfg) LEN_4)) as Hsp.
  { intros i p Hp. destruct (bulk_read_result cfg _ _ _ _ _ Hr) as (_ & Hpos & _).
    fold r in Hpos. unfold positions_of in Hpos.
    rewrite (dict_from_lookup _ _ _ _ i Hpos) in Hp.
    destruct (decide (i ∈ ids cfg)) as [Hi|Hi]; [|done].
    destruct (dict_from_defined _ _ _ _ i Hpos Hi) as (w & Hw & _).
    rewrite Hw in Hp. injection Hp as <-. unfold read_position in Hw.
    destruct (is_available r i _ _); [|done]. by injection Hw as <-. }
  assert (∀ g, extends_ok cfg sp g s s1) as Hs1.
  { intros g. pose proof (extends_ok_bulk_read sp g s true s (extends_ok_refl _ _ s)) as H.
    by rewrite Hr in H. }
  destruct (dict_from (getitem (cmd_ticks s1)) (ids cfg) ∅) as [g|e] eqn:Hgoal.
  2:{ by apply (Hfin sp ∅). }
  assert (∀ i gi, g !! i = Some gi → cmd_ticks s !! i = Some gi) as Hg.
  { intros i gi. rewrite (dict_from_lookup _ _ _ _ i Hgoal).
    destruct (decide (i ∈ ids cfg)) as [Hi|Hi]; [|done].
    destruct (dict_from_defined _ _ _ _ i Hgoal Hi) as (w & Hw & _).
    rewrite Hw. intros [= <-]. unfold getitem in Hw. rewrite Hcmd in Hw.
    destruct (cmd_ticks s !! i); [|done]. by injection Hw as ->. }
  destruct (time_time clk) as [t0 clk1].
  pose proof (extends_ok_stream_loop sp g s a t0 _ clk1 s1
                (range_within (exec_steps a)) (Hs1 g)) as Hloop.
  destruct (stream_loop cfg a sp g t0 _ clk1 s1) as [[[b|e] clk2] s2]; simpl in Hloop.
  - apply (Hfin sp g); [done|done|]. unfold settle_phase.
    destruct (time_time clk2) as [now clk3]. by apply extends_ok_settle_loop.
  - by apply (Hfin sp g).
Qed.

(** ** The support flag of the current channel *)

Lemma bulk_read_no_current_flag s :
  supports_current (bulk_read cfg false s).2 = supports_current s.
Proof.
  rewrite bulk_read_unfold. unfold asks_current. cbn [andb].
  destruct (negb (comm_ok _)); [done|]. by destruct (dict_from _ _ _).
Qed.

Lemma flag_after_call (P : option bool → Prop) c s :
  (reads_current c = true → ∀ r s0, P (supports_current s0) →
     P (supports_current (store_reading cfg r true ∅ s0).2)) →
  P (supports_current s) → P (supports_current (after_call cfg c s)).
Proof.
  intros Hdecide.
  assert (∀ b s0, P (supports_current s0) → P (supports_current (with_bus b s0))) as Hwb by done.
  assert (∀ i t, preserves (λ s0, P (supports_current s0)) (set_cmd i t)) as Hset
    by (by intros i t s0 Hs0).
  assert (preserves (λ s0, P (supports_current s0)) (bulk_read cfg false)) as Hpos.
  { intros s0 Hs0. by rewrite bulk_read_no_current_flag. }
  assert (reads_current c = true →
          ∀ r want pos s0, P (supports_current s0) →
            P (supports_current (store_reading cfg r want pos s0).2)) as Hsr.
  { intros Hc r want pos s0 Hs0. destruct want; [|done]. by apply (Hdecide Hc r s0). }
  destruct c as [ids_arg|mode|l|l|want|g|a clk]; cbn [after_call]; revert s.
  - change (preserves (λ s0, P (supports_current s0)) (ensure_extended_mode cfg ids_arg)).
    apply preserves_for_each. intros i.
    repeat (apply preserves_bind; [by intros s0 Hs0|]; intros _). by intros s0 Hs0.
  - change (preserves (λ s0, P (supports_current s0)) (soft_reset cfg mode)).
    unfold soft_reset. apply preserves_bind; [done|].
    intros [pos cur]. destruct mode.
    + apply preserves_for_each. intros i. apply preserves_bind; [apply preserves_lift|].
      intros p. apply Hset.
    + apply preserves_for_each. intros i. apply preserves_bind; [apply preserves_lift|].
      intros p. destruct (_ =? _); [apply preserves_raise|apply Hset].
    + apply preserves_raise.
  - change (preserves (λ s0, P (supports_current s0)) (set_targets_abs_deg cfg l)).
    apply preserves_for_each. intros [i d]. apply Hset.
  - change (preserves (λ s0, P (supports_current s0)) (nudge_rel_deg cfg l)).
    apply preserves_for_each. intros [i d].
    apply preserves_bind; [apply preserves_get_state|]. intros s0.
    apply preserves_bind; [apply preserves_lift|]. intros v. apply Hset.
  - destruct want; [|done].
    apply (blind_bulk_read cfg (λ s0, P (supports_current s0))); [done|by apply Hsr].
  - apply (blind_sync_write cfg (λ s0, P (supports_current s0))). done.
  - apply (blind_execute_time_synced cfg (λ s0, P (supports_current s0))); [done|by apply Hsr].
Qed.

(** X15. The support flag of the current channel is decided at most once in
    the life of an object: once it holds a value, true or false, no sequence
    of calls changes it, whatever the bus answers later.  And it can only be
    decided by a bulk read that asks for the current or by
    [execute_time_synced]: the mode switch, the soft reset, the two command
    setters, the synchronised write and a positions-only bulk read leave it
    as they find it, undecided included. *)
Theorem support_flag_decided_once cs s :
  (∀ b, supports_current s = Some b → supports_current (after_calls cfg cs s) = Some b) ∧
  (Forall (λ c, reads_current c = false) cs →
   supports_current (after_calls cfg cs s) = supports_current s) ∧
  (supports_current (after_calls cfg cs s) = None → supports_current s = None).
Proof.
  split; [|split].
  - intros b. revert s. induction cs as [|c cs IH]; intros s Hs; [done|].
    apply IH. apply (flag_after_call (λ f, f = Some b)); [|done].
    intros _ r s0 Hs0. unfold store_reading. simpl. by rewrite Hs0.
  - revert s. induction cs as [|c cs IH]; intros s Hall; [done|].
    apply Forall_cons in Hall as [Hc Hall]. cbn [after_calls foldl].
    change (supports_current (after_calls cfg cs (after_call cfg c s)) = supports_current s).
    rewrite (IH _ Hall).
    apply (flag_after_call (λ f, f = supports_current s)); [|done].
    intros Hc'. by rewrite Hc in Hc'.
  - revert s. induction cs as [|c cs IH]; intros s Hs; [done|].
    specialize (IH _ Hs).
    destruct (supports_current s) as [b|] eqn:Hb; [|done].
    assert (supports_current (after_call cfg c s) = Some b) as Hkeep.
    { apply (flag_after_call (λ f, f = Some b)); [|done].
      intros _ r s0 Hs0. unfold store_reading. simpl. by rewrite Hs0. }
    by rewrite Hkeep in IH.
Qed.

(** ** The scan *)

Lemma scan_fold (ping : Z → Z * Z) l acc :
  foldl (λ online dxl_id,
           let '(comm, err) := ping dxl_id in
           if (comm =? COMM_SUCCESS) && (err =? 0) then online ++ [dxl_id] else online)
        acc l =
  acc ++ filter (λ i, (ping i).1 = COMM_SUCCESS ∧ (ping i).2 = 0) l.
Proof.
  revert acc. induction l as [|j l IH]; intros acc; cbn [foldl].
  - by rewrite app_nil_r.
  - rewrite IH. destruct (ping j) as [comm err] eqn:Hj.
    destruct (Z.eqb_spec comm COMM_SUCCESS) as [Hc|Hc];
      destruct (Z.eqb_spec err 0) as [He|He]; cbn [andb].
    + rewrite filter_cons_True by (by rewrite Hj). by rewrite <- app_assoc.
    + rewrite filter_cons_False; [done|]. rewrite Hj. by intros [_ ?].
    + rewrite filter_cons_False; [done|]. rewrite Hj. by intros [? _].
    + rewrite filter_cons_False; [done|]. rewrite Hj. by intros [? _].
Qed.

Lemma range_elem lo hi x : x ∈ Py.range lo hi ↔ lo ≤ x < hi.
Proof.
  unfold Py.range. rewrite list_elem_of_fmap. split.
  - intros (n & -> & Hn). apply elem_of_seq in Hn. lia.
  - intros Hx. exists (Z.to_nat (x - lo)). split; [lia|]. apply elem_of_seq. lia.
Qed.

Lemma range_sorted lo hi : StronglySorted Z.lt (Py.range lo hi).
Proof.
  unfold Py.range. generalize (Z.to_nat (hi - lo)) as n. intros n.
  generalize 0%nat as m. induction n as [|n IH]; intros m; simpl; [constructor|].
  constructor; [apply IH|]. apply Forall_forall. intros x Hx.
  apply list_elem_of_fmap in Hx as (k & -> & Hk). apply elem_of_seq in Hk. lia.
Qed.

Lemma sorted_filter (P : Z → Prop) `{∀ x, Decision (P x)} l :
  StronglySorted Z.lt l → StronglySorted Z.lt (filter P l).
Proof.
  induction 1 as [|x l Hl IH Hx]; [constructor|].
  destruct (decide (P x)) as [Hp|Hp].
  - rewrite filter_cons_True by done. constructor; [done|].
    apply Forall_forall. intros y Hy. apply list_elem_of_filter in Hy as [_ Hy].
    rewrite Forall_forall in Hx. by apply Hx.
  - by rewrite filter_cons_False.
Qed.

(** X16. [scan_ids] reports exactly the ids from 0 to 252 whose ping came
    back with [COMM_SUCCESS] and no error, each once and in increasing
    order; the ids 253 and above, the broadcast id among them, are never
    reported. *)
Theorem scan_ids_reports (ping : Z → Z * Z) :
  (∀ i, i ∈ scan_ids ping ↔
        0 ≤ i ≤ 252 ∧ (ping i).1 = COMM_SUCCESS ∧ (ping i).2 = 0) ∧
  StronglySorted Z.lt (scan_ids ping) ∧
  NoDup (scan_ids ping) ∧
  (length (scan_ids ping) ≤ 253)%nat.
Proof.
  unfold scan_ids. rewrite scan_fold. cbn [app].
  assert (StronglySorted Z.lt
            (filter (λ i, (ping i).1 = COMM_SUCCESS ∧ (ping i).2 = 0) (Py.range 0 253)))
    as Hsorted by apply sorted_filter, range_sorted.
  split; [|split; [done|split]].
  - intros i. rewrite list_elem_of_filter, range_elem. split.
    + intros [Hp Hr]. split; [lia|done].
    + intros [Hr Hp]. split; [done|lia].
  - clear -Hsorted. induction Hsorted as [|x l Hl IH Hx]; [constructor|].
    constructor; [|done]. intros Hin. rewrite Forall_forall in Hx.
    specialize (Hx x Hin). lia.
  - etrans; [apply length_filter|]. by rewrite range_length.
Qed.

(** ** How far a waypoint is from the one before *)

Lemma Qsquare_nonneg x : (0 <= x * x)%Q.
Proof.
  destruct (Qlt_le_dec x 0) as [H|H].
  - assert (x * x == (- x) * (- x))%Q as -> by ring.
    apply Qmult_le_0_compat; lra.
  - by apply Qmult_le_0_compat.
Qed.

(** Neither shape is steeper than 3/2. *)
Lemma shape_slope smooth a b :
  (0 <= a)%Q → (a <= b)%Q → (b <= 1)%Q →
  (shape smooth b - shape smooth a <= (3 # 2) * (b - a))%Q.
Proof.
  intros H0 Hab H1. unfold shape. destruct smooth; simpl; [|lra].
  pose proof (Qsquare_nonneg (a + b - 1)) as S1.
  pose proof (Qsquare_nonneg (a - b)) as S2.
  assert (0 <= (b - a) * ((3 # 2) * ((a + b - 1) * (a + b - 1))
                          + (1 # 2) * ((a - b) * (a - b))))%Q as H.
  { apply Qmult_le_0_compat; lra. }
  lra.
Qed.

Lemma Py_round_diff x y :
  (inject_Z (Py.round y) - inject_Z (Py.round x) <= y - x + 1)%Q.
Proof.
  destruct (Py_round_near x) as [_ Hx]. destruct (Py_round_near y) as [Hy _]. lra.
Qed.

Lemma waypoint_zero p gi smooth steps :
  waypoint p gi (shape smooth (inject_Z 0 / inject_Z steps)) = p.
Proof.
  unfold waypoint. transitivity (Py.round (inject_Z p)); [|apply Py_round_Z].
  apply Py_round_comp.
  assert (inject_Z 0 / inject_Z steps == 0)%Q as E0 by (unfold Qdiv; ring).
  rewrite (shape_comp smooth _ _ E0).
  unfold shape. destruct smooth; simpl; ring.
Qed.

Lemma waypoint_step p gi steps k k' smooth :
  0 ≤ k → k ≤ k' → k' ≤ steps → 1 ≤ steps →
  let m := waypoint p gi (shape smooth (inject_Z k / inject_Z steps)) in
  let m' := waypoint p gi (shape smooth (inject_Z k' / inject_Z steps)) in
  2 * steps * (Z.abs (m' - m) - 1) ≤ 3 * Z.abs (gi - p) * (k' - k).
Proof.
  intros Hk Hkk Hk' Hs m m'.
  assert (0 < inject_Z steps)%Q as HS.
  { change 0%Q with (inject_Z 0). rewrite <- Zlt_Qlt. lia. }
  assert (¬ (inject_Z steps == 0)%Q) as HS0 by (intros E; rewrite E in HS; lra).
  assert (0 <= inject_Z k / inject_Z steps)%Q as Ha0.
  { apply Qle_shift_div_l; [done|]. rewrite Qmult_0_l.
    change 0%Q with (inject_Z 0). by rewrite <- Zle_Qle. }
  assert (inject_Z k / inject_Z steps <= inject_Z k' / inject_Z steps)%Q as Hab
    by by apply alpha_mono.
  assert (inject_Z k' / inject_Z steps <= 1)%Q as Hb1.
  { apply Qle_shift_div_r; [done|]. rewrite Qmult_1_l. by rewrite <- Zle_Qle. }
  pose proof (shape_slope smooth _ _ Ha0 Hab Hb1) as Hslope.
  assert (shape smooth (inject_Z k / inject_Z steps) <=
          shape smooth (inject_Z k' / inject_Z steps))%Q as Hmono
    by by apply shape_mono.
  assert ((inject_Z k' / inject_Z steps - inject_Z k / inject_Z steps) * inject_Z steps
          == inject_Z k' - inject_Z k)%Q as Hscale by (field; done).
  set (sa := shape smooth (inject_Z k / inject_Z steps)) in *.
  set (sb := shape smooth (inject_Z k' / inject_Z steps)) in *.
  set (a := (inject_Z k / inject_Z steps)%Q) in *.
  set (b := (inject_Z k' / inject_Z steps)%Q) in *.
  assert (inject_Z (gi - p) == inject_Z gi - inject_Z p)%Q as E.
  { unfold Z.sub. rewrite inject_Z_plus, inject_Z_opp. ring. }
  assert (∀ d : Q, (0 <= d)%Q →
            (2 * inject_Z steps * (d * (sb - sa)) <= 3 * d * (inject_Z k' - inject_Z k))%Q)
    as Hbound.
  { intros d Hd.
    assert (0 <= d * ((3 # 2) * (b - a) - (sb - sa)))%Q as H1
      by (apply Qmult_le_0_compat; lra).
    assert (0 <= 2 * inject_Z steps * (d * ((3 # 2) * (b - a) - (sb - sa))))%Q as H2
      by (apply Qmult_le_0_compat; lra).
    assert (2 * inject_Z steps * (d * ((3 # 2) * (b - a)))
            == 3 * d * ((b - a) * inject_Z steps))%Q as H3 by ring.
    rewrite Hscale in H3.
    assert (2 * inject_Z steps * (d * ((3 # 2) * (b - a) - (sb - sa)))
            == 2 * inject_Z steps * (d * ((3 # 2) * (b - a)))
               - 2 * inject_Z steps * (d * (sb - sa)))%Q as H4 by ring.
    rewrite H4, H3 in H2. lra. }
  assert (∀ u v : Q, (0 <= u)%Q → (v <= u + 1)%Q →
            (2 * inject_Z steps * (v - 1) <= 2 * inject_Z steps * u)%Q) as Hstep.
  { intros u v Hu Hv.
    assert (0 <= 2 * inject_Z steps * (u + 1 - v))%Q as H
      by (apply Qmult_le_0_compat; lra).
    assert (2 * inject_Z steps * (u + 1 - v)
            == 2 * inject_Z steps * u - 2 * inject_Z steps * (v - 1))%Q as H' by ring.
    rewrite H' in H. lra. }
  destruct (Z.le_ge_cases p gi) as [Hpg|Hpg].
  - destruct (waypoint_mono p gi sa sb Hmono) as [Hup _]. specialize (Hup Hpg).
    fold m m' in Hup. rewrite !Z.abs_eq by lia.
    assert (0 <= inject_Z gi - inject_Z p)%Q as Hd.
    { assert (inject_Z p <= inject_Z gi)%Q by by rewrite <- Zle_Qle. lra. }
    pose proof (Py_round_diff (inject_Z p + inject_Z (gi - p) * sa)
                              (inject_Z p + inject_Z (gi - p) * sb)) as Hdiff.
    fold (waypoint p gi sa) (waypoint p gi sb) in Hdiff. fold m m' in Hdiff.
    rewrite E in Hdiff.
    pose proof (Hbound _ Hd) as Hb.
    assert (0 <= (inject_Z gi - inject_Z p) * (sb - sa))%Q as Hu
      by (apply Qmult_le_0_compat; lra).
    pose proof (Hstep ((inject_Z gi - inject_Z p) * (sb - sa))%Q
                      (inject_Z m' - inject_Z m)%Q Hu ltac:(lra)) as Hs'.
    rewrite Zle_Qle.
    unfold Z.sub. rewrite !inject_Z_mult, !inject_Z_plus, !inject_Z_opp.
    change (inject_Z 2) with 2%Q. change (inject_Z 3) with 3%Q.
    change (inject_Z 1) with 1%Q. lra.
  - destruct (waypoint_mono p gi sa sb Hmono) as [_ Hdown]. specialize (Hdown Hpg).
    fold m m' in Hdown. rewrite !Z.abs_neq by lia.
    assert (0 <= inject_Z p - inject_Z gi)%Q as Hd.
    { assert (inject_Z gi <= inject_Z p)%Q by by rewrite <- Zle_Qle. lra. }
    pose proof (Py_round_diff (inject_Z p + inject_Z (gi - p) * sb)
                              (inject_Z p + inject_Z (gi - p) * sa)) as Hdiff.
    fold (waypoint p gi sa) (waypoint p gi sb) in Hdiff. fold m m' in Hdiff.
    rewrite E in Hdiff.
    pose proof (Hbound _ Hd) as Hb.
    assert (0 <= (inject_Z p - inject_Z gi) * (sb - sa))%Q as Hu
      by (apply Qmult_le_0_compat; lra).
    pose proof (Hstep ((inject_Z p - inject_Z gi) * (sb - sa))%Q
                      (inject_Z m - inject_Z m')%Q Hu ltac:(lra)) as Hs'.
    rewrite Zle_Qle.
    unfold Z.sub. rewrite !inject_Z_mult, !inject_Z_plus, !inject_Z_opp.
    rewrite !inject_Z_plus, !inject_Z_opp.
    change (inject_Z 2) with 2%Q. change (inject_Z 3) with 3%Q.
    change (inject_Z 1) with 1%Q. lra.
Qed.

(** X20. The streamed goal of an axis never jumps: between step [k] and a
    later step [k'] it moves by at most one tick more than 3/2 of the share
    [(k' - k) / steps] of the whole distance from start to goal, and the
    first waypoints are as near to the start position.  In exact
    arithmetic, for both shapes. *)
Theorem waypoint_step_bounded a sp g k k' mid mid' i m m' :
  1 ≤ k → k ≤ k' → k' ≤ exec_steps a →
  mid_ticks cfg a sp g (exec_steps a) k = Ok mid →
  mid_ticks cfg a sp g (exec_steps a) k' = Ok mid' →
  mid !! i = Some m → mid' !! i = Some m' →
  ∃ p gi, sp !! i = Some p ∧ g !! i = Some gi ∧
    2 * exec_steps a * (Z.abs (m' - m) - 1) ≤ 3 * Z.abs (gi - p) * (k' - k) ∧
    2 * exec_steps a * (Z.abs (m - p) - 1) ≤ 3 * Z.abs (gi - p) * k.
Proof.
  intros Hk Hkk Hk' Hmid Hmid' Hm Hm'.
  destruct (mid_ticks_lookup _ _ _ _ _ _ _ _ Hmid Hm) as (p & gi & Hi & Hp & Hg & ->).
  destruct (mid_ticks_lookup _ _ _ _ _ _ _ _ Hmid' Hm') as (p' & gi' & _ & Hp' & Hg' & ->).
  rewrite Hp in Hp'. rewrite Hg in Hg'. injection Hp' as <-. injection Hg' as <-.
  exists p, gi. do 2 (split; [done|]). split.
  - apply waypoint_step; lia.
  - pose proof (waypoint_step p gi (exec_steps a) 0 k (smoothstep a)
                  ltac:(lia) ltac:(lia) ltac:(lia) ltac:(lia)) as H.
    cbv zeta in H. rewrite waypoint_zero in H. by rewrite Z.sub_0_r in H.
Qed.

(** ** A nudge after a reset *)

(** X21. After a reset to the present position that succeeds, a nudge of
    configured axes by angles that convert succeeds and is a move relative
    to where the axes are: the command of a nudged axis is the position the
    reset read plus the converted delta, clamped, and the command of every
    other configured axis is the position read. *)
Theorem reset_then_nudge (deltas : list (Z * Q)) s pos cur s1 :
  bulk_read cfg false s = (Ok (pos, cur), s1) →
  NoDup deltas.*1 →
  (∀ k, k ∈ deltas.*1 → k ∈ ids cfg) →
  Forall (λ t, converts cfg t.2) deltas →
  ∃ s2 s3,
    soft_reset cfg to_present s = (Ok tt, s2) ∧
    nudge_rel_deg cfg deltas s2 = (Ok tt, s3) ∧
    bus s3 = bus s1 ∧
    (∀ i d, (i, d) ∈ deltas →
       ∃ p, pos !! i = Some p ∧
            cmd_ticks s3 !! i = Some (clamp_i32 (p + deg_to_ticks cfg d))) ∧
    (∀ i, i ∈ ids cfg → i ∉ deltas.*1 → cmd_ticks s3 !! i = pos !! i).
Proof.
  intros Hread Hnd Hkeys _.
  assert (∀ i, i ∈ ids cfg → is_Some (pos !! i)) as Hpos.
  { intros i Hi. by apply (bulk_read_covers cfg _ _ _ _ _ i Hread). }
  destruct (reset_loop (λ p, p) (ids cfg) pos s1 Hpos)
    as (Hok & Hbus & _ & _ & _ & _ & Hin).
  destruct (for_each _ (ids cfg) s1) as [[[]|e] s2] eqn:Hloop; [|done].
  cbn [fst snd] in *.
  assert (soft_reset cfg to_present s = (Ok tt, s2)) as Hreset.
  { by rewrite soft_reset_unfold, Hread. }
  assert (∀ i, i ∈ ids cfg → cmd_ticks s2 !! i = pos !! i) as Hcmd.
  { intros i Hi. rewrite (Hin i Hi). by destruct (pos !! i). }
  destruct (nudge_cmds_lookup cfg deltas (cmd_ticks s2) Hnd) as (Hrun & Hdone & Hrest).
  { intros k Hk. rewrite (Hcmd k (Hkeys k Hk)). by apply Hpos, Hkeys. }
  exists s2, (with_cmd_ticks (nudge_cmds cfg deltas (cmd_ticks s2)).2 s2).
  split; [done|]. split.
  { rewrite nudge_rel_deg_pure. by rewrite Hrun. }
  split; [done|]. split.
  - intros i d Hd.
    assert (i ∈ ids cfg) as Hi.
    { apply Hkeys. apply list_elem_of_fmap. by exists (i, d). }
    destruct (Hpos i Hi) as [p Hp]. exists p. split; [done|].
    apply (Hdone i d p Hd). by rewrite (Hcmd i Hi).
  - intros i Hi Hout. simpl. by rewrite (Hrest i Hout), (Hcmd i Hi).
Qed.

(** ** How often the guard reads the bus *)

Lemma multiples_upto c n :
  1 ≤ c → 0 ≤ n →
  Z.of_nat (length (filter (λ k, k mod c = 0) (Py.range 1 (n + 1)))) = n / c.
Proof.
  intros Hc Hn. rewrite <- (Z2Nat.id n Hn). generalize (Z.to_nat n) as m. clear n Hn.
  induction m as [|m IH].
  - simpl. by rewrite Z.div_0_l by lia.
  - unfold Py.range in *.
    replace (Z.to_nat (Z.of_nat (S m) + 1 - 1)) with (S (Z.to_nat (Z.of_nat m + 1 - 1))) by lia.
    rewrite seq_S, map_app, filter_app, length_app, Nat2Z.inj_add, IH.
    cbn [map]. replace (1 + Z.of_nat (0 + Z.to_nat (Z.of_nat m + 1 - 1)))
      with (Z.of_nat m + 1) by lia.
    replace (Z.of_nat (S m)) with (Z.of_nat m + 1) by lia.
    destruct (decide ((Z.of_nat m + 1) mod c = 0)) as [Hd|Hd].
    + rewrite filter_cons_True by done. simpl.
      generalize dependent (Z.of_nat m). intros z _ Hd. 
      pose proof (Z.div_mod z c ltac:(lia)). pose proof (Z.mod_pos_bound z c ltac:(lia)).
      pose proof (Z.div_mod (z + 1) c ltac:(lia)). rewrite Hd in *. nia.
    + rewrite filter_cons_False by done. simpl.
      generalize dependent (Z.of_nat m). intros z _ Hd.
      pose proof (Z.div_mod z c ltac:(lia)). pose proof (Z.mod_pos_bound z c ltac:(lia)).
      pose proof (Z.div_mod (z + 1) c ltac:(lia)).
      pose proof (Z.mod_pos_bound (z + 1) c ltac:(lia)). nia.
Qed.

Lemma pace_bus_counters a t0 k clk s :
  n_bulk (bus (pace a t0 k clk s).2) = n_bulk (bus s).
Proof.
  unfold pace. destruct clk as [|t clk]; simpl; [done|].
  destruct t0; [|done]. by destruct (Py.ltb _ _).
Qed.

Lemma bulk_read_n_bulk want s : n_bulk (bus (bulk_read cfg want s).2) = S (n_bulk (bus s)).
Proof.
  rewrite bulk_read_unfold. destruct (negb (comm_ok _)); [done|].
  by destruct (dict_from _ _ _).
Qed.

Lemma sync_write_n_bulk goal_ticks s :
  n_bulk (bus (sync_write_goal_positions cfg goal_ticks s).2) = n_bulk (bus s).
Proof.
  unfold sync_write_goal_positions. destruct (add_params _ _); [|done].
  by destruct (tx_ok _).
Qed.

Lemma stream_step_reads a sp g t0 k clk s b clk' s' :
  stream_step cfg a sp g t0 k clk s = (Ok b, clk', s') →
  n_bulk (bus s') =
    (n_bulk (bus s) +
     if bool_decide (is_Some (current_guard a)) && guard_step a k then 1 else 0)%nat.
Proof.
  unfold stream_step.
  destruct (mid_ticks _ _ _ _ _ _) as [mid|e]; [|done].
  pose proof (sync_write_n_bulk mid s) as Hw.
  destruct (sync_write_goal_positions cfg mid s) as [[[]|e] s1]; [|done]. simpl in Hw.
  assert (∀ s2 n, n_bulk (bus s2) = n →
            pace a t0 k clk s2 = (Ok b, clk', s') → n_bulk (bus s') = n) as Hpace.
  { intros s2 n Hn Hp. pose proof (pace_bus_counters a t0 k clk s2) as H.
    rewrite Hp in H. simpl in H. by rewrite H. }
  destruct (current_guard a) as [[mn mx]|]; simpl.
  2:{ intros Hp. rewrite Nat.add_0_r. by apply (Hpace s1). }
  destruct (guard_step a k).
  2:{ intros Hp. rewrite Nat.add_0_r. by apply (Hpace s1). }
  pose proof (bulk_read_n_bulk true s1) as Hr.
  destruct (bulk_read cfg true s1) as [[[pos cur]|e] s2]; [|done]. simpl in Hr.
  destruct (bad_axes _ _ _ _) as [[|i bad]|e]; [| |done].
  - intros Hp. apply (Hpace s2); [|done]. lia.
  - intros [= _ _ <-]. lia.
Qed.

Lemma stream_loop_reads a sp g t0 ks clk s b clk' s' :
  stream_loop cfg a sp g t0 ks clk s = (Ok b, clk', s') →
  ∃ ran rest,
    ks = ran ++ rest ∧ (b = false → rest = []) ∧
    sync_writes (trace (bus s')) = (sync_writes (trace (bus s)) + length ran)%nat ∧
    n_bulk (bus s') =
      (n_bulk (bus s) +
       if bool_decide (is_Some (current_guard a))
       then length (filter (λ k, guard_step a k = true) ran) else 0)%nat.
Proof.
  revert clk s. induction ks as [|k ks IH]; intros clk s; cbn [stream_loop].
  - intros [= <- _ <-]. exists [], []. split; [done|]. split; [done|].
    split; [simpl; lia|]. destruct (bool_decide _); simpl; lia.
  - destruct (stream_step cfg a sp g t0 k clk s) as [[[b1|e] clk1] s1] eqn:Hstep; [|done].
    pose proof (stream_step_reads _ _ _ _ _ _ _ _ _ _ Hstep) as Hreads.
    pose proof (stream_step_count cfg _ _ _ _ _ _ _ _ _ _ Hstep) as Hwrites.
    assert (n_bulk (bus s1) =
            (n_bulk (bus s) +
             if bool_decide (is_Some (current_guard a))
             then length (filter (λ k, guard_step a k = true) [k]) else 0)%nat) as Hone.
    { rewrite Hreads. destruct (bool_decide _); [|done]. simpl.
      destruct (guard_step a k) eqn:Hg.
      - by rewrite filter_cons_True.
      - rewrite filter_cons_False; [done|]. by rewrite Hg. }
    destruct b1.
    + intros [= <- <- <-]. exists [k], ks. split; [done|]. split; [done|].
      split; [simpl; lia|done].
    + intros Hloop. destruct (IH _ _ Hloop) as (ran & rest & -> & Hrest & Hw & Hr).
      exists (k :: ran), rest. split; [done|]. split; [done|]. split.
      * rewrite Hw, Hwrites. simpl. lia.
      * rewrite Hr, Hone. destruct (bool_decide _); [|lia].
        change (k :: ran) with ([k] ++ ran). rewrite filter_app, length_app. lia.
Qed.

Lemma range_prefix n ran rest :
  Py.range 1 (n + 1) = ran ++ rest → ran = Py.range 1 (Z.of_nat (length ran) + 1).
Proof.
  intros Heq. assert (ran = take (length ran) (Py.range 1 (n + 1))) as Htake.
  { by rewrite Heq, take_app_length. }
  assert (length ran ≤ Z.to_nat (n + 1 - 1))%nat as Hlen.
  { rewrite <- (range_length 1 (n + 1)), Heq, length_app. lia. }
  rewrite Htake at 1. unfold Py.range.
  rewrite <- fmap_take. change (@map nat Z) with (@fmap list _ nat Z). rewrite take_seq. f_equal. f_equal. lia.
Qed.

(** X22. While it streams, [execute_time_synced] reads the bus only for the
    guard: never without a guard, and with one exactly once every
    [max(1, poll_hz // 10)] waypoints.  After [w] waypoints have been
    written, whether the loop ran to its end or left on a guard trip, it has
    made [w // max(1, poll_hz // 10)] bulk reads; [w] is the number of steps
    when the loop ran to its end. *)
Theorem guard_read_count a sp g t0 clk s b clk' s' :
  stream_loop cfg a sp g t0 (Py.range 1 (exec_steps a + 1)) clk s = (Ok b, clk', s') →
  ∃ w reads,
    sync_writes (trace (bus s')) = (sync_writes (trace (bus s)) + w)%nat ∧
    n_bulk (bus s') = (n_bulk (bus s) + reads)%nat ∧
    1 ≤ Z.of_nat w ≤ exec_steps a ∧
    (b = false → Z.of_nat w = exec_steps a) ∧
    Z.of_nat reads =
      match current_guard a with
      | Some _ => Z.of_nat w / Z.max 1 (poll_hz a / 10)
      | None => 0
      end.
Proof.
  intros Hloop. pose proof (exec_steps_pos a) as Hsteps.
  destruct (stream_loop_reads _ _ _ _ _ _ _ _ _ _ Hloop) as (ran & rest & Heq & Hrest & Hw & Hr).
  pose proof (range_prefix _ _ _ Heq) as Hran.
  assert (length ran + length rest = Z.to_nat (exec_steps a))%nat as Hlen.
  { rewrite <- length_app, <- Heq, range_length. lia. }
  assert (1 ≤ length ran)%nat as Hpos.
  { destruct ran as [|k ran]; [|simpl; lia]. exfalso.
    destruct b.
    - destruct (stream_loop_break cfg _ _ _ _ _ _ _ _ _ Hloop)
        as (pre & k & post & clk1 & s1 & Hks & Hpre & Hstep).
      pose proof (stream_loop_count cfg _ _ _ _ _ _ _ _ _ Hpre) as H1.
      pose proof (stream_step_count cfg _ _ _ _ _ _ _ _ _ _ Hstep) as H2.
      simpl in Hw. lia.
    - rewrite (Hrest eq_refl) in Hlen. simpl in Hlen. lia. }
  exists (length ran),
    (if bool_decide (is_Some (current_guard a))
     then length (filter (λ k, guard_step a k = true) ran) else 0)%nat.
  split; [done|]. split; [done|]. split; [lia|]. split.
  - intros Hb. rewrite (Hrest Hb) in Hlen. simpl in Hlen. lia.
  - destruct (current_guard a) as [[mn mx]|]; simpl; [|done].
    rewrite Hran at 1.
    rewrite <- (multiples_upto (Z.max 1 (poll_hz a / 10)) (Z.of_nat (length ran))) by lia.
    f_equal. f_equal. apply list_filter_iff. intros k. unfold guard_step.
    by rewrite Z.eqb_eq.
Qed.

(** ** The floor of the settle deadline *)




(** ** The result and the caches *)

Lemma bulk_read_caches want s pos cur s' i :
  bulk_read cfg want s = (Ok (pos, cur), s') → i ∈ ids cfg →
  ∃ p, pos !! i = Some p ∧
       last_present_ticks s' !! i = Some (Some p) ∧
       last_present_current s' !! i = cur !! i ∧
       is_Some (cur !! i).
Proof.
  intros Hread Hi.
  destruct (bulk_read_covers cfg _ _ _ _ _ i Hread Hi) as [[p Hp] [c Hc]].
  exists p. split; [done|]. revert Hread. rewrite bulk_read_unfold.
  destruct (negb (comm_ok _)); [done|]. destruct (dict_from _ _ _); [|done].
  unfold store_reading. intros [= -> Ecur <-]. simpl.
  rewrite !lookup_union, lookup_fmap, Ecur, Hp, Hc. simpl.
  split; [by destruct (last_present_ticks s !! i)|].
  split; [by destruct (last_present_current s !! i)|by eexists].
Qed.

Lemma settle_loop_cached a sp sc g deadline clk streak lme s r s' i :
  settle_loop cfg a sp sc g deadline clk streak lme s = (Ok r, s') → i ∈ ids cfg →
  ∃ p, final_pos r !! i = Some p ∧
       last_present_ticks s' !! i = Some (Some p) ∧
       last_present_current s' !! i = final_current r !! i ∧
       is_Some (final_current r !! i).
Proof.
  intros Hrun Hi. revert streak lme s Hrun.
  assert (∀ lme s, timed_out cfg a sp sc g lme s = (Ok r, s') →
            ∃ p, final_pos r !! i = Some p ∧
                 last_present_ticks s' !! i = Some (Some p) ∧
                 last_present_current s' !! i = final_current r !! i ∧
                 is_Some (final_current r !! i)) as Hexit.
  { intros lme s Hout. apply timed_out_result in Hout.
    destruct Hout as (_ & _ & _ & _ & _ & _ & Hread).
    by apply (bulk_read_caches true s _ _ _ i Hread). }
  induction clk as [|t clk IH]; intros streak lme s; cbn [settle_loop]; [apply Hexit|].
  destruct (negb (before (Some t) deadline)); [apply Hexit|].
  destruct (bulk_read cfg true s) as [[[pos cur]|e] s1] eqn:Hread; [|done].
  destruct (max_abs_error cfg g pos) as [v|e]; [|done].
  destruct (v <=? exec_eps_ticks cfg a); [|apply IH].
  destruct (streak + 1 >=? settle_n a); [|apply IH].
  destruct (ticks_to_deg cfg v) as [d|e]; [|done].
  intros [= <- <-]. simpl. by apply (bulk_read_caches true s _ _ _ i Hread).
Qed.

(** X24. When [execute_time_synced] returns, the last-known caches of the
    object agree with the result: for every configured axis the cached
    position is the final position reported, and the cached current is the
    final current reported, a value or [None]. *)
Theorem execute_result_cached a clk s r s' i :
  execute_time_synced cfg a clk s = (Ok r, s') → i ∈ ids cfg →
  ∃ p, final_pos r !! i = Some p ∧
       last_present_ticks s' !! i = Some (Some p) ∧
       last_present_current s' !! i = final_current r !! i ∧
       is_Some (final_current r !! i).
Proof.
  intros Hrun Hi.
  destruct (execute_time_synced_returns cfg _ _ _ _ _ Hrun)
    as (sp & sc & s1 & g & b & clk2 & s2 & _ & _ & _ & Hsettle).
  rewrite settle_phase_unfold in Hsettle.
  by apply (settle_loop_cached _ _ _ _ _ _ _ _ _ _ _ i Hsettle Hi).
Qed.

(** ** The binary64 product of the step count *)

Lemma inject_Z_pos z : 0 < z → (0 < inject_Z z)%Q.
Proof. intros H. change 0%Q with (inject_Z 0). by rewrite <- Zlt_Qlt. Qed.

Lemma pow2_pos e : (0 < Py.pow2 e)%Q.
Proof.
  unfold Py.pow2. destruct (Z.leb_spec 0 e).
  - apply inject_Z_pos. lia.
  - apply Qinv_lt_0_compat, inject_Z_pos. lia.
Qed.













End MoreFacts.

(** * Properties of the callers *)

Section CallerFacts.

Variable cfg : DxlConfig.

(** ** Dicts *)

Lemma dict_get_set k v d i :
  dict_get i (dict_set k v d) = if decide (i = k) then Some v else dict_get i d.
Proof.
  induction d as [|[k' v'] d IH]; cbn [dict_set dict_get].
  - by destruct (decide (i = k)).
  - destruct (decide (k = k')) as [->|Hk]; cbn [dict_get].
    + by destruct (decide (i = k')).
    + rewrite IH. destruct (decide (i = k')) as [->|Hi]; [|done].
      by rewrite decide_False.
Qed.

Lemma dict_set_keys k v d :
  (dict_set k v d).*1 = if decide (k ∈ d.*1) then d.*1 else d.*1 ++ [k].
Proof.
  induction d as [|[k' v'] d IH]; cbn [dict_set fmap list_fmap fst].
  - rewrite decide_False; [done|]. by intros ?%elem_of_nil.
  - destruct (decide (k = k')) as [->|Hk]; cbn [fmap list_fmap fst].
    + rewrite decide_True; [done|left].
    + fold (fmap (M:=list) (@fst Z Q)). rewrite IH.
      destruct (decide (k ∈ d.*1)) as [Hin|Hin].
      * rewrite decide_True; [done|by right].
      * rewrite decide_False; [done|].
        intros [?|?]%elem_of_cons; done.
Qed.

Lemma dict_set_NoDup k v d : NoDup d.*1 → NoDup (dict_set k v d).*1.
Proof.
  intros Hd. rewrite dict_set_keys. destruct (decide (k ∈ d.*1)); [done|].
  apply NoDup_app. split; [done|]. split; [|apply NoDup_singleton].
  intros x Hx ->%list_elem_of_singleton. done.
Qed.

Lemma dict_get_keys i d : is_Some (dict_get i d) ↔ i ∈ d.*1.
Proof.
  induction d as [|[k v] d IH]; cbn [dict_get fmap list_fmap fst].
  - split; [by intros [? ?]|by intros ?%elem_of_nil].
  - fold (fmap (M:=list) (@fst Z Q)). destruct (decide (i = k)) as [->|Hne].
    + split; [left|by eexists].
    + rewrite IH. split; [by right|]. by intros [?|?]%elem_of_cons.
Qed.

Lemma dict_get_elem i v d : NoDup d.*1 → dict_get i d = Some v ↔ (i, v) ∈ d.
Proof.
  induction d as [|[k w] d IH]; cbn [dict_get fmap list_fmap fst]; intros Hd.
  - split; [done|by intros ?%elem_of_nil].
  - fold (fmap (M:=list) (@fst Z Q)) in Hd. apply NoDup_cons in Hd as [Hk Hd].
    destruct (decide (i = k)) as [->|Hne].
    + split.
      * intros [= ->]. left.
      * intros [[= ->]|Hin]%elem_of_cons; [done|].
        destruct Hk. apply list_elem_of_fmap. by exists (k, v).
    + rewrite (IH Hd). split; [by right|].
      by intros [[= ? ?]|?]%elem_of_cons.
Qed.

(** ** _parse_targets *)

Section ParseTargets.

Variable py_int : string → Res Z.
Variable str_float : string → option Q.

Lemma all_dict v ids :
  let out := foldl (λ out i, dict_set i v out) [] ids in
  NoDup out.*1 ∧
  (∀ i, dict_get i out = if decide (i ∈ ids) then Some v else None) ∧
  (NoDup ids → out.*1 = ids).
Proof.
  assert (∀ acc,
    let out := foldl (λ out i, dict_set i v out) acc ids in
    (NoDup acc.*1 → NoDup out.*1) ∧
    (∀ i, dict_get i out = if decide (i ∈ ids) then Some v else dict_get i acc) ∧
    (NoDup ids → (∀ i, i ∈ ids → i ∉ acc.*1) → out.*1 = acc.*1 ++ ids)) as Hgen.
  { induction ids as [|j l IH]; intros acc; cbn [foldl].
    - split; [done|]. split; [done|]. intros _ _. by rewrite app_nil_r.
    - destruct (IH (dict_set j v acc)) as (Hnd & Hget & Hkeys).
      split; [|split].
      + intros Hacc. by apply Hnd, dict_set_NoDup.
      + intros i. rewrite Hget, dict_get_set.
        destruct (decide (i = j)) as [->|Hne].
        * rewrite (decide_True (P := j ∈ j :: l)) by left. by destruct (decide (j ∈ l)).
        * destruct (decide (i ∈ l)) as [Hl|Hl].
          -- rewrite decide_True; [done|by right].
          -- rewrite decide_False; [done|]. by intros [?|?]%elem_of_cons.
      + intros [Hj Hl]%NoDup_cons Hfresh. rewrite Hkeys; [|done|].
        * rewrite dict_set_keys, decide_False by (apply Hfresh; left).
          by rewrite <- app_assoc.
        * intros i Hi. rewrite dict_set_keys, decide_False by (apply Hfresh; left).
          intros [Hin|Hin]%elem_of_app.
          -- by apply (Hfresh i); [right|].
          -- apply list_elem_of_singleton in Hin as ->. done.
  }
  intros out. destruct (Hgen []) as (Hnd & Hget & Hkeys).
  split; [apply Hnd, NoDup_nil_2|]. split; [done|].
  intros Hids. apply Hkeys; [done|]. intros i _ ?%elem_of_nil. done.
Qed.

(** The second loop: it returns when every item other than ["all"]
    converts, and otherwise raises at the first item that does not. *)
Lemma parse_explicit_spec items out :
  match parse_explicit py_int str_float items out with
  | Done out' =>
      (NoDup out.*1 → NoDup out'.*1) ∧
      (∃ rest, out'.*1 = out.*1 ++ rest) ∧
      Forall (item_ok py_int str_float) items ∧
      ∀ i, dict_get i out' =
           match explicit_value py_int str_float items i with
           | Some v => Some v
           | None => dict_get i out
           end
  | Failed e =>
      ∃ pre kv post, items = pre ++ kv :: post ∧
        Forall (item_ok py_int str_float) pre ∧ item_fails py_int str_float kv e
  end.
Proof.
  revert out. induction items as [|[k v] items IH]; intros out;
    cbn [parse_explicit explicit_value].
  - split; [done|]. split; [exists []; by rewrite app_nil_r|]. split; [|done].
    apply Forall_nil_2.
  - destruct (String.eqb_spec k "all") as [->|Hk].
    + specialize (IH out).
      destruct (parse_explicit py_int str_float items out) as [out'|e].
      * destruct IH as (Hnd & Hpre & Hall & Hget). split; [done|]. split; [done|]. split.
        -- apply Forall_cons. split; [|done]. by intros Hne.
        -- intros i. rewrite Hget. by destruct (explicit_value py_int str_float items i).
      * destruct IH as (pre & kv & post & -> & Hpre & Hfail).
        exists (("all"%string, v) :: pre), kv, post. split; [done|]. split; [|done].
        apply Forall_cons. split; [|done]. by intros Hne.
    + destruct (py_float str_float v) as [x|e] eqn:Hx.
      2:{ exists [], (k, v), items. split; [done|]. split; [apply Forall_nil_2|].
          split; [done|]. by left. }
      destruct (py_int k) as [j|e] eqn:Hj.
      2:{ exists [], (k, v), items. split; [done|]. split; [apply Forall_nil_2|].
          split; [done|]. right. split; [by exists x|by exists e]. }
      assert (item_ok py_int str_float (k, v)) as Hok.
      { intros _. split; [by exists x|by exists j]. }
      specialize (IH (dict_set j x out)).
      destruct (parse_explicit py_int str_float items (dict_set j x out)) as [out'|e].
      * destruct IH as (Hnd & [rest Hpre] & Hall & Hget). split; [|split; [|split]].
        -- intros Hout. by apply Hnd, dict_set_NoDup.
        -- rewrite Hpre, dict_set_keys. destruct (decide (j ∈ out.*1)).
           ++ by exists rest.
           ++ exists ([j] ++ rest). by rewrite <- app_assoc.
        -- by apply Forall_cons.
        -- intros i. rewrite Hget, dict_get_set.
           destruct (explicit_value py_int str_float items i); [done|].
           destruct (decide (j = i)) as [Hji|Hji], (decide (i = j)) as [Hij|Hij];
             congruence.
      * destruct IH as (pre & kv & post & -> & Hpre & Hfail).
        exists ((k, v) :: pre), kv, post. split; [done|]. split; [|done].
        by apply Forall_cons.
Qed.


End ParseTargets.

(** ** run_template *)

Section RunTemplate.

Variable py_int : string → Res Z.
Variable str_float : string → option Q.

Lemma parse_targets_NoDup obj ids targets :
  _parse_targets py_int str_float obj ids = Done targets → NoDup targets.*1.
Proof.
  unfold _parse_targets. intros Hparse.
  destruct (json_get "all" obj) as [v|].
  - destruct (py_float str_float v) as [x|e]; [|done].
    pose proof (parse_explicit_spec py_int str_float obj
                  (foldl (λ out i, dict_set i x out) [] ids)) as Hspec.
    rewrite Hparse in Hspec. destruct Hspec as (Hnd & _). apply Hnd.
    by destruct (all_dict x ids) as (H1 & _).
  - pose proof (parse_explicit_spec py_int str_float obj []) as Hspec.
    rewrite Hparse in Hspec. destruct Hspec as (Hnd & _). apply Hnd, NoDup_nil_2.
Qed.

Lemma run_steps_app override last pre post s :
  run_steps cfg py_int str_float override last (pre ++ post) s =
  match run_steps cfg py_int str_float override last pre s with
  | (Done last', s') => run_steps cfg py_int str_float override last' post s'
  | (Failed e, s') => (Failed e, s')
  end.
Proof.
  revert last s. induction pre as [|st pre IH]; intros last s; [done|].
  cbn [app run_steps].
  destruct (run_step cfg py_int str_float override last st s) as [[last'|e] s']; [apply IH|done].
Qed.

(** X18. A template that ends with a [set_abs_deg] step followed by an
    [execute] step, when it returns, returns the result of that [execute],
    and the goal of every configured axis the targets give a value to,
    explicitly or through ["all"], is that value converted to ticks and
    clamped, whatever the steps before did; when the result is settled, the
    final position of such an axis is within the tolerance of that goal. *)
Theorem template_set_then_execute override pre obj e clk s out s' :
  run_template cfg py_int str_float override (pre ++ [OpSetAbsDeg obj; OpExecute e clk]) s
    = (Done out, s') →
  ∃ targets r,
    _parse_targets py_int str_float obj (ids cfg) = Done targets ∧ out = Some r ∧
    ∀ i v, i ∈ ids cfg → dict_get i targets = Some v →
      goal r !! i = Some (clamp_i32 (deg_to_ticks cfg v)) ∧
      (settled r = true →
       ∃ p, final_pos r !! i = Some p ∧
            Z.abs (clamp_i32 (deg_to_ticks cfg v) - p)
              ≤ Z.abs (deg_to_ticks cfg (step_eps_deg e))).
Proof.
  unfold run_template. rewrite run_steps_app.
  destruct (run_steps cfg py_int str_float override None pre s) as [[last0|e0] s0]; [|done].
  cbn [run_steps run_step].
  destruct (_parse_targets py_int str_float obj (ids cfg)) as [targets|e1] eqn:Hparse; [|done].
  pose proof (set_targets_abs_deg_pure cfg targets s0) as Hset. rewrite Hset.
  cbn [servo_step].
  set (s1 := with_cmd_ticks (target_cmds cfg targets (cmd_ticks s0)) s0).
  destruct (execute_time_synced cfg (exec_args override e) clk s1) as [[r|e2] s2] eqn:Hrun;
    [|done].
  destruct (max_err_deg r) as [d|] eqn:Hdeg; [|done].
  intros [= <- <-]. exists targets, r. split; [done|]. split; [done|].
  intros i v Hi Hv.
  destruct (execute_time_synced_returns cfg _ _ _ _ _ Hrun)
    as (sp & sc & s1' & g & b & clk2 & s2' & Hread & Hgoal & Hloop & Hsettle).
  assert (g !! i = Some (clamp_i32 (deg_to_ticks cfg v))) as Hgi.
  { destruct (dict_from_defined _ _ _ _ i Hgoal Hi) as (w & Hw & ->).
    f_equal. unfold getitem in Hw.
    pose proof (bulk_read_cmd_ticks cfg true s1) as Hc. rewrite Hread in Hc.
    simpl in Hc. rewrite Hc in Hw.
    destruct (target_cmds_lookup cfg targets (cmd_ticks s0)) as (_ & _ & Hnd).
    rewrite (Hnd (parse_targets_NoDup _ _ _ Hparse) i v) in Hw; [by injection Hw|].
    by apply dict_get_elem; [eapply parse_targets_NoDup|]. }
  revert Hsettle. unfold settle_phase. destruct (time_time clk2) as [now clk3].
  intros Hsettle. apply settle_loop_result in Hsettle.
  destruct Hsettle as (_ & _ & Hg & _ & _ & _ & _ & Hset1 & _).
  rewrite Hg. split; [done|]. intros Hsettled.
  destruct (Hset1 Hsettled) as (err & Herr & _ & Hle).
  destruct (max_abs_error_spec cfg _ _ _ Herr) as [Hall _].
  destruct (Hall i Hi) as (gi & p & Hgi' & Hp & Hbound).
  rewrite Hgi in Hgi'. injection Hgi' as <-. exists p. split; [done|].
  etrans; [exact Hbound|]. exact Hle.
Qed.


End RunTemplate.

End CallerFacts.

(** * Concrete runs of the further properties *)

(** A reply whose position field holds [2^32 - 5] and whose current field
    holds [65535] is read as position -5 and current -1. *)
Lemma bulk_read_returns_witness :
  let s := Demo.servo 0 (Demo.bus_of [] (Demo.reading (2 ^ 32 - 5) (Some 65535))) in
  ∃ pos cur s',
    bulk_read Demo.cfg true s = (Ok (pos, cur), s') ∧
    pos !! 1 = Some (-5) ∧ cur !! 1 = Some (Some (-1)).
Proof.
  intros s.
  assert (∃ pos cur s1, bulk_read Demo.cfg true s = (Ok (pos, cur), s1))
    as (pos & cur & s1 & Hread).
  { do 3 eexists. vm_compute. reflexivity. }
  destruct (bulk_read_returns Demo.cfg true s pos cur s1 Hread) as (Hpos & Hcur & _).
  exists pos, cur, s1. split; [exact Hread|].
  rewrite Hpos, Hcur. vm_compute. split; reflexivity.
Defined.

(** At 4096 ticks per turn, 10 degrees convert to no more ticks than 20
    degrees, and back to within 180/4096 of a degree. *)
Lemma deg_to_ticks_nearest_witness :
  deg_to_ticks Demo.cfg 10 ≤ deg_to_ticks Demo.cfg 20 ∧
  ∃ d', ticks_to_deg Demo.cfg (deg_to_ticks Demo.cfg 10) = Ok d' ∧
        (Qabs (d' - 10) <= 180 / inject_Z (ticks_per_rev Demo.cfg))%Q.
Proof.
  destruct (deg_to_ticks_nearest Demo.cfg) as [Hmono Hnear]; [simpl; lia|].
  split; [apply Hmono; unfold Qle; simpl; lia|apply (Hnear 10%Q)].
Defined.


(** Ten steps from 0 to 100: the waypoints of steps 3 and 7 lie between
    the two, the later one nearer the goal. *)
Lemma waypoints_between_witness :
  let sp : gmap Z Z := {[1 := 0; 2 := 0]} in
  let g : gmap Z Z := {[1 := 100; 2 := -100]} in
  ∃ mid mid' m m',
    mid_ticks Demo.cfg Demo.guarded sp g (exec_steps Demo.guarded) 3 = Ok mid ∧
    mid_ticks Demo.cfg Demo.guarded sp g (exec_steps Demo.guarded) 7 = Ok mid' ∧
    mid !! 1 = Some m ∧ mid' !! 1 = Some m' ∧
    ∃ p gi, 1 ∈ ids Demo.cfg ∧ sp !! 1 = Some p ∧ g !! 1 = Some gi ∧
            Z.min p gi ≤ m ≤ Z.max p gi ∧
            Z.min p gi ≤ m' ≤ Z.max p gi ∧
            (p ≤ gi → m ≤ m') ∧ (gi ≤ p → m' ≤ m).
Proof.
  intros sp g.
  assert (∃ mid, mid_ticks Demo.cfg Demo.guarded sp g (exec_steps Demo.guarded) 3 = Ok mid)
    as [mid Hmid] by (eexists; vm_compute; reflexivity).
  assert (∃ mid', mid_ticks Demo.cfg Demo.guarded sp g (exec_steps Demo.guarded) 7 = Ok mid')
    as [mid' Hmid'] by (eexists; vm_compute; reflexivity).
  assert (∃ m, mid !! 1 = Some m) as [m Hm].
  { vm_compute in Hmid. injection Hmid as <-. eexists. vm_compute. reflexivity. }
  assert (∃ m', mid' !! 1 = Some m') as [m' Hm'].
  { vm_compute in Hmid'. injection Hmid' as <-. eexists. vm_compute. reflexivity. }
  exists mid, mid', m, m'. do 4 (split; [assumption|]).
  apply (waypoints_between Demo.cfg Demo.guarded sp g 3 7 mid mid' 1 m m');
    try assumption; vm_compute; discriminate.
Defined.

(** The reset to the nearest turn does not clamp: from the position
    [2^31 - 1] it stores the command [2^31], which is outside the signed
    32-bit range, and the goal bytes of that command decode to [-2^31]. *)
Example nearest_turn_leaves_range :
  let s := Demo.servo 0 (Demo.bus_of [] (Demo.reading (2 ^ 31 - 1) None)) in
  let s' := (soft_reset Demo.cfg to_nearest_turn s).2 in
  cmd_ticks s' !! 1 = Some (2 ^ 31) ∧
  _int32 (le_value (goal_bytes (2 ^ 31))) = - 2 ^ 31.
Proof. vm_compute. split; reflexivity. Qed.

(** One parse of a target object: ["2"] overrides ["all"] although it comes
    first, and axis 1 gets the value of ["all"]. *)
Example parse_targets_override :
  _parse_targets (λ k, if String.eqb k "2" then Ok 2 else Raise ValueError) (λ _, None)
    [("2"%string, JNum 30); ("all"%string, JNum 10)] [1; 2]
  = Done [(1, 10%Q); (2, 30%Q)].
Proof. reflexivity. Qed.

(** The conversions that fail.  A [null] value raises [TypeError], also
    under a key that is no integer, the value being converted first; a
    string that is no number raises [ValueError]; and a [null] under
    ["all"] raises before any item is looked at. *)
Example parse_targets_raises :
  let py_int k := if String.eqb k "2" then Ok 2 else Raise ValueError in
  let parse obj := _parse_targets py_int (λ _, None) obj [1; 2] in
  parse [("2"%string, JNull)] = Failed TypeError ∧
  parse [("x"%string, JNull)] = Failed TypeError ∧
  parse [("x"%string, JNum 30)] = Failed (Raised ValueError) ∧
  parse [("2"%string, JStr "fast")] = Failed (Raised ValueError) ∧
  parse [("x"%string, JNum 30); ("all"%string, JNull)] = Failed TypeError.
Proof. repeat split. Qed.

(** The template [set_abs_deg {"all": 90}], [execute] on a bus that reports
    every axis at 1024 ticks: the goal of both axes is 1024, a quarter
    turn, and the result is settled. *)
Lemma template_set_then_execute_witness :
  let py_int : string → Res Z := λ _, Raise ValueError in
  let str_float : string → option Q := λ _, None in
  let e := {| step_duration_s := 1 # 16; step_poll_hz := 10; step_eps_deg := 3 # 16;
              step_settle_n := 3; step_current_guard := None |} in
  let s := Demo.servo 0 (Demo.bus_of [] (Demo.reading 1024 None)) in
  let steps := [OpSetAbsDeg [("all"%string, JNum 90)]; OpExecute e (Demo.still 8)] in
  ∃ out s' targets r,
    run_template Demo.cfg py_int str_float None steps s = (Done out, s') ∧
    _parse_targets py_int str_float [("all"%string, JNum 90)] (ids Demo.cfg) = Done targets ∧
    out = Some r ∧
    ∀ i v, i ∈ ids Demo.cfg → dict_get i targets = Some v →
      goal r !! i = Some (clamp_i32 (deg_to_ticks Demo.cfg v)) ∧
      (settled r = true →
       ∃ p, final_pos r !! i = Some p ∧
            Z.abs (clamp_i32 (deg_to_ticks Demo.cfg v) - p)
              ≤ Z.abs (deg_to_ticks Demo.cfg (step_eps_deg e))).
Proof.
  intros py_int str_float e s steps.
  assert (∃ out s', run_template Demo.cfg py_int str_float None steps s = (Done out, s'))
    as (out & s' & Hrun).
  { do 2 eexists. vm_compute. reflexivity. }
  destruct (template_set_then_execute Demo.cfg py_int str_float None []
              [("all"%string, JNum 90)] e (Demo.still 8) s out s' Hrun)
    as (targets & r & Hparse & Hout & Hgoal).
  exists out, s', targets, r. split; [exact Hrun|]. split; [exact Hparse|].
  split; [exact Hout|exact Hgoal].
Defined.


(** Ten smoothstep steps from 0 to 100: between steps 3 and 7 the goal
    moves by 56 ticks, within the bound [3/2 * 100 * 4/10 + 1]. *)
Lemma waypoint_step_bounded_witness :
  let sp : gmap Z Z := {[1 := 0; 2 := 0]} in
  let g : gmap Z Z := {[1 := 100; 2 := -100]} in
  ∃ mid mid' m m',
    mid_ticks Demo.cfg Demo.guarded sp g (exec_steps Demo.guarded) 3 = Ok mid ∧
    mid_ticks Demo.cfg Demo.guarded sp g (exec_steps Demo.guarded) 7 = Ok mid' ∧
    mid !! 1 = Some m ∧ mid' !! 1 = Some m' ∧ (m = 22 ∧ m' = 78) ∧
    ∃ p gi, sp !! 1 = Some p ∧ g !! 1 = Some gi ∧
      2 * exec_steps Demo.guarded * (Z.abs (m' - m) - 1) ≤ 3 * Z.abs (gi - p) * (7 - 3) ∧
      2 * exec_steps Demo.guarded * (Z.abs (m - p) - 1) ≤ 3 * Z.abs (gi - p) * 3.
Proof.
  intros sp g.
  assert (∃ mid, mid_ticks Demo.cfg Demo.guarded sp g (exec_steps Demo.guarded) 3 = Ok mid)
    as [mid Hmid] by (eexists; vm_compute; reflexivity).
  assert (∃ mid', mid_ticks Demo.cfg Demo.guarded sp g (exec_steps Demo.guarded) 7 = Ok mid')
    as [mid' Hmid'] by (eexists; vm_compute; reflexivity).
  assert (mid !! 1 = Some 22) as Hm.
  { vm_compute in Hmid. injection Hmid as <-. vm_compute. reflexivity. }
  assert (mid' !! 1 = Some 78) as Hm'.
  { vm_compute in Hmid'. injection Hmid' as <-. vm_compute. reflexivity. }
  exists mid, mid', 22, 78. do 4 (split; [assumption|]). split; [split; reflexivity|].
  apply (waypoint_step_bounded Demo.cfg Demo.guarded sp g 3 7 mid mid' 1 22 78);
    try assumption; vm_compute; discriminate.
Defined.

(** Both axes at 100 ticks: after a reset to present, a nudge of axis 1 by
    90 degrees commands it to 1124 and leaves axis 2 at 100. *)
Lemma reset_then_nudge_witness :
  let s := Demo.servo 0 (Demo.bus_of [] (Demo.reading 100 None)) in
  ∃ (pos : gmap Z Z) s2 s3,
    soft_reset Demo.cfg to_present s = (Ok tt, s2) ∧
    nudge_rel_deg Demo.cfg [(1, 90%Q)] s2 = (Ok tt, s3) ∧
    (∃ p, pos !! 1 = Some p ∧
          cmd_ticks s3 !! 1 = Some (clamp_i32 (p + deg_to_ticks Demo.cfg 90))) ∧
    cmd_ticks s3 !! 2 = pos !! 2 ∧
    cmd_ticks s3 !! 1 = Some 1124 ∧ cmd_ticks s3 !! 2 = Some 100.
Proof.
  intros s.
  assert (∃ pos cur s1, bulk_read Demo.cfg false s = (Ok (pos, cur), s1))
    as (pos & cur & s1 & Hread).
  { do 3 eexists. vm_compute. reflexivity. }
  destruct (reset_then_nudge Demo.cfg [(1, 90%Q)] s pos cur s1 Hread)
    as (s2 & s3 & Hreset & Hnudge & _ & Hdone & Hrest).
  - apply NoDup_singleton.
  - intros k Hk. apply list_elem_of_singleton in Hk as ->. simpl. left.
  - repeat constructor; by vm_compute.
  - exists pos, s2, s3. split; [exact Hreset|]. split; [exact Hnudge|].
    assert ((1, 90%Q) ∈ [(1, 90%Q)]) as H1 by left.
    assert (2 ∈ ids Demo.cfg) as H2 by (simpl; right; left).
    assert (2 ∉ [(1, 90%Q)].*1) as H3.
    { simpl. intros H. apply list_elem_of_singleton in H. discriminate. }
    split; [exact (Hdone 1 90%Q H1)|]. split; [exact (Hrest 2 H2 H3)|].
    assert (pos !! 1 = Some 100 ∧ pos !! 2 = Some 100) as [Hp1 Hp2].
    { vm_compute in Hread. injection Hread as <- _ _. split; vm_compute; reflexivity. }
    destruct (Hdone 1 90%Q H1) as (p & Hp & Hc). rewrite Hp1 in Hp. injection Hp as <-.
    split; [rewrite Hc; vm_compute; reflexivity|].
    rewrite (Hrest 2 H2 H3). exact Hp2.
Defined.

(** One second at 10 Hz with a guard: the period is one step, and the ten
    waypoints come with ten guard reads. *)
Lemma guard_read_count_witness :
  let sp : gmap Z Z := {[1 := 0; 2 := 0]} in
  let s := Demo.servo 0 (Demo.bus_of [] (Demo.reading 0 (Some 1))) in
  ∃ b clk' s',
    stream_loop Demo.cfg Demo.guarded sp sp (Some 0%Q)
      (Py.range 1 (exec_steps Demo.guarded + 1)) (Demo.still 10) s = (Ok b, clk', s') ∧
    b = false ∧
    ∃ w reads,
      sync_writes (trace (bus s')) = (sync_writes (trace (bus s)) + w)%nat ∧
      n_bulk (bus s') = (n_bulk (bus s) + reads)%nat ∧
      1 ≤ Z.of_nat w ≤ exec_steps Demo.guarded ∧
      (b = false → Z.of_nat w = exec_steps Demo.guarded) ∧
      Z.of_nat reads =
        match current_guard Demo.guarded with
        | Some _ => Z.of_nat w / Z.max 1 (poll_hz Demo.guarded / 10)
        | None => 0
        end.
Proof.
  intros sp s.
  assert (∃ b clk' s',
            stream_loop Demo.cfg Demo.guarded sp sp (Some 0%Q)
              (Py.range 1 (exec_steps Demo.guarded + 1)) (Demo.still 10) s = (Ok b, clk', s') ∧
            b = false) as (b & clk' & s' & Hloop & Hb).
  { do 3 eexists. split; [vm_compute; reflexivity|reflexivity]. }
  exists b, clk', s'. split; [exact Hloop|]. split; [exact Hb|].
  exact (guard_read_count Demo.cfg Demo.guarded sp sp (Some 0%Q) (Demo.still 10) s b clk' s'
           Hloop).
Defined.


(** A move that settles at once: afterwards the cache of axis 1 holds the
    final position reported. *)
Lemma execute_result_cached_witness :
  let s := Demo.servo 0 (Demo.bus_of [] (Demo.reading 0 None)) in
  ∃ r s',
    execute_time_synced Demo.cfg Demo.one_step (Demo.still 8) s = (Ok r, s') ∧
    ∃ p, final_pos r !! 1 = Some p ∧
         last_present_ticks s' !! 1 = Some (Some p) ∧
         last_present_current s' !! 1 = final_current r !! 1 ∧
         is_Some (final_current r !! 1).
Proof.
  intros s.
  assert (∃ r s', execute_time_synced Demo.cfg Demo.one_step (Demo.still 8) s = (Ok r, s'))
    as (r & s' & Hrun).
  { do 2 eexists. vm_compute. reflexivity. }
  exists r, s'. split; [exact Hrun|].
  apply (execute_result_cached Demo.cfg Demo.one_step (Demo.still 8) s r s' 1 Hrun).
  simpl. left.
Defined.

(** ** C3 *)



(** The product that is truncated is the binary64 one.  The float nearest to
    1.2 times 50 is a little less than 60 and its floor is 59, but the
    binary64 product is 60 and the code streams 60 steps; in the same way
    0.3 s at 10 Hz gives 3 steps where the exact product has floor 2. *)
Example steps_of_binary64_product :
  (duration_s Demo.nearly_sixty == Py.b64 (12 # 10))%Q ∧
  Qfloor (duration_s Demo.nearly_sixty * inject_Z (poll_hz Demo.nearly_sixty)) = 59 ∧
  (Py.fmul (duration_s Demo.nearly_sixty) (Py.float (poll_hz Demo.nearly_sixty)) == 60)%Q ∧
  exec_steps Demo.nearly_sixty = 60 ∧
  (duration_s Demo.nearly_three == Py.b64 (3 # 10))%Q ∧
  Qfloor (duration_s Demo.nearly_three * inject_Z (poll_hz Demo.nearly_three)) = 2 ∧
  (Py.fmul (duration_s Demo.nearly_three) (Py.float (poll_hz Demo.nearly_three)) == 3)%Q ∧
  exec_steps Demo.nearly_three = 3.
Proof. by vm_compute. Qed.

(** Rocq's primitive binary64 floats give the same three step counts, for
    0.875, for the float nearest to 1.2 and for the float nearest to 0.3. *)
Example steps_on_primitive_floats :
  Binary64.exec_steps 0.875 50 = exec_steps Demo.fractional ∧
  Binary64.exec_steps 0x1.3333333333333p+0 50 = exec_steps Demo.nearly_sixty ∧
  Binary64.exec_steps 0x1.3333333333333p-2 10 = exec_steps Demo.nearly_three.
Proof. by vm_compute. Qed.

(** Targets of 90 degrees for axis 1 and of a million turns for axis 7,
    which is not configured: the first is stored as 1024 ticks, the second
    at the upper end of the range, and axis 2 keeps its command. *)
Lemma set_targets_abs_deg_stores_witness :
  let out := set_targets_abs_deg Demo.cfg [(1, 90%Q); (7, 360000000%Q)]
               (Demo.servo 5 (Demo.bus_of [] Demo.silent)) in
  out.1 = Ok tt ∧
  cmd_ticks out.2 !! 1 = Some 1024 ∧
  cmd_ticks out.2 !! 7 = Some (2 ^ 31 - 1) ∧
  cmd_ticks out.2 !! 2 = Some 5.
Proof.
  destruct (set_targets_abs_deg_stores Demo.cfg [(1, 90%Q); (7, 360000000%Q)]
              (Demo.servo 5 (Demo.bus_of [] Demo.silent)))
    as (Hok & _ & _ & _ & _ & Hkeep & _ & Hset).
  - repeat constructor; by vm_compute.
  - split; [exact Hok|].
    assert (NoDup [(1, 90%Q); (7, 360000000%Q)].*1) as Hnd.
    { simpl. apply NoDup_cons. split; [|apply NoDup_singleton].
      intros H. apply list_elem_of_singleton in H. discriminate. }
    split; [|split].
    + rewrite (Hset Hnd 1 90%Q) by left. reflexivity.
    + rewrite (Hset Hnd 7 360000000%Q) by (right; left). reflexivity.
    + rewrite (Hkeep 2); [reflexivity|]. simpl. intros H.
      apply elem_of_cons in H as [H|H]; [discriminate|].
      apply list_elem_of_singleton in H. discriminate.
Defined.

(** A nudge of axis 1, then of axis 7, which has no command, then of axis
    2: the call fails with [KeyError] for axis 7, axis 1 has moved by 1024
    ticks and axis 2 has not moved. *)
Lemma nudge_rel_deg_outcome_witness :
  let s := Demo.servo 5 (Demo.bus_of [] Demo.silent) in
  let out := nudge_rel_deg Demo.cfg [(1, 90%Q); (7, 90%Q); (2, 90%Q)] s in
  out.1 = Raise (KeyError 7) ∧
  (∃ applied d skipped,
     [(1, 90%Q); (7, 90%Q); (2, 90%Q)] = applied ++ (7, d) :: skipped ∧
     nudge_rel_deg Demo.cfg applied s = (Ok tt, out.2)) ∧
  cmd_ticks out.2 !! 1 = Some 1029 ∧
  cmd_ticks out.2 !! 2 = Some 5 ∧
  cmd_ticks out.2 !! 7 = None.
Proof.
  intros s out.
  assert (out.1 = Raise (KeyError 7)) as Hraise by (vm_compute; reflexivity).
  split; [exact Hraise|].
  destruct (nudge_rel_deg_outcome Demo.cfg [(1, 90%Q); (7, 90%Q); (2, 90%Q)] s)
    as (_ & _ & _ & _ & _ & _ & Hout).
  - repeat constructor; by vm_compute.
  - fold out in Hout. rewrite Hraise in Hout.
    destruct Hout as (applied & k & d & skipped & Hsplit & Hk & _ & Hrun).
    injection Hk as <-.
    split; [by exists applied, d, skipped|].
    split; [|split]; vm_compute; reflexivity.
Defined.
